(** * yet-another-3d-thing: the matrix engine, the edge model and the rasterizer

    A shallow embedding of the Go packages [matrix], [display], [draw],
    [parser] and [main], followed by the properties of the specification that
    were checked against it and by further properties of the code.

    Conventions of the embedding.
    - [float64] is Rocq's primitive binary64 float: [+], [-], [*], [/] and the
      comparisons are the IEEE 754 operations, rounded to nearest even after
      every operation (no fused multiply-add), as the Go compiler emits them
      on amd64.
    - [int] is a 64-bit two's complement integer, kept in [Z] with the
      wrap-around written out.
    - A slice is a list; an index outside the slice is a run-time panic, the
      outcome [Panic] of the result type [res].
    - A loop whose exit depends on floating-point values takes a [fuel]
      argument; [OutOfFuel] is the outcome of a run that needs more
      iterations than that.
    - [math.Sin], [math.Cos] and [math.Pow] belong to Go's standard library,
      not to this repository: they are the fields of the class [GoMath];
      [strconv.ParseFloat] is the field of the class [GoStrconv].
      [strings.Contains] and [strings.Fields] are written out.
    - The script file is the list of the lines that [bufio.Scanner] yields
      from it; after the last line [scanner.Text()] is the empty string.
    - What the program asks of the operating system (the file [pic.ppm],
      the commands [display] and [convert]) is recorded in a trace of
      events. Whether [os.OpenFile] and [exec.Command(...).Output()] return
      an error is the answer of the class [display.GoOS], which may depend
      on all that was asked before; on an error the code panics. *)

From Stdlib Require Import ZArith Floats Reals Lra Psatz.
From stdpp Require Import base list strings pretty gmap.

Set Warnings "-inexact-float,-clear-no-such-hyp".

(** ** The Go run time *)

Module Go.

Inductive res (A : Type) : Type :=
| Ok (a : A)
| Panic
| OutOfFuel.
Arguments Ok {A} a.
Arguments Panic {A}.
Arguments OutOfFuel {A}.

#[global] Instance res_ret : MRet res := @Ok.
#[global] Instance res_bind : MBind res := λ A B f m,
  match m with
  | Ok a => f a
  | Panic => Panic
  | OutOfFuel => OutOfFuel
  end.

(** [s[i]] on a slice. *)
Definition index {A} (s : list A) (i : nat) : res A :=
  match s !! i with
  | Some a => Ok a
  | None => Panic
  end.

(** [s[i] = v] on a slice. *)
Definition store_at {A} (s : list A) (i : nat) (v : A) : res (list A) :=
  if decide (i < length s) then Ok (<[i := v]> s) else Panic.

(** [s[i]] and [s[i] = v] where the index is an [int]. *)
Definition index_int {A} (s : list A) (i : Z) : res A :=
  if decide (0 ≤ i)%Z then index s (Z.to_nat i) else Panic.

Definition store_at_int {A} (s : list A) (i : Z) (v : A) : res (list A) :=
  if decide (0 ≤ i)%Z then store_at s (Z.to_nat i) v else Panic.

(** [for _, a := range l { s = f(s, a) }]. *)
Fixpoint foldM {A St} (f : St → A → res St) (l : list A) (s : St) : res St :=
  match l with
  | [] => Ok s
  | a :: l' => s' ← f s a; foldM f l' s'
  end.

(** The pairs [(i, a)] a [for i, a := range l] loop goes through. *)
Definition range {A} (l : list A) : list (nat * A) := zip (seq 0 (length l)) l.

(** [for cond(s) { s = body(s) }]. *)
Fixpoint while {St} (fuel : nat) (cond : St → bool) (body : St → res St) (s : St) : res St :=
  match fuel with
  | O => OutOfFuel
  | S fuel' => if cond s then s' ← body s; while fuel' cond body s' else Ok s
  end.

(** [for i := i0; cond(i); i = next(i) { s = body(i, s) }] over a
    floating-point counter. *)
Fixpoint for_float {St} (fuel : nat) (cond : float → bool) (next : float → float)
    (body : float → St → res St) (i : float) (s : St) : res St :=
  match fuel with
  | O => OutOfFuel
  | S fuel' =>
      if cond i then s' ← body i s; for_float fuel' cond next body (next i) s'
      else Ok s
  end.

(** Two's complement wrap-around of [int]. *)
Definition int_min : Z := - 2 ^ 63.
Definition int_max : Z := 2 ^ 63 - 1.
Definition int_wrap (z : Z) : Z := (z + 2 ^ 63) `mod` 2 ^ 64 - 2 ^ 63.

(** [int(f)]: the fraction is discarded (truncation towards zero). Where the
    value does not fit [int] (also for NaN and the infinities) Go leaves the
    result to the implementation; this is amd64's, the smallest [int]. *)
Definition int_of_float64 (f : float) : Z :=
  match Prim2SF f with
  | S754_zero _ => 0
  | S754_finite s m e =>
      let a := if (0 <=? e)%Z then Z.shiftl (Z.pos m) e else Z.shiftr (Z.pos m) (- e) in
      let v := if s then - a else a in
      if bool_decide (int_min ≤ v ≤ int_max) then v else int_min
  | _ => int_min
  end%Z.

(** [float64(n)]: the nearest binary64 value. *)
Definition float64_of_int (n : Z) : float :=
  SF2Prim (binary_normalize prec emax n 0 false).

(** Go's [math] package. [Pi] is the constant rounded to binary64. *)
Class GoMath := {
  math_Sin : float → float;
  math_Cos : float → float;
  math_Pow : float → float → float
}.
Definition math_Pi : float := 3.14159265358979323846264338327950288419716939937510582097494459%float.

(** Go's [strconv] package: [ParseFloat(s, 64)], [None] where it returns an
    error. *)
Class GoStrconv := {
  strconv_ParseFloat : string → option float
}.

(** [strings.Contains(s, substr)]. *)
Fixpoint strings_Contains (s substr : string) : bool :=
  String.prefix substr s ||
  match s with
  | EmptyString => false
  | String _ s' => strings_Contains s' substr
  end.

(** The number of bytes of the white space character at the head of [s], 0
    where there is none. White space is what [unicode.IsSpace] takes for it,
    in UTF-8: tab, line feed, vertical tab, form feed, carriage return and
    space, U+0085, U+00A0, U+1680, U+2000 to U+200A, U+2028, U+2029, U+202F,
    U+205F and U+3000. *)
Definition space_width (s : string) : nat :=
  match s with
  | String a s1 =>
      let a := Ascii.N_of_ascii a in
      if bool_decide (a ∈ [9; 10; 11; 12; 13; 32]%N) then 1%nat
      else
        match s1 with
        | String b s2 =>
            let b := Ascii.N_of_ascii b in
            if bool_decide (a = 194 ∧ (b = 133 ∨ b = 160))%N then 2%nat
            else
              match s2 with
              | String c _ =>
                  let c := Ascii.N_of_ascii c in
                  if bool_decide ((a = 225 ∧ b = 154 ∧ c = 128) ∨
                                  (a = 226 ∧ b = 128 ∧
                                   (128 ≤ c ≤ 138 ∨ c = 168 ∨ c = 169 ∨ c = 175)) ∨
                                  (a = 226 ∧ b = 129 ∧ c = 159) ∨
                                  (a = 227 ∧ b = 128 ∧ c = 128))%N
                  then 3%nat else 0%nat
              | EmptyString => 0%nat
              end
        | EmptyString => 0%nat
        end
  | EmptyString => 0%nat
  end.

(** The loop of [strings.Fields]: [skip] bytes of a white space character
    are still to be passed over, [field] is the field being read and [out]
    holds the fields read. *)
Fixpoint fields_from (s : string) (skip : nat) (field : string) (out : list string)
    : list string :=
  let close out := if decide (field = EmptyString) then out else out ++ [field] in
  match s with
  | EmptyString => close out
  | String a s' =>
      match skip with
      | S k => fields_from s' k field out
      | O =>
          match space_width s with
          | O => fields_from s' 0 (field +:+ String a EmptyString) out
          | S k => fields_from s' k EmptyString (close out)
          end
      end
  end.

(** [strings.Fields(s)]. *)
Definition strings_Fields (s : string) : list string := fields_from s 0 EmptyString [].

End Go.
Import Go.

(** [[][]float64] and [[][][]int]. *)
Abbreviation Matrix := (list (list float)).
Abbreviation Screen := (list (list (list Z))).

(** ** package matrix *)

Module matrix.
Local Open Scope float_scope.

(** A matrix variable is addressed by its name; [*p] of a name that holds no
    matrix is a nil dereference. *)
Definition deref (σ : gmap string Matrix) (p : string) : res Matrix :=
  match σ !! p with
  | Some m => Ok m
  | None => Panic
  end.

Definition NewMatrix (params : list nat) : Matrix :=
  let '(rows, cols) :=
    match params with
    | r :: c :: _ => (r, c)
    | _ => (4%nat, 4%nat)
    end in
  replicate rows (replicate cols 0).

Definition MakeIdentity (matrix : Matrix) : Matrix :=
  imap (λ i row, imap (λ j _, if (i =? j)%nat then 1 else 0) row) matrix.

(** [m[i][j] = v]. *)
Definition set_cell (m : Matrix) (i j : nat) (v : float) : res Matrix :=
  row ← index m i;
  row' ← store_at row j v;
  Ok (<[i := row']> m).

Definition MakeBezier : res Matrix :=
  let t := NewMatrix [] in
  t ← set_cell t 0 0 (-1);
  t ← set_cell t 0 1 3;
  t ← set_cell t 0 2 (-3);
  t ← set_cell t 0 3 1;
  t ← set_cell t 1 0 3;
  t ← set_cell t 1 1 (-6);
  t ← set_cell t 1 2 3;
  t ← set_cell t 2 0 (-3);
  t ← set_cell t 2 1 3;
  t ← set_cell t 3 0 1;
  Ok t.

Definition MakeHermite : res Matrix :=
  let t := NewMatrix [] in
  t ← set_cell t 0 0 2;
  t ← set_cell t 0 1 (-2);
  t ← set_cell t 0 2 1;
  t ← set_cell t 0 3 1;
  t ← set_cell t 1 0 (-3);
  t ← set_cell t 1 1 3;
  t ← set_cell t 1 2 (-2);
  t ← set_cell t 1 3 (-1);
  t ← set_cell t 2 2 1;
  t ← set_cell t 3 0 1;
  Ok t.

Fixpoint ExtractColumn (matrix : Matrix) (colIndex : nat) : res (list float) :=
  match matrix with
  | [] => Ok []
  | row :: rest =>
      v ← index row colIndex;
      col ← ExtractColumn rest colIndex;
      Ok (v :: col)
  end.

(** The loop of [dot]: [x] is what is left of the range, [i] the index
    reached. *)
Fixpoint dot_from (x : list float) (i : nat) (y : list float) (output : float) : res float :=
  match x with
  | [] => Ok output
  | xi :: x' =>
      yi ← index y i;
      dot_from x' (S i) y (output + xi * yi)
  end.

Definition dot (x y : list float) : res float := dot_from x 0 y 0.

(** The inner loop of [MultiplyMatrices]: row [i] of the product. *)
Definition product_row (m2 : Matrix) (cols : nat) (i : nat) (row : list float)
    (product : Matrix) : res Matrix :=
  foldM (λ product j,
           col ← ExtractColumn m2 j;
           v ← dot row col;
           set_cell product i j v)
        (seq 0 cols) product.

(** [MultiplyMatrices] up to its last line: the matrix [product]. *)
Definition product_of (m1 m2 : Matrix) : res Matrix :=
  m2_0 ← index m2 0;
  let product := NewMatrix [length m1; length m2_0] in
  foldM (λ product '(i, row), product_row m2 (length m2_0) i row product)
        (range m1) product.

(** [MultiplyMatrices(m1Ptr, m2Ptr)] on the store of matrix variables: the
    last line, [*m2Ptr = product], is its only write. *)
Definition MultiplyMatrices (m1Ptr m2Ptr : string) (σ : gmap string Matrix)
    : res (gmap string Matrix) :=
  m1 ← deref σ m1Ptr;
  m2 ← deref σ m2Ptr;
  product ← product_of m1 m2;
  Ok (<[m2Ptr := product]> σ).

Definition MakeTranslationMatrix (params : list float) : res Matrix :=
  let m := MakeIdentity (NewMatrix []) in
  p0 ← index params 0;
  p1 ← index params 1;
  p2 ← index params 2;
  m ← set_cell m 0 3 p0;
  m ← set_cell m 1 3 p1;
  m ← set_cell m 2 3 p2;
  Ok m.

Definition MakeDilationMatrix (params : list float) : res Matrix :=
  let m := MakeIdentity (NewMatrix []) in
  p0 ← index params 0;
  p1 ← index params 1;
  p2 ← index params 2;
  m ← set_cell m 0 0 p0;
  m ← set_cell m 1 1 p1;
  m ← set_cell m 2 2 p2;
  Ok m.

Section Rotations.
Context `{GoMath}.

Definition MakeRotX (theta : float) : res Matrix :=
  let m := NewMatrix [] in
  let radians := theta / 180 * math_Pi in
  let '(sin, cos) := (math_Sin radians, math_Cos radians) in
  let m := MakeIdentity m in
  m ← set_cell m 1 1 cos;
  m ← set_cell m 1 2 (- sin);
  m ← set_cell m 2 1 sin;
  m ← set_cell m 2 2 cos;
  Ok m.

Definition MakeRotY (theta : float) : res Matrix :=
  let m := NewMatrix [] in
  let radians := theta / 180 * math_Pi in
  let '(sin, cos) := (math_Sin radians, math_Cos radians) in
  let m := MakeIdentity m in
  m ← set_cell m 0 0 cos;
  m ← set_cell m 0 2 sin;
  m ← set_cell m 2 0 (- sin);
  m ← set_cell m 2 2 cos;
  Ok m.

Definition MakeRotZ (theta : float) : res Matrix :=
  let m := NewMatrix [] in
  let radians := theta / 180 * math_Pi in
  let '(sin, cos) := (math_Sin radians, math_Cos radians) in
  let m := MakeIdentity m in
  m ← set_cell m 0 0 cos;
  m ← set_cell m 0 1 (- sin);
  m ← set_cell m 1 0 sin;
  m ← set_cell m 1 1 cos;
  Ok m.

End Rotations.

End matrix.

(** ** package display *)

Module display.

Definition XRES : Z := 500.
Definition YRES : Z := 500.

Definition NewScreen : Screen :=
  replicate (Z.to_nat YRES) (replicate (Z.to_nat XRES) [0; 0; 0]%Z).

Definition ClearScreen (screen : Screen) : Screen :=
  (λ _, replicate (Z.to_nat XRES) [0; 0; 0]%Z) <$> screen.

Definition PPMFilename : string := "pic.ppm".

(** [uint8(n)] of an [int]. *)
Definition uint8 (n : Z) : Z := n `mod` 256.

(** [fmt.Sprintf("%d %d %d ", uint8(rgb[0]), uint8(rgb[1]), uint8(rgb[2]))]. *)
Definition pixel_text (rgb : list Z) : res string :=
  r ← index rgb 0;
  g ← index rgb 1;
  b ← index rgb 2;
  Ok (pretty (uint8 r) +:+ " " +:+ pretty (uint8 g) +:+ " " +:+ pretty (uint8 b) +:+ " ").

(** [fmt.Sprintf("P3 %d %d 255\n", XRES, YRES)]. *)
Definition ppm_header : string :=
  "P3 " +:+ pretty XRES +:+ " " +:+ pretty YRES +:+ " 255" +:+ String (Ascii.ascii_of_nat 10) EmptyString.

(** What the operating system is asked for: a file written from its start
    (it is opened with [O_CREATE|O_WRONLY], so what an older and longer file
    held beyond the new text stays), and a command run. *)
Inductive event :=
| WriteFile (name content : string)
| Exec (name : string) (args : list string).

(** The answers of the operating system, given what it was asked before:
    [os_OpenFile past name] is whether [os.OpenFile(name, ...)] returns a
    nil error, [exec_Output past name args] whether
    [exec.Command(name, args...).Output()] does. *)
Class GoOS := {
  os_OpenFile : list event → string → bool;
  exec_Output : list event → string → list string → bool
}.

(** [WriteScreenToPPM]: the text it builds in [buffer] and writes. *)
Definition ppm_text (screen : Screen) : res string :=
  foldM (λ buffer i,
           foldM (λ buffer j,
                    row ← index screen i;
                    rgb ← index row j;
                    t ← pixel_text rgb;
                    Ok (buffer +:+ t))
                 (seq 0 (Z.to_nat XRES)) buffer)
        (seq 0 (Z.to_nat YRES)) ppm_header.

Section System.
Context `{GoOS}.

(** [past] is what the operating system was asked before the call. The
    result of [file.WriteString] is dropped by the code: an error there
    goes unnoticed. *)
Definition WriteScreenToPPM (past : list event) (screen : Screen) : res (list event) :=
  if os_OpenFile past PPMFilename then
    text ← ppm_text screen;
    Ok [WriteFile PPMFilename text]
  else Panic.

Definition DisplayScreen (past : list event) (screen : Screen) : res (list event) :=
  written ← WriteScreenToPPM past screen;
  if exec_Output (past ++ written) "display" [PPMFilename]
  then Ok (written ++ [Exec "display" [PPMFilename]])
  else Panic.

Definition WriteScreenToExtension (past : list event) (screen : Screen) (filename : string)
    : res (list event) :=
  written ← WriteScreenToPPM past screen;
  if exec_Output (past ++ written) "convert" [PPMFilename; filename]
  then Ok (written ++ [Exec "convert" [PPMFilename; filename]])
  else Panic.

End System.

End display.

(** ** package draw *)

Module draw.
Local Open Scope float_scope.

(** The state of one of [DrawLine]'s loops: the screen and the variables
    [x], [y] and [d]. *)
Record pen := Pen { scr : Screen; pen_x : float; pen_y : float; pen_d : float }.

(** The package variable [DefaultDrawColor] is never written in place:
    [SetColor] binds it to a fresh slice. The functions that read it take its
    value as their first argument. *)
Definition DefaultDrawColor_init : list Z := [0; 0; 0]%Z.

Definition SetColor (DefaultDrawColor : list Z) (color : string) : list Z :=
  if decide (color = "yellow") then [255; 255; 0]%Z
  else if decide (color = "white") then [255; 255; 255]%Z
  else if decide (color = "black") then [0; 0; 0]%Z
  else DefaultDrawColor.

Definition float64ToInt (f : float) : Z :=
  if f - float64_of_int (int_of_float64 f) <? 0.5 then int_of_float64 f
  else int_of_float64 (f + 1).

Definition plot (DefaultDrawColor : list Z) (screen : Screen) (x y : float) : res Screen :=
  let newX := float64ToInt x in
  let newY := int_wrap (int_wrap (display.YRES - float64ToInt y) - 1) in
  if ((newX >=? 0) && (newX <? display.XRES) && (newY >=? 0) && (newY <? display.YRES))%Z
  then
    row ← index_int screen newY;
    row' ← store_at_int row newX DefaultDrawColor;
    store_at_int screen newY row'
  else Ok screen.

Definition DrawLine (fuel : nat) (DefaultDrawColor : list Z) (screen : Screen)
    (x0 y0 x1 y1 : float) : res Screen :=
  let '(x0, y0, x1, y1) := if x1 <? x0 then (x1, y1, x0, y0) else (x0, y0, x1, y1) in
  let A := y1 - y0 in
  let B := x0 - x1 in
  let x := x0 in
  let y := y0 in
  let plot_pen p := plot DefaultDrawColor (scr p) (pen_x p) (pen_y p) in
  if B =? 0 then
    let '(y0, y1) := if y1 <? y0 then (y1, y0) else (y0, y1) in
    p ← while fuel (λ p, pen_y p <=? y1)
          (λ p, s ← plot_pen p; Ok (Pen s (pen_x p) (pen_y p + 1) (pen_d p)))
          (Pen screen x y0 0);
    Ok (scr p)
  else
    let slope := A / (- B) in
    let p := Pen screen x y 0 in
    p ← (if (0 <=? slope) && (slope <=? 1) then
           while fuel (λ p, (pen_x p <=? x1) && (pen_y p <=? y1))
             (λ p, s ← plot_pen p;
                   let '(y, d) := if 0 <? pen_d p then (pen_y p + 1, pen_d p + 2 * B)
                                  else (pen_y p, pen_d p) in
                   Ok (Pen s (pen_x p + 1) y (d + 2 * A)))
             (Pen (scr p) (pen_x p) (pen_y p) (2 * A + B))
         else Ok p);
    p ← (if 1 <? slope then
           while fuel (λ p, (pen_x p <=? x1) && (pen_y p <=? y1))
             (λ p, s ← plot_pen p;
                   let '(x, d) := if pen_d p <? 0 then (pen_x p + 1, pen_d p + 2 * A)
                                  else (pen_x p, pen_d p) in
                   Ok (Pen s x (pen_y p + 1) (d + 2 * B)))
             (Pen (scr p) (pen_x p) (pen_y p) (A + 2 * B))
         else Ok p);
    p ← (if (slope <? 0) && (-1 <=? slope) then
           while fuel (λ p, (pen_x p <=? x1) && (y1 <=? pen_y p))
             (λ p, s ← plot_pen p;
                   let '(y, d) := if pen_d p <? 0 then (pen_y p - 1, pen_d p - 2 * B)
                                  else (pen_y p, pen_d p) in
                   Ok (Pen s (pen_x p + 1) y (d + 2 * A)))
             (Pen (scr p) (pen_x p) (pen_y p) (2 * A - B))
         else Ok p);
    p ← (if slope <? -1 then
           while fuel (λ p, (pen_x p <=? x1) && (y1 <=? pen_y p))
             (λ p, s ← plot_pen p;
                   let '(x, d) := if 0 <? pen_d p then (pen_x p + 1, pen_d p + 2 * A)
                                  else (pen_x p, pen_d p) in
                   Ok (Pen s x (pen_y p - 1) (d - 2 * B)))
             (Pen (scr p) (pen_x p) (pen_y p) (A - 2 * B))
         else Ok p);
    Ok (scr p).

Definition DrawLineFromParams (fuel : nat) (DefaultDrawColor : list Z) (screen : Screen)
    (params : list float) : res Screen :=
  if decide (4 ≤ length params)%nat then
    p0 ← index params 0;
    p1 ← index params 1;
    p2 ← index params 2;
    p3 ← index params 3;
    DrawLine fuel DefaultDrawColor screen p0 p1 p2 p3
  else Ok screen.

(** One turn of the loop of [DrawLines]: the state is the loop variable [i]
    and the screen. *)
Definition DrawLines_turn (fuel : nat) (DefaultDrawColor : list Z) (edges : Matrix)
    (st : nat * Screen) : res (nat * Screen) :=
  let i := st.1 in
  point ← matrix.ExtractColumn edges i;
  nextPoint ← matrix.ExtractColumn edges (i + 1);
  x0 ← index point 0;
  y0 ← index point 1;
  x1 ← index nextPoint 0;
  y1 ← index nextPoint 1;
  screen ← DrawLine fuel DefaultDrawColor st.2 x0 y0 x1 y1;
  Ok ((i + 2)%nat, screen).

(** [len(edges[0])] is read when the loop condition is first evaluated, and
    [edges] does not change. *)
Definition DrawLines (fuel : nat) (DefaultDrawColor : list Z) (edges : Matrix)
    (screen : Screen) : res Screen :=
  edges_0 ← index edges 0;
  st ← while fuel
         (λ st : nat * Screen, bool_decide (Z.of_nat st.1 < Z.of_nat (length edges_0) - 1)%Z)
         (DrawLines_turn fuel DefaultDrawColor edges)
         (0%nat, screen);
  Ok st.2.

(** [m[k] = append(m[k], v)]. *)
Definition append_to (m : Matrix) (k : nat) (v : float) : res Matrix :=
  row ← index m k;
  Ok (<[k := row ++ [v]]> m).

Definition AddPoint (m : Matrix) (x y z : float) : res Matrix :=
  m ← append_to m 0 x;
  m ← append_to m 1 y;
  m ← append_to m 2 z;
  append_to m 3 1.

Definition AddEdge (m : Matrix) (params : list float) : res Matrix :=
  x0 ← index params 0;
  y0 ← index params 1;
  z0 ← index params 2;
  x1 ← index params 3;
  y1 ← index params 4;
  z1 ← index params 5;
  m ← AddPoint m x0 y0 z0;
  AddPoint m x1 y1 z1.

Definition AddBox (m : Matrix) (a : list float) : res Matrix :=
  x ← index a 0;
  y ← index a 1;
  z ← index a 2;
  width ← index a 3;
  height ← index a 4;
  depth ← index a 5;
  m ← AddEdge m [x; y; z; x + width; y; z];
  m ← AddEdge m [x; y; z; x; y - height; z];
  m ← AddEdge m [x; y; z; x; y; z - depth];
  m ← AddEdge m [x; y - height; z; x; y - height; z - depth];
  m ← AddEdge m [x; y - height; z; x + width; y - height; z];
  m ← AddEdge m [x; y - height; z - depth; x + width; y - height; z - depth];
  m ← AddEdge m [x + width; y - height; z; x + width; y - height; z - depth];
  m ← AddEdge m [x; y; z - depth; x + width; y; z - depth];
  m ← AddEdge m [x; y; z - depth; x; y - height; z - depth];
  m ← AddEdge m [x + width; y; z; x + width; y - height; z];
  m ← AddEdge m [x + width; y; z; x + width; y; z - depth];
  AddEdge m [x + width; y; z - depth; x + width; y - height; z - depth].

Section Curves.
Context `{GoMath}.

Definition AddCircle (fuel : nat) (m : Matrix) (params : list float) : res Matrix :=
  cx ← index params 0;
  cy ← index params 1;
  _ ← index params 2;
  r ← index params 3;
  for_float fuel (λ t, t <=? 1.0) (λ t, t + 0.001)
    (λ t m,
       let x := r * math_Cos (2 * math_Pi * t) + cx in
       let y := r * math_Sin (2 * math_Pi * t) + cy in
       AddPoint m x y 0)
    0.0 m.

Definition CubicEval (fuel : nat) (x : float) (coefs : Matrix) : res float :=
  for_float fuel (λ i, 0.0 <=? i) (λ i, i - 1)
    (λ i y,
       row ← index_int coefs (int_of_float64 (3 - i));
       c ← index row 0;
       Ok (y + c * math_Pow x i))
    3.0 0.

Definition generateCurveCoefs (p0 p1 p2 p3 : float) (curveType : string) : res Matrix :=
  coefGenerator ←
    (if decide (curveType = "hermite") then matrix.MakeHermite
     else if decide (curveType = "bezier") then matrix.MakeBezier
     else Ok []);
  let m := [[p0]; [p1]; [p2]; [p3]] in
  σ ← matrix.MultiplyMatrices "coefGenerator" "m"
        (<["coefGenerator" := coefGenerator]> (<["m" := m]> ∅));
  matrix.deref σ "m".

Definition AddCurve (fuel : nat) (m : Matrix) (x0 y0 x1 y1 x2 y2 x3 y3 step : float)
    (curveType : string) : res Matrix :=
  xCoefs ← generateCurveCoefs x0 x1 x2 x3 curveType;
  yCoefs ← generateCurveCoefs y0 y1 y2 y3 curveType;
  for_float fuel (λ t, t <=? 1.0) (λ t, t + step)
    (λ t m,
       x ← CubicEval fuel t xCoefs;
       y ← CubicEval fuel t yCoefs;
       AddPoint m x y 0)
    0.0 m.

Definition GenerateSphere (fuel : nat) (cx cy cz r : float) : res Matrix :=
  for_float fuel (λ i, i <=? 1.0) (λ i, i + 0.01)
    (λ i points,
       let fi := 2 * math_Pi * i in
       for_float fuel (λ j, j <=? 0.5) (λ j, j + 0.01)
         (λ j points,
            let theta := 2 * math_Pi * j in
            let x := r * math_Cos theta + cx in
            let y := r * math_Sin theta * math_Cos fi + cy in
            let z := r * math_Sin theta * math_Sin fi + cz in
            Ok (points ++ [[x; y; z]]))
         0.0 points)
    0.0 [].

Definition GenerateTorus (fuel : nat) (cx cy cz r2 r1 : float) : res Matrix :=
  for_float fuel (λ i, i <=? 1.0) (λ i, i + 0.01)
    (λ i points,
       let fi := 2 * math_Pi * i in
       for_float fuel (λ j, j <=? 1.0) (λ j, j + 0.01)
         (λ j points,
            let theta := 2 * math_Pi * j in
            let x := math_Cos fi * (r2 * math_Cos theta + r1) + cx in
            let y := r2 * math_Sin theta + cy in
            let z := -1 * math_Sin fi * (r2 * math_Cos theta + r1) + cz in
            Ok (points ++ [[x; y; z]]))
         0.0 points)
    0.0 [].

(** The body of the loops of [AddSphere] and [AddTorus]. *)
Definition add_dot (m : Matrix) (p : list float) : res Matrix :=
  p0 ← index p 0;
  p1 ← index p 1;
  p2 ← index p 2;
  AddEdge m [p0; p1; p2; p0 + 1; p1 + 1; p2 + 1].

Definition AddSphere (fuel : nat) (m : Matrix) (a : list float) : res Matrix :=
  cx ← index a 0;
  cy ← index a 1;
  cz ← index a 2;
  r ← index a 3;
  points ← GenerateSphere fuel cx cy cz r;
  foldM add_dot points m.

Definition AddTorus (fuel : nat) (m : Matrix) (a : list float) : res Matrix :=
  cx ← index a 0;
  cy ← index a 1;
  cz ← index a 2;
  r1 ← index a 3;
  r2 ← index a 4;
  points ← GenerateTorus fuel cx cy cz r1 r2;
  foldM add_dot points m.

End Curves.

End draw.

(** ** package parser: the transform commands of [ParseFile] *)

Module parser.

(** The variables of [ParseFile] that hold matrices, as names of the store. *)
Definition transform : string := "transform".
Definition edges : string := "edges".
Definition stepTransform : string := "stepTransform".

(** The command [apply]. *)
Definition apply (σ : gmap string Matrix) : res (gmap string Matrix) :=
  matrix.MultiplyMatrices transform edges σ.

(** The last statement of the branch of the commands [move], [scale] and
    [rotate]: [stepTransform] has been built, [transform] takes it in. *)
Definition composeStep (σ : gmap string Matrix) : res (gmap string Matrix) :=
  t ← matrix.deref σ transform;
  if decide (length t = 0%nat) then
    s ← matrix.deref σ stepTransform;
    Ok (<[transform := s]> σ)
  else matrix.MultiplyMatrices stepTransform transform σ.

(** *** [ParseFile]

    The script is the list of the lines that the scanner yields; past the
    last of them [scanner.Text()] is the empty string. The variables
    [transform] and [edges] live in the store [vars]; [trace] is what the
    operating system was asked for, oldest first. *)
Record state := State {
  vars : gmap string Matrix;
  screen : Screen;
  DefaultDrawColor : list Z;
  trace : list display.event
}.

Definition set_vars (st : state) (σ : gmap string Matrix) : state :=
  State σ (screen st) (DefaultDrawColor st) (trace st).

Definition set_screen (st : state) (s : Screen) : state :=
  State (vars st) s (DefaultDrawColor st) (trace st).

Definition emit (st : state) (events : list display.event) : state :=
  State (vars st) (screen st) (DefaultDrawColor st) (trace st ++ events).

Section ParseFile.
Context `{GoMath} `{GoStrconv} `{display.GoOS}.

Definition FloatParams (text : string) : res (list float) :=
  foldM (λ args v,
           match strconv_ParseFloat v with
           | Some floated => Ok (args ++ [floated])
           | None => Panic
           end)
        (strings_Fields text) [].

(** [draw.DrawLines(edges, screen)] on the state. *)
Definition draw_edges (fuel : nat) (st : state) : res state :=
  e ← matrix.deref (vars st) edges;
  s ← draw.DrawLines fuel (DefaultDrawColor st) e (screen st);
  Ok (set_screen st s).

(** A function of package [draw] that adds to the edge matrix. *)
Definition add_to_edges (f : Matrix → res Matrix) (st : state) : res state :=
  e ← matrix.deref (vars st) edges;
  e ← f e;
  Ok (set_vars st (<[edges := e]> (vars st))).

(** The way the loop of [ParseFile] goes on after a line: to the next line,
    or out of the function. *)
Inductive outcome :=
| Next (st : state)
| Return (st : state).

(** The commands that stand on one line. [None]: the line is none of them. *)
Definition immediate (fuel : nat) (line : string) (st : state) : option (res outcome) :=
  if decide (line = "ident") then
    Some (t ← matrix.deref (vars st) transform;
          Ok (Next (set_vars st (<[transform := matrix.MakeIdentity t]> (vars st)))))
  else if decide (line = "display") then
    Some (st ← draw_edges fuel (set_screen st (display.ClearScreen (screen st)));
          shown ← display.DisplayScreen (trace st) (screen st);
          Ok (Next (emit st shown)))
  else if decide (line = "clear") then
    Some (Ok (Next (set_vars st (<[edges := [[]; []; []; []]]> (vars st)))))
  else if decide (line = "apply") then
    Some (σ ← apply (vars st); Ok (Next (set_vars st σ)))
  else if decide (line = "quit") then
    Some (Ok (Return st))
  else if decide (line = "draw") then
    Some (st ← draw_edges fuel st; Ok (Next st))
  else if decide (line = "show") then
    Some (shown ← display.DisplayScreen (trace st) (screen st);
          Ok (Next (emit st shown)))
  else if strings_Contains line "color" then
    Some (color ← index (strings_Fields line) 1;
          Ok (Next (State (vars st) (screen st)
                      (draw.SetColor (DefaultDrawColor st) color) (trace st))))
  else None.

(** [len(line) == 0 || line[0] == '#']. *)
Definition skipped (line : string) : bool :=
  match line with
  | EmptyString => true
  | String a _ => bool_decide (Ascii.N_of_ascii a = 35%N)
  end.

(** [stepTransform] as the commands [move], [scale] and [rotate] build it;
    for any other line it keeps its zero value, the nil slice. *)
Definition step_of (line params : string) : res Matrix :=
  if decide (line = "move") then
    p ← FloatParams params; matrix.MakeTranslationMatrix p
  else if decide (line = "scale") then
    p ← FloatParams params; matrix.MakeDilationMatrix p
  else if decide (line = "rotate") then
    let args := strings_Fields params in
    arg1 ← index args 1;
    match strconv_ParseFloat arg1 with
    | None => Panic
    | Some numDegrees =>
        arg0 ← index args 0;
        if decide (arg0 = "x") then matrix.MakeRotX numDegrees
        else if decide (arg0 = "y") then matrix.MakeRotY numDegrees
        else if decide (arg0 = "z") then matrix.MakeRotZ numDegrees
        else Ok []
    end
  else Ok [].

(** The commands that take the next line as their arguments. *)
Definition with_params (fuel : nat) (line params : string) (st : state) : res state :=
  if decide (line = "save") then
    saved ← display.WriteScreenToExtension (trace st) (screen st) params;
    Ok (emit st saved)
  else if decide (line = "line") then
    p ← FloatParams params; add_to_edges (λ e, draw.AddEdge e p) st
  else if decide (line = "circle") then
    p ← FloatParams params; add_to_edges (λ e, draw.AddCircle fuel e p) st
  else if decide (line = "sphere") then
    p ← FloatParams params; add_to_edges (λ e, draw.AddSphere fuel e p) st
  else if decide (line = "box") then
    p ← FloatParams params; add_to_edges (λ e, draw.AddBox e p) st
  else if decide (line = "torus") then
    p ← FloatParams params; add_to_edges (λ e, draw.AddTorus fuel e p) st
  else if bool_decide (line = "hermite" ∨ line = "bezier") then
    p ← FloatParams params;
    p0 ← index p 0;
    p1 ← index p 1;
    p2 ← index p 2;
    p3 ← index p 3;
    p4 ← index p 4;
    p5 ← index p 5;
    p6 ← index p 6;
    p7 ← index p 7;
    add_to_edges (λ e, draw.AddCurve fuel e p0 p1 p2 p3 p4 p5 p6 p7 0.001 line) st
  else
    step ← step_of line params;
    σ ← composeStep (<[stepTransform := step]> (vars st));
    Ok (set_vars st (delete stepTransform σ)).

Fixpoint ParseFile (fuel : nat) (lines : list string) (st : state) : res state :=
  match lines with
  | [] => Ok st
  | line :: rest =>
      match immediate fuel line st with
      | Some r =>
          o ← r;
          match o with
          | Next st => ParseFile fuel rest st
          | Return st => Ok st
          end
      | None =>
          if skipped line then ParseFile fuel rest st
          else
            match rest with
            | [] => with_params fuel line EmptyString st
            | params :: rest => st ← with_params fuel line params st; ParseFile fuel rest st
            end
      end
  end.

End ParseFile.

End parser.

(** ** package main *)

Module main.

(** [main]: the script is what the file [script] holds. *)
Definition main `{GoMath} `{GoStrconv} `{display.GoOS} (fuel : nat) (script : list string)
    : res parser.state :=
  let screen := display.NewScreen in
  let transform : Matrix := [] in
  let edges : Matrix := [[]; []; []; []] in
  parser.ParseFile fuel script
    (parser.State (<[parser.transform := transform]> (<[parser.edges := edges]> ∅))
       screen draw.DefaultDrawColor_init []).

End main.

(** ** Vocabulary of the specification *)

Module Spec.
Local Open Scope float_scope.

(** A [rows]×[cols] matrix: [rows] rows of [cols] values each. *)
Definition is_matrix (rows cols : nat) (m : Matrix) : Prop :=
  length m = rows ∧ Forall (λ row, length row = cols) m.

(** The entry ([i], [j]) of a matrix. *)
Definition entry (m : Matrix) (i j : nat) : option float :=
  row ← m !! i; row !! j.

(** Column [j] of a matrix all of whose rows reach it. *)
Definition column (m : Matrix) (j : nat) : option (list float) :=
  mapM (.!! j) m.

(** The sum of the elementwise products, accumulated from the left from 0. *)
Definition dot_product (u v : list float) : float :=
  foldl (λ acc xy, acc + xy.1 * xy.2) 0 (zip u v).

(** [c] is the matrix product [a]×[b]: entry ([i], [j]) is the dot product of
    row [i] of [a] with column [j] of [b]. *)
Definition is_product (a b c : Matrix) : Prop :=
  ∃ n p, is_matrix (length a) p c ∧ is_matrix n p b ∧
    ∀ i j row col, a !! i = Some row → (j < p)%nat → column b j = Some col →
      entry c i j = Some (dot_product row col).

(** Column [j] of a matrix, with 0 where a row does not reach it. *)
Definition col_of (m : Matrix) (j : nat) : list float :=
  (λ row, default 0 (row !! j)) <$> m.

(** The entry of the product in column [j] of the row that [row] gives, and
    the rows of the product with [p] columns. *)
Definition product_cell (m2 : Matrix) (row : list float) (j : nat) : float :=
  dot_product row (col_of m2 j).

Definition product_rows (m1 m2 : Matrix) (p : nat) : Matrix :=
  (λ row, product_cell m2 row <$> seq 0 p) <$> m1.

(** A screen as [display.NewScreen] allocates it. *)
Definition screen_ok (s : Screen) : Prop :=
  length s = Z.to_nat display.YRES ∧ Forall (λ row, length row = Z.to_nat display.XRES) s.

(** The colour at buffer row [row], column [col]. *)
Definition cell (s : Screen) (row col : nat) : option (list Z) :=
  r ← s !! row; r !! col.

(** [s'] is [s] with colour [c] at the logical cells [cells] (pairs of an x
    and a y; logical row [y] is buffer row [YRES-1-y]) and nothing else
    touched. *)
Definition painted (cells : list (Z * Z)) (c : list Z) (s s' : Screen) : Prop :=
  screen_ok s' ∧
  ∀ row col : nat, (row < Z.to_nat display.YRES)%nat → (col < Z.to_nat display.XRES)%nat →
    cell s' row col =
      if decide ((Z.of_nat col, display.YRES - 1 - Z.of_nat row)%Z ∈ cells) then Some c
      else cell s row col.

(** The screen with colour [c] at buffer row [row], column [col]. *)
Definition set_pixel (c : list Z) (row col : nat) (s : Screen) : Screen :=
  alter (<[col := c]>) row s.

(** Every cell of the list is one step right and one step up from the cell
    before it. *)
Fixpoint diagonal (cells : list (Z * Z)) : Prop :=
  match cells with
  | p :: (q :: _) as rest => q.1 = (p.1 + 1)%Z ∧ q.2 = (p.2 + 1)%Z ∧ diagonal rest
  | _ => True
  end.

(** A float that is a number: neither NaN nor infinite. *)
Definition finite (f : float) : bool :=
  match Prim2SF f with
  | S754_zero _ | S754_finite _ _ _ => true
  | _ => false
  end.

(** A float of the specification that is a number. *)
Definition SFnumber (x : spec_float) : bool :=
  match x with
  | S754_zero _ | S754_finite _ _ _ => true
  | _ => false
  end.

(** The round-half-up of the exact value of a float that is a number:
    [floor(f + 1/2)]. *)
Definition floor_half_up (f : float) : option Z :=
  match Prim2SF f with
  | S754_zero _ => Some 0
  | S754_finite s m e =>
      let n := if s then Z.neg m else Z.pos m in
      if (0 <=? e)%Z then Some (n * 2 ^ e)
      else Some ((2 * n + 2 ^ (- e)) `div` (2 * 2 ^ (- e)))
  | _ => None
  end%Z.

(** The line [DrawLines] draws from column [i] to column [i+1] of the edge
    matrix: the first two components of each. *)
Definition line_from (fuel : nat) (c : list Z) (edges : Matrix) (s : Screen) (i : nat)
    : res Screen :=
  let point := col_of edges i in
  let nextPoint := col_of edges (i + 1) in
  draw.DrawLine fuel c s (default 0 (point !! 0%nat)) (default 0 (point !! 1%nat))
    (default 0 (nextPoint !! 0%nat)) (default 0 (nextPoint !! 1%nat)).

(** An outcome that is not a panic and, when a value, a good one. *)
Definition safe {St} (I : St → Prop) (r : res St) : Prop :=
  r ≠ Panic ∧ ∀ s, r = Ok s → I s.

(** The matrix variables of [ParseFile] as [main] hands them over: an empty
    transform and an edge matrix of four empty rows. *)
Definition initial_store : gmap string Matrix :=
  <[parser.transform := []]> (<[parser.edges := [[]; []; []; []]]> ∅).

(** A store for the examples: the translation by (1, 2, 3) as the running
    transform, the dilation by 2 as the step. *)
Definition translate_123 : Matrix := [[1; 0; 0; 1]; [0; 1; 0; 2]; [0; 0; 1; 3]; [0; 0; 0; 1]].
Definition dilate_2 : Matrix := [[2; 0; 0; 0]; [0; 2; 0; 0]; [0; 0; 2; 0]; [0; 0; 0; 1]].
Definition store_ex : gmap string Matrix :=
  <[parser.transform := translate_123]> (<[parser.stepTransform := dilate_2]> ∅).

(** An edge matrix of three columns: the edge from (0,0,0) to (4,0,0) and
    a point on its own. *)
Definition edges_ex : Matrix := [[0; 4; 7]; [0; 0; 7]; [0; 0; 0]; [1; 1; 1]].

(** Every column has 1 as its fourth component: the fourth row holds only
    1. *)
Definition homogeneous (m : Matrix) : Prop :=
  ∃ w, m !! 3%nat = Some w ∧ Forall (λ v, v = 1) w.

(** The first three components of every column are numbers. *)
Definition finite_coords (m : Matrix) : Prop :=
  ∀ i row, (i < 3)%nat → m !! i = Some row → Forall (λ v, finite v = true) row.

(** [AddPoint] called for each point of a list in turn. *)
Definition AddPoints (pts : list (float * float * float)) (m : Matrix) : res Matrix :=
  foldM (λ m p, draw.AddPoint m p.1.1 p.1.2 p.2) pts m.

(** [m'] is [m] after some calls of [AddPoint] and nothing else. *)
Definition grows (m m' : Matrix) : Prop := ∃ pts, AddPoints pts m = Ok m'.

(** The matrices the transform constructors return. *)
Definition constructor_built `{GoMath} (T : Matrix) : Prop :=
  (∃ params, matrix.MakeTranslationMatrix params = Ok T) ∨
  (∃ params, matrix.MakeDilationMatrix params = Ok T) ∨
  (∃ theta, matrix.MakeRotX theta = Ok T) ∨
  (∃ theta, matrix.MakeRotY theta = Ok T) ∨
  (∃ theta, matrix.MakeRotZ theta = Ok T).

(** A store whose transform is the identity and whose edge matrix holds the
    edge from (∞,0,0) to (0,0,0). *)
Definition edges_inf : Matrix := [[infinity; 0]; [0; 0]; [0; 0]; [1; 1]].
Definition store_inf : gmap string Matrix :=
  <[parser.transform := [[1; 0; 0; 0]; [0; 1; 0; 0]; [0; 0; 1; 0]; [0; 0; 0; 1]]]>
    (<[parser.edges := edges_inf]> ∅).

(** The values the counter of a loop [for t := t0; ...; t += step] takes in
    its first [n] turns, and the value it has after them. *)
Fixpoint float_steps (n : nat) (t step : float) : list float :=
  match n with
  | O => []
  | S n' => t :: float_steps n' (t + step) step
  end.

Fixpoint float_after (n : nat) (t step : float) : float :=
  match n with
  | O => t
  | S n' => float_after n' (t + step) step
  end.

(** The samples of [AddCircle]: 1000 values from 0 in steps of 0.001. *)
Definition circle_samples : list float := float_steps 1000 0 0.001.

(** [2^e], and the real number [m·2^e]. *)
Definition p2 (e : Z) : R := powerRZ 2 e.
Definition F2R (m e : Z) : R := (IZR m * p2 e)%R.

(** The magnitude and the value of a float that is a number (0 for the
    others). *)
Definition SFmag (x : spec_float) : R :=
  match x with
  | S754_finite _ m e => F2R (Z.pos m) e
  | _ => 0%R
  end.

Definition SF2R (x : spec_float) : R :=
  match x with
  | S754_finite s m e => if s then (- F2R (Z.pos m) e)%R else F2R (Z.pos m) e
  | _ => 0%R
  end.

Definition B2R (f : float) : R := SF2R (Prim2SF f).

(** What the record of a right shift knows: [shr_m] is what is left of [M]
    after [k] shifts, and the two bits place the remainder [M - m·2^k]
    against the half of [2^k]. *)
Definition shifted (M : Z) (k : nat) (mrs : shr_record) : Prop :=
  let R := (M - shr_m mrs * 2 ^ Z.of_nat k)%Z in
  (0 ≤ shr_m mrs ∧ 0 ≤ R < 2 ^ Z.of_nat k ∧
   (shr_r mrs = false → 2 * R < 2 ^ Z.of_nat k) ∧
   (shr_r mrs = true → 2 ^ Z.of_nat k ≤ 2 * R) ∧
   (shr_s mrs = false → shr_r mrs = false → R = 0) ∧
   (shr_s mrs = false → shr_r mrs = true → 2 * R = 2 ^ Z.of_nat k))%Z.

(** What is asked of [math.Sin] and [math.Cos]: on a number they return
    numbers whose squares add up to 1 within 1e-9. *)
Definition trig_accurate `{GoMath} : Prop :=
  ∀ u, finite u = true →
    finite (math_Sin u) = true ∧ finite (math_Cos u) = true ∧
    (Rabs (B2R (math_Sin u) ^ 2 + B2R (math_Cos u) ^ 2 - 1) <= 1e-9)%R.

(** A stand-in for Go's [math] package, for the examples. *)
Definition stub_math : GoMath :=
  {| math_Sin := λ _, 0; math_Cos := λ _, 1; math_Pow := λ _ _, 1 |}.

(** A store whose transform is the translation by (1, 2, 3) and whose edge
    matrix has three columns. *)
Definition store_hom : gmap string Matrix :=
  <[parser.transform := translate_123]> (<[parser.edges := edges_ex]> ∅).

(** *** Vocabulary of the further properties *)

(** Every entry of the matrix is a number. *)
Definition all_finite (m : Matrix) : Prop :=
  Forall (Forall (λ v, finite v = true)) m.

(** The store with the transform [T] and the edge matrix [E]. *)
Definition store_of (T E : Matrix) : gmap string Matrix :=
  <[parser.transform := T]> (<[parser.edges := E]> ∅).

(** [s'] is a well-formed screen whose cells hold what they hold in [s] or
    the colour [c]. *)
Definition repainted (c : list Z) (s s' : Screen) : Prop :=
  screen_ok s' ∧ ∀ i j, cell s' i j = cell s i j ∨ cell s' i j = Some c.

(** A corner of the box of [AddBox]: for each axis, whether the corner lies
    on the far side ([x+width], [y-height], [z-depth]). *)
Definition corner : Type := bool * bool * bool.

Definition corner_at (x y z width height depth : float) (p : corner)
    : float * float * float :=
  (if p.1.1 then x + width else x,
   if p.1.2 then y - height else y,
   if p.2 then z - depth else z).

(** The edges of [AddBox], in its order. *)
Definition box_edges : list (corner * corner) :=
  [ ((false, false, false), (true, false, false));
    ((false, false, false), (false, true, false));
    ((false, false, false), (false, false, true));
    ((false, true, false), (false, true, true));
    ((false, true, false), (true, true, false));
    ((false, true, true), (true, true, true));
    ((true, true, false), (true, true, true));
    ((false, false, true), (true, false, true));
    ((false, false, true), (false, true, true));
    ((true, false, false), (true, true, false));
    ((true, false, false), (true, false, true));
    ((true, false, true), (true, true, true)) ].

(** Two corners joined by an edge of the box: [q] is [p] moved to the far
    side along exactly one axis. *)
Definition one_step (p q : corner) : bool :=
  match p, q with
  | (false, b, c), (true, b', c') => bool_decide (b = b' ∧ c = c')
  | (a, false, c), (a', true, c') => bool_decide (a = a' ∧ c = c')
  | (a, b, false), (a', b', true) => bool_decide (a = a' ∧ b = b')
  | _, _ => false
  end.

(** The end points of a list of edges, in turn. *)
Definition end_points {A} (edges : list (A * A)) : list A :=
  edges ≫= λ e, [e.1; e.2].

(** The value [CubicEval] gives for the coefficients [c0], [c1], [c2], [c3]
    at [t]. *)
Definition cubic `{GoMath} (c0 c1 c2 c3 t : float) : float :=
  0 + c0 * math_Pow t 3 + c1 * math_Pow t 2 + c2 * math_Pow t 1 + c3 * math_Pow t 0.

(** The curve of [AddCurve] through the four numbers [p0], ..., [p3] of one
    coordinate, for a basis matrix. *)
Definition curve_of `{GoMath} (basis : Matrix) (p0 p1 p2 p3 t : float) : float :=
  let c i := dot_product (default [] (basis !! i)) [p0; p1; p2; p3] in
  cubic (c 0%nat) (c 1%nat) (c 2%nat) (c 3%nat) t.

Definition bezier_basis : Matrix :=
  [[-1; 3; -3; 1]; [3; -6; 3; 0]; [-3; 3; 0; 0]; [1; 0; 0; 0]].
Definition hermite_basis : Matrix :=
  [[2; -2; 1; 1]; [-3; 3; -2; -1]; [0; 0; 1; 0]; [1; 0; 0; 0]].

(** The points of the loops of [GenerateSphere] and [GenerateTorus]. *)
Definition sphere_points `{GoMath} (cx cy cz r : float) : Matrix :=
  float_steps 100 0 0.01 ≫= λ i,
    let fi := 2 * math_Pi * i in
    (λ j, let theta := 2 * math_Pi * j in
          [r * math_Cos theta + cx;
           r * math_Sin theta * math_Cos fi + cy;
           r * math_Sin theta * math_Sin fi + cz]) <$> float_steps 50 0 0.01.

Definition torus_points `{GoMath} (cx cy cz r2 r1 : float) : Matrix :=
  float_steps 100 0 0.01 ≫= λ i,
    let fi := 2 * math_Pi * i in
    (λ j, let theta := 2 * math_Pi * j in
          [math_Cos fi * (r2 * math_Cos theta + r1) + cx;
           r2 * math_Sin theta + cy;
           -1 * math_Sin fi * (r2 * math_Cos theta + r1) + cz]) <$> float_steps 100 0 0.01.

(** The short stroke that [AddSphere] and [AddTorus] add for a point:
    coordinate [k] of the point and of the point moved by (1, 1, 1). *)
Definition stroke (k : nat) (p : list float) : list float :=
  let v := default 0 (p !! k) in [v; v + 1].

(** A screen of the size of [NewScreen] whose cells hold three numbers. *)
Definition pixels_ok (s : Screen) : Prop :=
  screen_ok s ∧ Forall (Forall (λ rgb : list Z, length rgb = 3%nat)) s.

(** The text of a pixel of three numbers, and of a screen: the header and
    the pixels row by row. *)
Definition text_of_pixel (rgb : list Z) : string :=
  match rgb with
  | [r; g; b] =>
      pretty (display.uint8 r) +:+ " " +:+ pretty (display.uint8 g) +:+ " "
        +:+ pretty (display.uint8 b) +:+ " "
  | _ => EmptyString
  end.

Definition text_of_screen (s : Screen) : string :=
  foldl (λ text rgb, text +:+ text_of_pixel rgb) display.ppm_header (concat s).

(** A value that a run returns has the property [I]. *)
Definition kept {St} (I : St → Prop) (r : res St) : Prop := ∀ s, r = Ok s → I s.

(** The names that [ParseFile] takes for commands. *)
Definition command_names : list string :=
  ["ident"; "display"; "clear"; "apply"; "quit"; "draw"; "show"; "save"; "line";
   "circle"; "sphere"; "box"; "torus"; "hermite"; "bezier"; "move"; "scale"; "rotate"].

(** A line that is no command, does not hold the word color, and is neither empty nor a
    comment. *)
Definition unknown (line : string) : Prop :=
  (line ∉ command_names) ∧ strings_Contains line "color" = false ∧
  parser.skipped line = false.

(** The state in which [main] calls [ParseFile]. *)
Definition start : parser.state :=
  parser.State initial_store display.NewScreen draw.DefaultDrawColor_init [].

(** The state of a script after its commands: the store holds the two
    matrix variables and no step, the screen is well formed and so is the
    draw colour. *)
Definition state_ok (st : parser.state) : Prop :=
  pixels_ok (parser.screen st) ∧ length (parser.DefaultDrawColor st) = 3%nat ∧
  parser.vars st !! parser.stepTransform = None.

(** The state after a command: well formed again, with a longer trace. *)
Definition follows (st st' : parser.state) : Prop :=
  state_ok st' ∧ ∃ events, parser.trace st' = parser.trace st ++ events.

(** The state where the loop of [ParseFile] goes on or ends. *)
Definition state_of (o : parser.outcome) : parser.state :=
  match o with
  | parser.Next st => st
  | parser.Return st => st
  end.

(** A stand-in for [strconv.ParseFloat], for the examples: it reads the
    natural numbers in decimal digits. *)
Definition digits_value (s : string) : option Z :=
  match s with
  | EmptyString => None
  | _ =>
      foldl (λ (acc : option Z) a,
               n ← acc;
               let d := (Z.of_N (Ascii.N_of_ascii a) - 48)%Z in
               if bool_decide (0 ≤ d ≤ 9)%Z then Some (10 * n + d)%Z else None)
            (Some 0%Z) (String.list_ascii_of_string s)
  end.

Definition stub_strconv : GoStrconv :=
  {| strconv_ParseFloat := λ s, float64_of_int <$> digits_value s |}.

(** A stand-in for the operating system, for the examples: every file
    opens, [convert] runs and any other command is not found. *)
Definition stub_os : display.GoOS :=
  {| display.os_OpenFile := λ _ _, true;
     display.exec_Output := λ _ name _, bool_decide (name = "convert") |}.

End Spec.
Import Spec.

(** Two different float literals are not equal. *)
Ltac float_absurd H :=
  match type of H with
  | ?a = ?b => apply (f_equal (PrimFloat.Leibniz.eqb a)) in H; vm_compute in H; discriminate H
  end.

(** ** Facts about the run time *)

Section Runtime.
Context {A B : Type}.

Lemma bind_Ok (a : A) (k : A → res B) : Ok a ≫= k = k a.
Proof. reflexivity. Qed.

Lemma bind_Ok_inv (m : res A) (k : A → res B) (b : B) :
  m ≫= k = Ok b → ∃ a, m = Ok a ∧ k a = Ok b.
Proof. destruct m; simpl; intros; [eauto | discriminate..]. Qed.

Lemma index_Some (s : list A) (i : nat) (a : A) : s !! i = Some a → index s i = Ok a.
Proof. unfold index. by intros ->. Qed.

Lemma index_Ok_inv (s : list A) (i : nat) (a : A) : index s i = Ok a → s !! i = Some a.
Proof. unfold index. by destruct (s !! i); intros [= ->]. Qed.

Lemma store_at_lt (s : list A) (i : nat) (v : A) :
  i < length s → store_at s i v = Ok (<[i := v]> s).
Proof. unfold store_at. intros. by rewrite decide_True. Qed.

Lemma while_unfold {St} (n : nat) (cond : St → bool) (body : St → res St) (s : St) :
  while (S n) cond body s = if cond s then body s ≫= while n cond body else Ok s.
Proof. reflexivity. Qed.

End Runtime.

(** ** The pixel buffer and [plot] *)

Section Plot.
Local Open Scope Z_scope.

Lemma index_int_nat {A} (l : list A) (i : Z) (a : A) :
  0 ≤ i → l !! Z.to_nat i = Some a → index_int l i = Ok a.
Proof. intros. unfold index_int. rewrite decide_True by done. by apply index_Some. Qed.

Lemma store_at_int_nat {A} (l : list A) (i : Z) (v : A) :
  0 ≤ i < Z.of_nat (length l) → store_at_int l i v = Ok (<[Z.to_nat i := v]> l).
Proof.
  intros. unfold store_at_int. rewrite decide_True by lia. apply store_at_lt. lia.
Qed.

Lemma int_of_float64_range (f : float) : int_min ≤ int_of_float64 f ≤ int_max.
Proof.
  unfold int_of_float64.
  destruct (Prim2SF f); try done.
  case_bool_decide; done.
Qed.

Lemma float64ToInt_range (f : float) : int_min ≤ draw.float64ToInt f ≤ int_max.
Proof. unfold draw.float64ToInt. case_match; apply int_of_float64_range. Qed.

(** A row index that lands within the screen was not wrapped around: it is
    [YRES - 1 - r]. *)
Lemma flipped_row (r : Z) :
  int_min ≤ r ≤ int_max →
  let newY := int_wrap (int_wrap (display.YRES - r) - 1) in
  (0 ≤ newY < display.YRES ↔ 0 ≤ display.YRES - 1 - r < display.YRES) ∧
  (0 ≤ newY < display.YRES → newY = display.YRES - 1 - r).
Proof.
  unfold int_min, int_max, int_wrap, display.YRES.
  change (2 ^ 63) with 9223372036854775808.
  change (2 ^ 64) with 18446744073709551616.
  intros Hr. cbv zeta. Z.div_mod_to_equations. lia.
Qed.

Lemma NewScreen_ok : screen_ok display.NewScreen.
Proof.
  split; [apply length_replicate|].
  apply Forall_replicate, length_replicate.
Qed.

Lemma set_pixel_ok c row col s : screen_ok s → screen_ok (set_pixel c row col s).
Proof.
  unfold screen_ok, set_pixel. intros [Hlen Hrows]. split.
  - by rewrite length_alter.
  - apply Forall_lookup. intros i r. rewrite list_lookup_alter.
    rewrite Forall_lookup in Hrows. case_decide; subst; [|by eauto].
    destruct (s !! i) as [r0|] eqn:Hi; simpl; [|done]. intros [= <-].
    rewrite length_insert. eauto.
Qed.

Lemma cell_set_pixel c row col s i j :
  screen_ok s → (row < Z.to_nat display.YRES)%nat → (col < Z.to_nat display.XRES)%nat →
  cell (set_pixel c row col s) i j =
    if decide (i = row ∧ j = col) then Some c else cell s i j.
Proof.
  unfold screen_ok, set_pixel, cell. intros [Hlen Hrows] Hrow Hcol.
  rewrite list_lookup_alter.
  destruct (decide (row = i)) as [->|Hne].
  - destruct (lookup_lt_is_Some_2 s i) as [r Hr]; [lia|]. rewrite Hr. simpl.
    rewrite Forall_lookup in Hrows. specialize (Hrows _ _ Hr).
    destruct (decide (j = col)) as [->|Hj].
    + rewrite decide_True by done. rewrite list_lookup_insert_eq; [done | lia].
    + rewrite decide_False by tauto. by rewrite list_lookup_insert_ne.
  - rewrite decide_False; [done | intros [-> _]; done].
Qed.

Lemma plot_inside (c : list Z) (s : Screen) (x y : float) :
  screen_ok s →
  0 ≤ draw.float64ToInt x < display.XRES →
  0 ≤ display.YRES - 1 - draw.float64ToInt y < display.YRES →
  draw.plot c s x y =
    Ok (set_pixel c (Z.to_nat (display.YRES - 1 - draw.float64ToInt y))
          (Z.to_nat (draw.float64ToInt x)) s).
Proof.
  intros [Hlen Hrows] Hx Hy. unfold draw.plot.
  destruct (flipped_row (draw.float64ToInt y) (float64ToInt_range y)) as [Hin Heq].
  cbv zeta in Hin, Heq.
  set (newY := int_wrap (int_wrap (display.YRES - draw.float64ToInt y) - 1)) in *.
  apply Hin in Hy as HnewY. rewrite <- (Heq HnewY).
  replace (_ && _ && _ && _) with true; last first.
  { symmetry. rewrite !andb_true_iff, !Z.geb_le, !Z.ltb_lt. lia. }
  destruct (lookup_lt_is_Some_2 s (Z.to_nat newY)) as [r Hr]; [lia|].
  rewrite Forall_lookup in Hrows. pose proof (Hrows _ _ Hr) as Hlr.
  rewrite (index_int_nat _ _ r) by (done || lia). rewrite bind_Ok.
  rewrite store_at_int_nat by lia. rewrite bind_Ok.
  rewrite store_at_int_nat by lia.
  f_equal. unfold set_pixel. apply list_eq. intros i.
  rewrite list_lookup_alter. destruct (decide (Z.to_nat newY = i)) as [<-|Hne].
  - rewrite list_lookup_insert_eq by lia. by rewrite Hr.
  - by rewrite list_lookup_insert_ne.
Qed.

Lemma plot_outside (c : list Z) (s : Screen) (x y : float) :
  ¬ (0 ≤ draw.float64ToInt x < display.XRES ∧
     0 ≤ display.YRES - 1 - draw.float64ToInt y < display.YRES) →
  draw.plot c s x y = Ok s.
Proof.
  intros Hout. unfold draw.plot.
  destruct (flipped_row (draw.float64ToInt y) (float64ToInt_range y)) as [Hin _].
  cbv zeta in Hin.
  set (newY := int_wrap (int_wrap (display.YRES - draw.float64ToInt y) - 1)) in *.
  replace (_ && _ && _ && _) with false; [done|].
  symmetry. apply not_true_is_false. rewrite !andb_true_iff, !Z.geb_le, !Z.ltb_lt. lia.
Qed.

(** [plot] never panics on a well-formed screen, and leaves it well formed. *)
Lemma plot_total (c : list Z) (s : Screen) (x y : float) :
  screen_ok s → ∃ s', draw.plot c s x y = Ok s' ∧ screen_ok s'.
Proof.
  intros Hs.
  destruct (decide (0 ≤ draw.float64ToInt x < display.XRES ∧
                    0 ≤ display.YRES - 1 - draw.float64ToInt y < display.YRES))
    as [[Hx Hy]|Hout].
  - eexists. split; [by apply plot_inside | by apply set_pixel_ok].
  - exists s. split; [by apply plot_outside | done].
Qed.

(** The guard of [plot]. [plot(screen, x, y)] writes the current draw colour at
    column [float64ToInt(x)] of buffer row [YRES-1-float64ToInt(y)] when the column
    lies in [0,XRES) and the row in [0,YRES), and changes no other cell;
    otherwise it returns normally with the screen as it was. In both cases
    the call does not panic and the screen keeps its dimensions. *)
Theorem plot_writes_inside_or_clips (c : list Z) (s : Screen) (x y : float) :
  screen_ok s →
  let col := draw.float64ToInt x in
  let row := display.YRES - 1 - draw.float64ToInt y in
  if decide (0 ≤ col < display.XRES ∧ 0 ≤ row < display.YRES)
  then ∃ s', draw.plot c s x y = Ok s' ∧ screen_ok s' ∧
         ∀ i j, cell s' i j =
           if decide (i = Z.to_nat row ∧ j = Z.to_nat col) then Some c else cell s i j
  else draw.plot c s x y = Ok s.
Proof.
  intros Hs col row. case_decide as Hin.
  - destruct Hin as [Hc Hr]. eexists. split; [by apply plot_inside|].
    split; [by apply set_pixel_ok|]. intros i j.
    apply cell_set_pixel; [done | unfold display.YRES in *; lia | unfold display.XRES in *; lia].
  - by apply plot_outside.
Qed.

End Plot.

(** ** [DrawLine] on three short lines *)

Section Lines.
Local Open Scope Z_scope.

Lemma painted_nil c s : screen_ok s → painted [] c s s.
Proof.
  intros Hs. split; [done|]. intros row col _ _. by rewrite decide_False by set_solver.
Qed.

Lemma painted_set_pixel cells c s s1 (x y : Z) :
  painted cells c s s1 →
  0 ≤ x < display.XRES → 0 ≤ y < display.YRES →
  painted ((x, y) :: cells) c s
    (set_pixel c (Z.to_nat (display.YRES - 1 - y)) (Z.to_nat x) s1).
Proof.
  intros [Hok Hcells] Hx Hy. split; [by apply set_pixel_ok|].
  intros row col Hrow Hcol.
  rewrite cell_set_pixel by (done || unfold display.XRES, display.YRES in *; lia).
  rewrite Hcells by done. unfold display.XRES, display.YRES in *.
  assert ((row = Z.to_nat (500 - 1 - y) ∧ col = Z.to_nat x)
          ↔ (Z.of_nat col, 500 - 1 - Z.of_nat row) = (x, y)) as Hiff.
  { split; [intros [-> ->]; f_equal; lia | intros [= <- <-]; split; lia]. }
  repeat case_decide; try done; exfalso; set_solver.
Qed.

Lemma painted_equiv cells cells' c s s' :
  (∀ p, p ∈ cells ↔ p ∈ cells') → painted cells c s s' → painted cells' c s s'.
Proof.
  intros Heq [Hok Hcells]. split; [done|]. intros row col Hrow Hcol.
  rewrite Hcells by done. destruct (decide (_ ∈ cells)) as [Hin|Hin].
  - rewrite decide_True; [done | by apply Heq].
  - rewrite decide_False; [done | by rewrite <- Heq].
Qed.

Lemma plot_pixel (c : list Z) (s : Screen) (x y : float) (col row : Z) :
  screen_ok s →
  draw.float64ToInt x = col → draw.float64ToInt y = row →
  0 ≤ col < display.XRES → 0 ≤ row < display.YRES →
  draw.plot c s x y = Ok (set_pixel c (Z.to_nat (display.YRES - 1 - row)) (Z.to_nat col) s).
Proof.
  intros Hs <- <- Hx Hy. apply plot_inside; [done..|]. unfold display.YRES in *. lia.
Qed.

(** One turn of a loop of [DrawLine] that plots the cell ([col], [row]). *)
Ltac plot_step col row :=
  rewrite while_unfold; cbn -[draw.plot while set_pixel];
  rewrite (plot_pixel _ _ _ _ col row) by
    (repeat apply set_pixel_ok; done || (vm_compute; done) || (vm_compute; split; congruence));
  rewrite bind_Ok; cbn -[draw.plot while set_pixel].

(** The loop condition fails: the loop is left. *)
Ltac loop_exit := rewrite while_unfold; cbn -[draw.plot while set_pixel].

Ltac painted_cells :=
  eexists; split; [reflexivity|];
  eapply painted_equiv;
    [|repeat (apply painted_set_pixel; [|done..]); by apply painted_nil];
  set_solver.

Lemma DrawLine_horizontal (fuel : nat) (c : list Z) (s : Screen) :
  screen_ok s → (6 ≤ fuel)%nat →
  ∃ s', draw.DrawLine fuel c s 0 0 4 0 = Ok s' ∧
        painted [(0, 0); (1, 0); (2, 0); (3, 0); (4, 0)] c s s'.
Proof.
  intros Hs Hf. destruct fuel as [|[|[|[|[|[|f]]]]]]; try lia.
  unfold draw.DrawLine. cbn -[draw.plot while].
  plot_step 0 0. plot_step 1 0. plot_step 2 0. plot_step 3 0. plot_step 4 0.
  loop_exit. painted_cells.
Qed.

Lemma DrawLine_vertical (fuel : nat) (c : list Z) (s : Screen) :
  screen_ok s → (6 ≤ fuel)%nat →
  ∃ s', draw.DrawLine fuel c s 0 0 0 4 = Ok s' ∧
        painted [(0, 0); (0, 1); (0, 2); (0, 3); (0, 4)] c s s'.
Proof.
  intros Hs Hf. destruct fuel as [|[|[|[|[|[|f]]]]]]; try lia.
  unfold draw.DrawLine. cbn -[draw.plot while].
  plot_step 0 0. plot_step 0 1. plot_step 0 2. plot_step 0 3. plot_step 0 4.
  loop_exit. painted_cells.
Qed.

Lemma DrawLine_diagonal (fuel : nat) (c : list Z) (s : Screen) :
  screen_ok s → (6 ≤ fuel)%nat →
  ∃ s', draw.DrawLine fuel c s 0 0 4 4 = Ok s' ∧
        painted [(0, 0); (1, 1); (2, 2); (3, 3); (4, 4)] c s s'.
Proof.
  intros Hs Hf. destruct fuel as [|[|[|[|[|[|f]]]]]]; try lia.
  unfold draw.DrawLine. cbn -[draw.plot while].
  plot_step 0 0. plot_step 1 1. plot_step 2 2. plot_step 3 3. plot_step 4 4.
  loop_exit. painted_cells.
Qed.

(** C5. With fuel for six turns of a loop, on any well-formed screen and
    with any draw colour: [DrawLine(screen, 0,0, 4,0)] returns the screen
    with the colour at the five cells (0,0)..(4,0) (logical row 0 is buffer
    row YRES-1) and every other cell as it was; [DrawLine(screen, 0,0, 0,4)]
    does so for the five cells (0,0)..(0,4); [DrawLine(screen, 0,0, 4,4)]
    does so for the five cells (0,0),(1,1),(2,2),(3,3),(4,4), each one step
    right and one step up from the one before. *)
Theorem DrawLine_three_lines (fuel : nat) (c : list Z) (s : Screen) :
  screen_ok s → (6 ≤ fuel)%nat →
  (∃ s', draw.DrawLine fuel c s 0 0 4 0 = Ok s' ∧
         painted [(0, 0); (1, 0); (2, 0); (3, 0); (4, 0)] c s s') ∧
  (∃ s', draw.DrawLine fuel c s 0 0 0 4 = Ok s' ∧
         painted [(0, 0); (0, 1); (0, 2); (0, 3); (0, 4)] c s s') ∧
  (∃ s', draw.DrawLine fuel c s 0 0 4 4 = Ok s' ∧
         painted [(0, 0); (1, 1); (2, 2); (3, 3); (4, 4)] c s s') ∧
  diagonal [(0, 0); (1, 1); (2, 2); (3, 3); (4, 4)] ∧
  length [(0, 0); (1, 1); (2, 2); (3, 3); (4, 4)] = 5%nat.
Proof.
  intros Hs Hf.
  split; [by apply DrawLine_horizontal|].
  split; [by apply DrawLine_vertical|].
  split; [by apply DrawLine_diagonal|].
  split; [simpl; tauto | reflexivity].
Qed.

Lemma DrawLine_three_lines_witness :
  screen_ok display.NewScreen ∧ (6 ≤ 6)%nat ∧
  (∃ s', draw.DrawLine 6 [255; 255; 0] display.NewScreen 0 0 4 0 = Ok s' ∧
         painted [(0, 0); (1, 0); (2, 0); (3, 0); (4, 0)] [255; 255; 0] display.NewScreen s').
Proof.
  split; [apply NewScreen_ok|]. split; [lia|].
  apply (DrawLine_three_lines 6 [255; 255; 0] display.NewScreen NewScreen_ok). lia.
Defined.

Lemma plot_writes_inside_or_clips_witness :
  screen_ok display.NewScreen ∧
  ∃ s', draw.plot [255; 255; 0] display.NewScreen 3 2 = Ok s' ∧ screen_ok s' ∧
    ∀ i j, cell s' i j =
      if decide (i = 497%nat ∧ j = 3%nat) then Some [255; 255; 0] else cell display.NewScreen i j.
Proof.
  split; [apply NewScreen_ok|].
  exact (plot_writes_inside_or_clips [255; 255; 0] display.NewScreen 3 2 NewScreen_ok).
Defined.

End Lines.

(** ** The matrix product *)

Section Product.
Local Open Scope float_scope.

Lemma column_col_of (m : Matrix) (n p j : nat) :
  is_matrix n p m → (j < p)%nat → column m j = Some (col_of m j).
Proof.
  intros [_ Hrows] Hj. unfold column, col_of. apply mapM_Some.
  apply Forall2_fmap_r, Forall_Forall2_diag.
  eapply Forall_impl; [exact Hrows|]. intros row Hlen. simpl in *.
  destruct (lookup_lt_is_Some_2 row j) as [v ->]; [lia | done].
Qed.

Lemma ExtractColumn_col_of (m : Matrix) (n p j : nat) :
  is_matrix n p m → (j < p)%nat → matrix.ExtractColumn m j = Ok (col_of m j).
Proof.
  intros [_ Hrows] Hj. clear n. induction Hrows as [|row m Hlen _ IH]; [done|].
  simpl in *. destruct (lookup_lt_is_Some_2 row j) as [v Hv]; [lia|].
  rewrite (index_Some _ _ _ Hv), bind_Ok, IH, bind_Ok, Hv. done.
Qed.

Lemma length_col_of (m : Matrix) (j : nat) : length (col_of m j) = length m.
Proof. unfold col_of. by rewrite length_fmap. Qed.

Lemma dot_from_foldl (x y : list float) (i : nat) (output : float) :
  (i + length x ≤ length y)%nat →
  matrix.dot_from x i y output =
    Ok (foldl (λ acc xy, acc + xy.1 * xy.2) output (zip x (drop i y))).
Proof.
  revert i output. induction x as [|xi x IH]; intros i output Hlen; [done|].
  simpl in *. destruct (lookup_lt_is_Some_2 y i) as [yi Hyi]; [lia|].
  rewrite (index_Some _ _ _ Hyi), bind_Ok, IH by lia.
  by rewrite (drop_S _ _ _ Hyi).
Qed.

Lemma dot_dot_product (x y : list float) :
  (length x ≤ length y)%nat → matrix.dot x y = Ok (dot_product x y).
Proof. intros. unfold matrix.dot. by rewrite dot_from_foldl. Qed.

Lemma set_cell_Ok (P : Matrix) (i j : nat) (v : float) (r : list float) :
  P !! i = Some r → (j < length r)%nat →
  matrix.set_cell P i j v = Ok (<[i := <[j := v]> r]> P).
Proof.
  intros Hr Hj. unfold matrix.set_cell.
  by rewrite (index_Some _ _ _ Hr), bind_Ok, store_at_lt, bind_Ok.
Qed.

Section Rows.
Context (m2 : Matrix) (n cols : nat) (Hm2 : is_matrix n cols m2).

Lemma product_row_from (i : nat) (row : list float) (k : nat) :
  (length row ≤ n)%nat →
  ∀ (a : nat) (r : list float) (P : Matrix),
    P !! i = Some r → length r = cols → (a + k ≤ cols)%nat →
    foldM (λ product j,
             col ← matrix.ExtractColumn m2 j;
             v ← matrix.dot row col;
             matrix.set_cell product i j v) (seq a k) P
    = Ok (<[i := take a r ++ (product_cell m2 row <$> seq a k) ++ drop (a + k) r]> P).
Proof.
  intros Hrow. induction k as [|k IH]; intros a r P Hr Hlen Hak.
  - simpl. rewrite Nat.add_0_r, take_drop. by rewrite list_insert_id.
  - simpl. rewrite (ExtractColumn_col_of _ n cols), bind_Ok by (done || lia).
    rewrite dot_dot_product, bind_Ok
      by (rewrite length_col_of; destruct Hm2 as [-> _]; done).
    rewrite (set_cell_Ok _ _ _ _ r), bind_Ok by (done || lia).
    rewrite (IH (S a) (<[a := product_cell m2 row a]> r)).
    + rewrite list_insert_insert_eq. do 2 f_equal.
      rewrite (take_S_r _ _ (product_cell m2 row a)) by (apply list_lookup_insert_eq; lia).
      rewrite take_insert_ge by lia. rewrite drop_insert_lt by lia.
      rewrite <- app_assoc. simpl. by rewrite Nat.add_succ_r.
    + apply list_lookup_insert_eq. by eapply lookup_lt_Some.
    + by rewrite length_insert.
    + lia.
Qed.

Lemma product_row_Ok (i : nat) (row r : list float) (P : Matrix) :
  (length row ≤ n)%nat → P !! i = Some r → length r = cols →
  matrix.product_row m2 cols i row P = Ok (<[i := product_cell m2 row <$> seq 0 cols]> P).
Proof.
  intros Hrow Hr Hlen. unfold matrix.product_row.
  rewrite (product_row_from i row cols Hrow 0 r P) by (done || lia).
  simpl. rewrite drop_ge by lia. by rewrite app_nil_r.
Qed.

Lemma product_rows_from (l : Matrix) :
  Forall (λ row, length row ≤ n)%nat l →
  ∀ (a : nat) (P : Matrix),
    length P = (a + length l)%nat → Forall (λ r, length r = cols) P →
    foldM (λ product '(i, row), matrix.product_row m2 cols i row product)
          (zip (seq a (length l)) l) P
    = Ok (take a P ++ ((λ row, product_cell m2 row <$> seq 0 cols) <$> l)).
Proof.
  induction 1 as [|row l Hrow _ IH]; intros a P HP Hrows.
  - simpl in *. rewrite app_nil_r, take_ge by lia. done.
  - simpl in *. destruct (lookup_lt_is_Some_2 P a) as [r Hr]; [lia|].
    rewrite (product_row_Ok a row r), bind_Ok; [|done..|]; last first.
    { rewrite Forall_lookup in Hrows. by eapply Hrows. }
    rewrite IH.
    + f_equal. rewrite (take_S_r _ _ (product_cell m2 row <$> seq 0 cols))
        by (apply list_lookup_insert_eq; lia).
      rewrite take_insert_ge by lia. by rewrite <- app_assoc.
    + rewrite length_insert. lia.
    + apply Forall_insert; [done|]. by rewrite length_fmap, length_seq.
Qed.

End Rows.

(** What [MultiplyMatrices] computes on matrices of matching shapes. *)
Lemma product_of_Ok (m1 m2 : Matrix) (m n p : nat) :
  is_matrix m n m1 → is_matrix n p m2 → (0 < n)%nat →
  matrix.product_of m1 m2 = Ok (product_rows m1 m2 p).
Proof.
  intros [Hm Hrows1] Hm2 Hn. unfold matrix.product_of.
  pose proof Hm2 as [Hlen2 Hrows2].
  destruct (lookup_lt_is_Some_2 m2 0) as [r0 Hr0]; [lia|].
  rewrite (index_Some _ _ _ Hr0), bind_Ok.
  rewrite Forall_lookup in Hrows2. rewrite (Hrows2 _ _ Hr0).
  change (matrix.NewMatrix [length m1; p]) with (replicate (length m1) (replicate p 0)).
  unfold range. rewrite (product_rows_from m2 n p Hm2 m1).
  - done.
  - eapply Forall_impl; [exact Hrows1|]. simpl. lia.
  - by rewrite length_replicate.
  - apply Forall_replicate, length_replicate.
Qed.

End Product.

(** ** [MultiplyMatrices], [apply] and the transform commands *)

Section Multiply.
Local Open Scope float_scope.

Lemma product_rows_is_product (a b : Matrix) (m n p : nat) :
  is_matrix m n a → is_matrix n p b → is_product a b (product_rows a b p).
Proof.
  intros Ha Hb. exists n, p. split; [|split; [done|]].
  - split; [apply length_fmap|]. apply Forall_fmap, Forall_true. intros row. simpl.
    by rewrite length_fmap, length_seq.
  - intros i j row col Hrow Hj Hcol. unfold entry, product_rows.
    rewrite list_lookup_fmap, Hrow. simpl.
    rewrite list_lookup_fmap, lookup_seq_lt by done. simpl.
    rewrite (column_col_of b n p) in Hcol by done. by injection Hcol as <-.
Qed.

Lemma MultiplyMatrices_Ok (σ : gmap string Matrix) (pa pb : string)
    (a b : Matrix) (m n p : nat) :
  σ !! pa = Some a → σ !! pb = Some b →
  is_matrix m n a → is_matrix n p b → (0 < n)%nat →
  matrix.MultiplyMatrices pa pb σ = Ok (<[pb := product_rows a b p]> σ).
Proof.
  intros Hpa Hpb Ha Hb Hn.
  unfold matrix.MultiplyMatrices, matrix.deref. rewrite Hpa, Hpb. simpl.
  by rewrite (product_of_Ok a b m n p).
Qed.

(** C2, as the code has it. For two matrix variables [pa] and [pb] that
    hold an m×n matrix [a] and an n×p matrix [b] with at least one row
    (n ≥ 1), [MultiplyMatrices(&pa, &pb)] returns normally, leaves in [pb]
    the m×p matrix whose entry (i,j) is the dot product of row i of [a] with
    column j of [b], and writes nothing else: [pa] still holds [a]. The
    command [apply] is this call on [transform] and [edges], so it
    overwrites the edge matrix and not the transform. *)
Theorem MultiplyMatrices_replaces_second (σ : gmap string Matrix) (pa pb : string)
    (a b : Matrix) (m n p : nat) :
  pa ≠ pb → σ !! pa = Some a → σ !! pb = Some b →
  is_matrix m n a → is_matrix n p b → (0 < n)%nat →
  ∃ c, matrix.MultiplyMatrices pa pb σ = Ok (<[pb := c]> σ) ∧
       is_product a b c ∧
       (<[pb := c]> σ) !! pa = Some a ∧
       (pa = parser.transform → pb = parser.edges →
        parser.apply σ = Ok (<[parser.edges := c]> σ)).
Proof.
  intros Hne Hpa Hpb Ha Hb Hn. exists (product_rows a b p).
  pose proof (MultiplyMatrices_Ok σ pa pb a b m n p Hpa Hpb Ha Hb Hn) as Hrun.
  split; [done|]. split; [by eapply product_rows_is_product|].
  split; [by rewrite lookup_insert_ne|].
  intros -> ->. exact Hrun.
Qed.

(** C2, as stated, fails where the second matrix has no row. The first
    [apply] of a script, with the transform still empty, leaves the 0×0
    matrix in [edges]; on the two 0×0 matrices [MultiplyMatrices] then
    panics, at [m2[0]]. *)
Lemma MultiplyMatrices_empty_second :
  is_matrix 0 0 [] ∧
  parser.apply initial_store = Ok (<[parser.edges := []]> initial_store) ∧
  matrix.MultiplyMatrices parser.transform parser.edges
    (<[parser.edges := []]> initial_store) = Panic.
Proof. split; [by split|]. split; reflexivity. Qed.

Lemma is_matrix_4_4 (r0 r1 r2 r3 : list float) :
  length r0 = 4%nat → length r1 = 4%nat → length r2 = 4%nat → length r3 = 4%nat →
  is_matrix 4 4 [r0; r1; r2; r3].
Proof. intros. split; [done|]. by repeat constructor. Qed.

Lemma MultiplyMatrices_replaces_second_witness :
  ∃ c, matrix.MultiplyMatrices parser.stepTransform parser.transform store_ex
         = Ok (<[parser.transform := c]> store_ex) ∧
       is_product dilate_2 translate_123 c.
Proof.
  destruct (MultiplyMatrices_replaces_second store_ex parser.stepTransform
              parser.transform dilate_2 translate_123 4 4 4)
    as (c & Hrun & Hprod & _);
    [done | reflexivity | reflexivity | by apply is_matrix_4_4..| lia |].
  by exists c.
Defined.

(** C1, as the code has it. When [transform] is empty the step matrix
    becomes the transform as it is. Otherwise, for an m×n step matrix [S]
    and an n×p transform [T], the command leaves in [transform] the product
    [S]×[T]: the step is multiplied in from the left. *)
Theorem composeStep_left_multiplies (σ : gmap string Matrix) (T S : Matrix) (m n p : nat) :
  σ !! parser.transform = Some T → σ !! parser.stepTransform = Some S →
  (T = [] → parser.composeStep σ = Ok (<[parser.transform := S]> σ)) ∧
  (is_matrix m n S → is_matrix n p T → (0 < n)%nat →
   ∃ c, parser.composeStep σ = Ok (<[parser.transform := c]> σ) ∧ is_product S T c).
Proof.
  intros HT HS. unfold parser.composeStep, matrix.deref. rewrite HT. simpl. split.
  - intros ->. simpl. by rewrite HS.
  - intros HmS HmT Hn. rewrite decide_False by (destruct HmT as [-> _]; lia).
    exists (product_rows S T p). split.
    + by apply (MultiplyMatrices_Ok σ _ _ S T m n p).
    + by eapply product_rows_is_product.
Qed.

Lemma composeStep_left_multiplies_witness :
  ∃ c, parser.composeStep store_ex = Ok (<[parser.transform := c]> store_ex) ∧
       is_product dilate_2 translate_123 c.
Proof.
  apply (composeStep_left_multiplies store_ex translate_123 dilate_2 4 4 4);
    [reflexivity | reflexivity | by apply is_matrix_4_4..| lia].
Defined.

(** C1, as stated, fails: with the translation by (1,2,3) as
    the transform [T] and the dilation by 2 as the step [S], what the
    command leaves in [transform] is not [T]×[S]. *)
Lemma composeStep_not_right_multiply :
  ¬ ∃ σ' c, parser.composeStep store_ex = Ok σ' ∧ σ' !! parser.transform = Some c ∧
            is_product translate_123 dilate_2 c.
Proof.
  intros (σ' & c & Hrun & Hc & n & p & [_ Hrows] & [_ HS] & Hentries).
  vm_compute in Hrun. injection Hrun as <-. vm_compute in Hc. injection Hc as <-.
  apply Forall_cons in HS as [Hp _]. simpl in Hp. subst p.
  specialize (Hentries 0%nat 3%nat _ _ eq_refl ltac:(lia) eq_refl).
  vm_compute in Hentries. apply (inj Some) in Hentries. float_absurd Hentries.
Qed.

End Multiply.

(** ** [DrawLines] *)

Section DrawLines.

Lemma while_invariant {St} (I : St → Prop) (cond : St → bool) (body : St → res St) :
  (∀ s, I s → cond s = true → body s ≠ Panic ∧ ∀ s', body s = Ok s' → I s') →
  ∀ fuel s, I s →
    while fuel cond body s ≠ Panic ∧ ∀ s', while fuel cond body s = Ok s' → I s'.
Proof.
  intros Hbody. induction fuel as [|fuel IH]; intros s Hs; [done|].
  simpl. destruct (cond s) eqn:Hc; [|split; [done | by intros ? [= <-]]].
  destruct (Hbody s Hs Hc) as [Hnp Hok].
  destruct (body s) as [s1| |]; simpl; [|done..].
  apply IH. by apply Hok.
Qed.

Lemma while_related {St} (I : St → Prop) (cond cond' : St → bool) (body body' : St → res St) :
  (∀ s, I s → cond s = cond' s) →
  (∀ s, I s → cond s = true → body s = body' s ∧ ∀ s', body s = Ok s' → I s') →
  ∀ fuel s, I s → while fuel cond body s = while fuel cond' body' s.
Proof.
  intros Hcond Hbody. induction fuel as [|fuel IH]; intros s Hs; [done|].
  simpl. rewrite <- (Hcond s Hs). destruct (cond s) eqn:Hc; [|done].
  destruct (Hbody s Hs Hc) as [<- Hok].
  destruct (body s) as [s1| |]; simpl; [|done..].
  apply IH. by apply Hok.
Qed.

Lemma safe_Ok {St} (I : St → Prop) (s : St) : I s → safe I (Ok s).
Proof. intros Hs. split; [done | by intros ? [= <-]]. Qed.

Lemma safe_bind {St St'} (I : St → Prop) (J : St' → Prop) (r : res St) (k : St → res St') :
  safe I r → (∀ s, I s → safe J (k s)) → safe J (r ≫= k).
Proof.
  intros [Hnp Hok] Hk. destruct r as [s| |]; simpl.
  - by apply Hk, Hok.
  - done.
  - split; [done | by intros ? [=]].
Qed.

Lemma safe_while {St} (I : St → Prop) (cond : St → bool) (body : St → res St) :
  (∀ s, I s → safe I (body s)) →
  ∀ fuel s, I s → safe I (while fuel cond body s).
Proof.
  intros Hbody fuel s Hs. apply while_invariant; [|done].
  intros s1 Hs1 _. by apply Hbody.
Qed.

Lemma safe_plot (c : list Z) (s : Screen) (x y : float) :
  screen_ok s → safe screen_ok (draw.plot c s x y).
Proof.
  intros Hs. destruct (plot_total c s x y Hs) as (s' & -> & Hs'). by apply safe_Ok.
Qed.

Lemma safe_plot_then (c : list Z) (p : draw.pen) (k : Screen → res draw.pen) :
  screen_ok (draw.scr p) →
  (∀ s, screen_ok s → safe (λ p, screen_ok (draw.scr p)) (k s)) →
  safe (λ p, screen_ok (draw.scr p))
    (draw.plot c (draw.scr p) (draw.pen_x p) (draw.pen_y p) ≫= k).
Proof. intros Hp Hk. eapply safe_bind; [by apply safe_plot | done]. Qed.

Ltac safe_loop :=
  apply safe_while; [|done];
  let p := fresh "p" in let Hp := fresh "Hp" in
  intros p Hp; apply safe_plot_then; [done|];
  let s := fresh "s" in let Hs := fresh "Hs" in
  intros s Hs; try (destruct (_ <? _)%float); by apply safe_Ok.

(** [DrawLine] does not panic on a well-formed screen and hands one back. *)
Lemma DrawLine_safe (fuel : nat) (c : list Z) (s : Screen) (x0 y0 x1 y1 : float) :
  screen_ok s → safe screen_ok (draw.DrawLine fuel c s x0 y0 x1 y1).
Proof.
  intros Hs. unfold draw.DrawLine.
  destruct (x1 <? x0)%float; cbv beta iota zeta.
  all: destruct (_ =? 0)%float.
  all: try (destruct (_ <? _)%float; cbv beta iota zeta;
            (eapply (safe_bind (λ p, screen_ok (draw.scr p)));
              [safe_loop | intros ? ?; by apply safe_Ok])).
  all: repeat (eapply (safe_bind (λ p, screen_ok (draw.scr p)));
                [|intros ? ?]); try (by apply safe_Ok).
  all: match goal with |- safe _ (if ?b then _ else _) => destruct b end;
       try (by apply safe_Ok); safe_loop.
Qed.

Section Edges.
Context (fuel : nat) (c : list Z).

Lemma index_col_of (edges : Matrix) (N j k : nat) :
  is_matrix 4 N edges → (k < 4)%nat →
  index (col_of edges j) k = Ok (default 0%float (col_of edges j !! k)).
Proof.
  intros Hedges Hk. destruct (lookup_lt_is_Some_2 (col_of edges j) k) as [v Hv].
  { rewrite length_col_of. destruct Hedges as [-> _]. done. }
  by rewrite (index_Some _ _ _ Hv), Hv.
Qed.

Lemma DrawLines_turn_line (edges : Matrix) (N i : nat) (s : Screen) :
  is_matrix 4 N edges → (i + 1 < N)%nat →
  draw.DrawLines_turn fuel c edges (i, s) =
    s' ← line_from fuel c edges s i; Ok ((i + 2)%nat, s').
Proof.
  intros Hedges Hi. unfold draw.DrawLines_turn, line_from. simpl.
  rewrite !(ExtractColumn_col_of edges 4 N) by (done || lia). rewrite !bind_Ok.
  rewrite !(index_col_of edges N) by (done || lia). by rewrite !bind_Ok.
Qed.

Lemma DrawLines_unfold (edges : Matrix) (N : nat) (s : Screen) :
  is_matrix 4 N edges →
  draw.DrawLines fuel c edges s =
    st ← while fuel (λ st, bool_decide (Z.of_nat st.1 < Z.of_nat N - 1)%Z)
           (draw.DrawLines_turn fuel c edges) (0%nat, s);
    Ok st.2.
Proof.
  intros [Hlen Hrows]. unfold draw.DrawLines.
  destruct edges as [|r0 rest]; [done|]. simpl.
  apply Forall_cons in Hrows as [<- _]. done.
Qed.

Lemma is_matrix_take (edges : Matrix) (rows N k : nat) :
  is_matrix rows N edges → (k ≤ N)%nat → is_matrix rows k (take k <$> edges).
Proof.
  intros [Hlen Hrows] Hk. split; [by rewrite length_fmap|].
  apply Forall_fmap. eapply Forall_impl; [exact Hrows|]. simpl. intros row <-.
  rewrite length_take. lia.
Qed.

Lemma col_of_take (edges : Matrix) (k j : nat) :
  (j < k)%nat → col_of (take k <$> edges) j = col_of edges j.
Proof.
  intros Hj. unfold col_of. rewrite <- list_fmap_compose. apply list_fmap_ext.
  intros _ row _. simpl. by rewrite lookup_take_lt.
Qed.

Lemma line_from_take (edges : Matrix) (k i : nat) (s : Screen) :
  (i + 1 < k)%nat → line_from fuel c (take k <$> edges) s i = line_from fuel c edges s i.
Proof. intros Hi. unfold line_from. by rewrite !col_of_take by lia. Qed.

Lemma safe_line_from (edges : Matrix) (s : Screen) (i : nat) :
  screen_ok s → safe screen_ok (line_from fuel c edges s i).
Proof. intros. by apply DrawLine_safe. Qed.

(** The lines of the first [n] pairs of columns, drawn in turn. *)
Lemma DrawLines_loop (edges : Matrix) (N n : nat) :
  is_matrix 4 N edges → (N = 2 * n ∨ N = 2 * n + 1)%nat →
  ∀ (d g k : nat) (s : Screen), (k + d = n)%nat → (d < g)%nat →
    while g (λ st, bool_decide (Z.of_nat st.1 < Z.of_nat N - 1)%Z)
      (draw.DrawLines_turn fuel c edges) ((2 * k)%nat, s)
    = s' ← foldM (λ s k', line_from fuel c edges s (2 * k')) (seq k d) s;
      Ok ((2 * n)%nat, s').
Proof.
  intros Hedges HN. induction d as [|d IH]; intros g k s Hk Hd.
  - destruct g as [|g]; [lia|]. rewrite while_unfold. cbv beta.
    rewrite bool_decide_false by (cbn [fst]; lia).
    cbn [seq foldM]. rewrite bind_Ok. do 2 f_equal. lia.
  - destruct g as [|g]; [lia|]. rewrite while_unfold. cbv beta.
    rewrite bool_decide_true by (cbn [fst]; lia).
    rewrite (DrawLines_turn_line edges N) by (done || lia).
    cbn [seq foldM]. destruct (line_from fuel c edges s (2 * k)) as [s1| |]; [|done..].
    rewrite !bind_Ok.
    replace (2 * k + 2)%nat with (2 * S k)%nat by lia.
    by rewrite (IH g (S k) s1) by lia.
Qed.

End Edges.

(** C10. For an edge matrix of 4 rows and an odd number 2n+1 of columns,
    [DrawLines] does not panic (no column extraction is out of range) on a
    well-formed screen; it returns what it returns on the matrix without
    its last column, so that column is never read; and with fuel for its
    n turns it draws the n lines from column 2k to column 2k+1, k < n, in
    turn, and nothing else. *)
Theorem DrawLines_odd_columns (fuel : nat) (c : list Z) (edges : Matrix) (n : nat)
    (s : Screen) :
  is_matrix 4 (2 * n + 1) edges → screen_ok s →
  draw.DrawLines fuel c edges s ≠ Panic ∧
  draw.DrawLines fuel c edges s = draw.DrawLines fuel c (take (2 * n) <$> edges) s ∧
  ((n < fuel)%nat →
   draw.DrawLines fuel c edges s =
     foldM (λ s k, line_from fuel c edges s (2 * k)) (seq 0 n) s).
Proof.
  intros Hedges Hs.
  pose proof (is_matrix_take edges 4 (2 * n + 1) (2 * n) Hedges ltac:(lia)) as Htake.
  rewrite (DrawLines_unfold fuel c edges (2 * n + 1)) by done.
  rewrite (DrawLines_unfold fuel c (take (2 * n) <$> edges) (2 * n)) by done.
  split; [|split].
  - eapply (safe_bind (λ st : nat * Screen, screen_ok st.2) (λ _, True));
      [|intros; by apply safe_Ok].
    apply while_invariant; [|done]. intros [i s1] Hs1 Hcond.
    apply bool_decide_eq_true in Hcond. cbn [fst snd] in *.
    rewrite (DrawLines_turn_line fuel c edges (2 * n + 1)) by (done || lia).
    eapply safe_bind; [by apply safe_line_from|]. intros s2 Hs2. by apply safe_Ok.
  - f_equal.
    apply (while_related (λ st : nat * Screen, ∃ k, st.1 = (2 * k)%nat)); [..|by exists 0%nat].
    + intros [i s1] [k Hk]. cbn [fst snd] in *. subst i. apply bool_decide_ext. lia.
    + intros [i s1] [k Hk] Hcond. apply bool_decide_eq_true in Hcond.
      cbn [fst snd] in *. subst i.
      rewrite (DrawLines_turn_line fuel c edges (2 * n + 1)) by (done || lia).
      rewrite (DrawLines_turn_line fuel c _ (2 * n)) by (done || lia).
      rewrite line_from_take by lia. split; [done|].
      intros [i' s'] Hok. apply bind_Ok_inv in Hok as (s2 & _ & [= <- _]).
      exists (S k). simpl. lia.
  - intros Hfuel. change (0%nat, s) with ((2 * 0)%nat, s).
    rewrite (DrawLines_loop fuel c edges (2 * n + 1) n Hedges ltac:(lia) n fuel 0 s)
      by lia.
    by destruct (foldM _ _ _).
Qed.

Lemma DrawLines_odd_columns_witness :
  draw.DrawLines 6 [255; 255; 0]%Z edges_ex display.NewScreen ≠ Panic.
Proof.
  apply (DrawLines_odd_columns 6 [255; 255; 0]%Z edges_ex 1 display.NewScreen);
    [split; [reflexivity | by repeat constructor] | apply NewScreen_ok].
Defined.

End DrawLines.

(** ** The homogeneous component *)

Section Homogeneous.
Local Open Scope float_scope.


Lemma zero_mul_finite (x : float) : finite x = true → 0 * x = 0 ∨ 0 * x = neg_zero.
Proof.
  unfold finite. intros Hx.
  pose proof (mul_spec 0 x) as Hmul.
  change (Prim2SF 0) with (S754_zero false) in Hmul.
  assert (∃ b, Prim2SF (0 * x) = S754_zero b) as [b Hb].
  { rewrite Hmul. destruct (Prim2SF x); try done; simpl; eauto. }
  rewrite <- (SF2Prim_Prim2SF (0 * x)), Hb. destruct b; auto.
Qed.

Lemma bottom_row_dot (x y z : float) :
  finite x = true → finite y = true → finite z = true →
  dot_product [0; 0; 0; 1] [x; y; z; 1] = 1.
Proof.
  intros Hx Hy Hz. unfold dot_product. simpl.
  destruct (zero_mul_finite x Hx) as [-> | ->],
           (zero_mul_finite y Hy) as [-> | ->],
           (zero_mul_finite z Hz) as [-> | ->]; reflexivity.
Qed.

Lemma AddPoint_Ok (m : Matrix) (N : nat) (x y z : float) :
  is_matrix 4 N m →
  draw.AddPoint m x y z = Ok (zip_with (λ row v, row ++ [v]) m [x; y; z; 1]).
Proof.
  intros [Hlen _]. destruct m as [|r0 [|r1 [|r2 [|r3 [|]]]]]; try done.
Qed.

Lemma AddPoint_invariant (m m' : Matrix) (N : nat) (x y z : float) :
  is_matrix 4 N m → homogeneous m → draw.AddPoint m x y z = Ok m' →
  is_matrix 4 (N + 1) m' ∧ homogeneous m'.
Proof.
  intros Hm (w & Hw & Hones) Hadd. rewrite (AddPoint_Ok m N) in Hadd by done.
  injection Hadd as <-. destruct Hm as [Hlen Hrows].
  destruct m as [|r0 [|r1 [|r2 [|r3 [|]]]]]; try done.
  injection Hw as <-. simpl. split; [split; [done|]|].
  - repeat apply Forall_cons in Hrows as [? Hrows].
    repeat constructor; rewrite length_app; simpl; lia.
  - eexists. split; [done|]. apply Forall_app. split; [done | by constructor].
Qed.

Lemma AddPoints_invariant (pts : list (float * float * float)) :
  ∀ (m m' : Matrix) (N : nat),
    is_matrix 4 N m → homogeneous m → AddPoints pts m = Ok m' →
    is_matrix 4 (N + length pts) m' ∧ homogeneous m'.
Proof.
  induction pts as [|p pts IH]; intros m m' N Hm Hw Hrun.
  - injection Hrun as <-. by rewrite Nat.add_0_r.
  - unfold AddPoints in Hrun. simpl in Hrun.
    apply bind_Ok_inv in Hrun as (m1 & Hadd & Hrun).
    destruct (AddPoint_invariant _ _ _ _ _ _ Hm Hw Hadd) as [Hm1 Hw1].
    destruct (IH m1 m' (N + 1)%nat Hm1 Hw1 Hrun) as [Hm' Hw'].
    split; [|done]. simpl. by replace (N + S (length pts))%nat with (N + 1 + length pts)%nat by lia.
Qed.

Lemma grows_refl (m : Matrix) : grows m m.
Proof. by exists []. Qed.

Lemma foldM_app {A St} (f : St → A → res St) (l1 l2 : list A) (s : St) :
  foldM f (l1 ++ l2) s = s' ← foldM f l1 s; foldM f l2 s'.
Proof.
  revert s. induction l1 as [|a l1 IH]; intros s; [done|].
  simpl. destruct (f s a); simpl; [apply IH | done..].
Qed.

Lemma grows_trans (m1 m2 m3 : Matrix) : grows m1 m2 → grows m2 m3 → grows m1 m3.
Proof.
  intros [p1 H1] [p2 H2]. exists (p1 ++ p2). unfold AddPoints in *.
  by rewrite foldM_app, H1.
Qed.

Lemma grows_AddPoint (m m' : Matrix) (x y z : float) :
  draw.AddPoint m x y z = Ok m' → grows m m'.
Proof. intros Hadd. exists [(x, y, z)]. unfold AddPoints. simpl. by rewrite Hadd. Qed.

Lemma grows_for_float (fuel : nat) (cond : float → bool) (next : float → float)
    (body : float → Matrix → res Matrix) :
  (∀ t m m', body t m = Ok m' → grows m m') →
  ∀ t m m', for_float fuel cond next body t m = Ok m' → grows m m'.
Proof.
  intros Hbody. induction fuel as [|fuel IH]; intros t m m' Hrun; [done|].
  simpl in Hrun. destruct (cond t).
  - apply bind_Ok_inv in Hrun as (m1 & Hb & Hrun).
    eapply grows_trans; [by eapply Hbody | by eapply IH].
  - injection Hrun as <-. apply grows_refl.
Qed.

Lemma grows_foldM {A} (f : Matrix → A → res Matrix) (l : list A) :
  (∀ a m m', f m a = Ok m' → grows m m') →
  ∀ m m', foldM f l m = Ok m' → grows m m'.
Proof.
  intros Hf. induction l as [|a l IH]; intros m m' Hrun.
  - injection Hrun as <-. apply grows_refl.
  - simpl in Hrun. apply bind_Ok_inv in Hrun as (m1 & Ha & Hrun).
    eapply grows_trans; [by eapply Hf | by eapply IH].
Qed.

Lemma grows_AddEdge (m m' : Matrix) (params : list float) :
  draw.AddEdge m params = Ok m' → grows m m'.
Proof.
  unfold draw.AddEdge. intros Hrun.
  do 6 (apply bind_Ok_inv in Hrun as (? & _ & Hrun)).
  apply bind_Ok_inv in Hrun as (m1 & H1 & H2).
  eapply grows_trans; by eapply grows_AddPoint.
Qed.

Lemma grows_AddBox (m m' : Matrix) (a : list float) :
  draw.AddBox m a = Ok m' → grows m m'.
Proof.
  unfold draw.AddBox. intros Hrun.
  do 6 (apply bind_Ok_inv in Hrun as (? & _ & Hrun)).
  do 11 (apply bind_Ok_inv in Hrun as (? & ?%grows_AddEdge & Hrun)).
  apply grows_AddEdge in Hrun.
  repeat (eapply grows_trans; [eassumption|]). apply grows_refl.
Qed.

Section Generators.
Context `{GoMath}.

Lemma grows_AddCircle (fuel : nat) (m m' : Matrix) (params : list float) :
  draw.AddCircle fuel m params = Ok m' → grows m m'.
Proof.
  unfold draw.AddCircle. intros Hrun.
  do 4 (apply bind_Ok_inv in Hrun as (? & _ & Hrun)).
  eapply grows_for_float; [|exact Hrun]. intros t m1 m2. apply grows_AddPoint.
Qed.

Lemma grows_AddCurve (fuel : nat) (m m' : Matrix) (x0 y0 x1 y1 x2 y2 x3 y3 step : float)
    (curveType : string) :
  draw.AddCurve fuel m x0 y0 x1 y1 x2 y2 x3 y3 step curveType = Ok m' → grows m m'.
Proof.
  unfold draw.AddCurve. intros Hrun.
  do 2 (apply bind_Ok_inv in Hrun as (? & _ & Hrun)).
  eapply grows_for_float; [|exact Hrun]. intros t m1 m2 Hbody.
  do 2 (apply bind_Ok_inv in Hbody as (? & _ & Hbody)).
  by eapply grows_AddPoint.
Qed.

Lemma grows_add_dot (p : list float) (m m' : Matrix) :
  draw.add_dot m p = Ok m' → grows m m'.
Proof.
  unfold draw.add_dot. intros Hrun.
  do 3 (apply bind_Ok_inv in Hrun as (? & _ & Hrun)).
  by eapply grows_AddEdge.
Qed.

Lemma grows_AddSphere (fuel : nat) (m m' : Matrix) (a : list float) :
  draw.AddSphere fuel m a = Ok m' → grows m m'.
Proof.
  unfold draw.AddSphere. intros Hrun.
  do 5 (apply bind_Ok_inv in Hrun as (? & _ & Hrun)).
  eapply grows_foldM; [|exact Hrun]. apply grows_add_dot.
Qed.

Lemma grows_AddTorus (fuel : nat) (m m' : Matrix) (a : list float) :
  draw.AddTorus fuel m a = Ok m' → grows m m'.
Proof.
  unfold draw.AddTorus. intros Hrun.
  do 6 (apply bind_Ok_inv in Hrun as (? & _ & Hrun)).
  eapply grows_foldM; [|exact Hrun]. apply grows_add_dot.
Qed.

(** The constructors return 4×4 matrices with bottom row (0,0,0,1). *)
Lemma constructor_built_bottom (T : Matrix) :
  constructor_built T → is_matrix 4 4 T ∧ T !! 3%nat = Some [0; 0; 0; 1].
Proof.
  intros [[ps HT] | [[ps HT] | [[th HT] | [[th HT] | [th HT]]]]].
  - destruct ps as [|p0 [|p1 [|p2 ps]]]; try done.
    injection HT as <-. split; [by apply is_matrix_4_4 | done].
  - destruct ps as [|p0 [|p1 [|p2 ps]]]; try done.
    injection HT as <-. split; [by apply is_matrix_4_4 | done].
  - injection HT as <-. split; [by apply is_matrix_4_4 | done].
  - injection HT as <-. split; [by apply is_matrix_4_4 | done].
  - injection HT as <-. split; [by apply is_matrix_4_4 | done].
Qed.

Lemma is_matrix_product_rows (a b : Matrix) (p : nat) :
  is_matrix (length a) p (product_rows a b p).
Proof.
  split; [apply length_fmap|]. apply Forall_fmap, Forall_true. intros row. simpl.
  by rewrite length_fmap, length_seq.
Qed.

(** [apply] with a constructor-built transform keeps the fourth component
    of the columns whose first three components are numbers. *)
Lemma apply_keeps_homogeneous (σ : gmap string Matrix) (T E : Matrix) (N : nat) :
  constructor_built T →
  σ !! parser.transform = Some T → σ !! parser.edges = Some E →
  is_matrix 4 N E → homogeneous E → finite_coords E →
  ∃ E', parser.apply σ = Ok (<[parser.edges := E']> σ) ∧
        is_matrix 4 N E' ∧ homogeneous E'.
Proof.
  intros HT HσT HσE HE (w & Hw & Hones) Hfin.
  apply constructor_built_bottom in HT as [HT Hbottom].
  exists (product_rows T E N). split; [|split].
  - unfold parser.apply. by apply (MultiplyMatrices_Ok σ _ _ T E 4 4 N); [..|lia].
  - destruct HT as [<- _]. apply is_matrix_product_rows.
  - eexists. split.
    { unfold product_rows. by rewrite list_lookup_fmap, Hbottom. }
    apply Forall_fmap, Forall_forall. intros j Hj%elem_of_seq. simpl in *.
    destruct HE as [Hlen Hrows].
    destruct E as [|r0 [|r1 [|r2 [|r3 [|]]]]]; try done.
    injection Hw as <-.
    repeat apply Forall_cons in Hrows as [? Hrows].
    assert (∀ i r, (i < 3)%nat → [r0; r1; r2; r3] !! i = Some r →
              finite (default 0 (r !! j)) = true) as Hcoord.
    { intros i r Hi Hr. pose proof (Hfin i r Hi Hr) as Hr_fin.
      destruct (r !! j) as [v|] eqn:Hv; [|done].
      by eapply (Forall_lookup_1 _ _ _ _ Hr_fin). }
    destruct (lookup_lt_is_Some_2 r3 j) as [v Hv]; [lia|].
    pose proof (Forall_lookup_1 _ _ _ _ Hones Hv) as ->.
    unfold product_cell, col_of. simpl. rewrite Hv. simpl.
    apply bottom_row_dot.
    + apply (Hcoord 0%nat); [lia | done].
    + apply (Hcoord 1%nat); [lia | done].
    + apply (Hcoord 2%nat); [lia | done].
Qed.

(** C8, as the code has it. [AddPoint] appends the column (x,y,z,1) to a
    4-row matrix; a matrix reached by calls of [AddPoint] alone keeps every
    fourth component at 1; what [AddEdge], [AddCircle], [AddBox],
    [AddSphere], [AddTorus] and [AddCurve] return is reached by calls of
    [AddPoint] alone; and [apply] with a transform built by one of the
    constructors (bottom row (0,0,0,1)) keeps every fourth component at 1
    when the first three components of every column are numbers, neither
    infinite nor NaN. *)
Theorem homogeneous_column_kept :
  (∀ m N x y z, is_matrix 4 N m →
     draw.AddPoint m x y z = Ok (zip_with (λ row v, row ++ [v]) m [x; y; z; 1])) ∧
  (∀ m m' N, grows m m' → is_matrix 4 N m → homogeneous m → homogeneous m') ∧
  (∀ fuel m m' args,
     draw.AddEdge m args = Ok m' ∨ draw.AddCircle fuel m args = Ok m' ∨
     draw.AddBox m args = Ok m' ∨ draw.AddSphere fuel m args = Ok m' ∨
     draw.AddTorus fuel m args = Ok m' → grows m m') ∧
  (∀ fuel m m' x0 y0 x1 y1 x2 y2 x3 y3 step curveType,
     draw.AddCurve fuel m x0 y0 x1 y1 x2 y2 x3 y3 step curveType = Ok m' → grows m m') ∧
  (∀ σ T E N,
     constructor_built T →
     σ !! parser.transform = Some T → σ !! parser.edges = Some E →
     is_matrix 4 N E → homogeneous E → finite_coords E →
     ∃ E', parser.apply σ = Ok (<[parser.edges := E']> σ) ∧
           is_matrix 4 N E' ∧ homogeneous E').
Proof.
  split; [apply AddPoint_Ok|]. split.
  { intros m m' N [pts Hpts] Hm Hw. by eapply AddPoints_invariant. }
  split.
  { intros fuel m m' args [?|[?|[?|[?|?]]]];
      eauto using grows_AddEdge, grows_AddCircle, grows_AddBox, grows_AddSphere,
        grows_AddTorus. }
  split; [intros *; apply grows_AddCurve | apply apply_keeps_homogeneous].
Qed.

End Generators.

Lemma homogeneous_column_kept_witness :
  ∃ E', parser.apply store_hom = Ok (<[parser.edges := E']> store_hom) ∧
        is_matrix 4 3 E' ∧ homogeneous E'.
Proof.
  destruct (@homogeneous_column_kept stub_math) as (_ & _ & _ & _ & Happly).
  apply (Happly store_hom translate_123 edges_ex 3%nat).
  - left. by exists [1; 2; 3].
  - reflexivity.
  - reflexivity.
  - split; [reflexivity | by repeat constructor].
  - eexists. split; [reflexivity | by repeat constructor].
  - intros i row Hi Hrow.
    destruct i as [|[|[|i]]]; try lia; injection Hrow as <-; by repeat constructor.
Defined.

(** C8, as stated, fails where a coordinate is infinite. The identity, as
    the translation by (0,0,0) builds it, applied to the edge from (∞,0,0)
    to (0,0,0) leaves NaN as the fourth component of the first column: 0·∞
    is NaN. *)
Lemma homogeneous_lost_at_infinity :
  matrix.MakeTranslationMatrix [0; 0; 0] =
    Ok [[1; 0; 0; 0]; [0; 1; 0; 0]; [0; 0; 1; 0]; [0; 0; 0; 1]] ∧
  is_matrix 4 2 edges_inf ∧
  homogeneous edges_inf ∧
  ∃ E', parser.apply store_inf = Ok (<[parser.edges := E']> store_inf) ∧
        ¬ homogeneous E'.
Proof.
  split; [reflexivity|]. split; [split; [reflexivity | by repeat constructor]|].
  split; [eexists; split; [reflexivity | by repeat constructor]|].
  exists [[infinity; 0]; [nan; 0]; [nan; 0]; [nan; 1]]. split; [by vm_compute|].
  intros (w & Hw & Hones). injection Hw as <-.
  apply Forall_cons in Hones as [Hnan _]. float_absurd Hnan.
Qed.

End Homogeneous.

(** ** Rounding in binary64 *)

Section Shifts.
Local Open Scope Z_scope.

Lemma iter_pos_nat {A} (f : A → A) (p : positive) (x : A) :
  SpecFloat.iter_pos f p x = Nat.iter (Pos.to_nat p) f x.
Proof.
  revert x. induction p as [p IH|p IH|]; intros x.
  - cbn [SpecFloat.iter_pos]. rewrite !IH, Pos2Nat.inj_xI.
    replace (S (2 * Pos.to_nat p)) with (Pos.to_nat p + Pos.to_nat p + 1)%nat by lia.
    by rewrite !Nat.iter_add.
  - cbn [SpecFloat.iter_pos]. rewrite !IH, Pos2Nat.inj_xO.
    replace (2 * Pos.to_nat p)%nat with (Pos.to_nat p + Pos.to_nat p)%nat by lia.
    by rewrite Nat.iter_add.
  - done.
Qed.

Lemma shifted_0 (M : Z) : 0 ≤ M → shifted M 0 (Build_shr_record M false false).
Proof. intros. unfold shifted. simpl. lia. Qed.

Lemma shifted_S (M : Z) (k : nat) (mrs : shr_record) :
  shifted M k mrs → shifted M (S k) (shr_1 mrs).
Proof.
  unfold shifted. destruct mrs as [m r s]. simpl shr_m. simpl shr_r. simpl shr_s.
  rewrite Nat2Z.inj_succ, Z.pow_succ_r by lia.
  set (P := 2 ^ Z.of_nat k). intros (Hm & HR & Hr0 & Hr1 & Hs0 & Hs1).
  destruct m as [|[p|p|]|p]; try lia; simpl; destruct r, s; simpl in *; lia.
Qed.

Lemma shifted_iter (M : Z) (k : nat) :
  0 ≤ M → shifted M k (Nat.iter k shr_1 (Build_shr_record M false false)).
Proof.
  intros HM. induction k as [|k IH]; [by apply shifted_0|].
  simpl. by apply shifted_S.
Qed.

(** Rounding to nearest leaves at most half of [2^k]. *)
Lemma round_nearest_even_shifted (M : Z) (k : nat) (mrs : shr_record) :
  shifted M k mrs →
  let m := round_nearest_even (shr_m mrs) (loc_of_shr_record mrs) in
  0 ≤ m ∧ 2 * Z.abs (m * 2 ^ Z.of_nat k - M) ≤ 2 ^ Z.of_nat k.
Proof.
  unfold shifted. destruct mrs as [m r s]. simpl shr_m. simpl shr_r. simpl shr_s.
  set (P := 2 ^ Z.of_nat k). intros (Hm & HR & Hr0 & Hr1 & Hs0 & Hs1).
  destruct r, s; simpl; try destruct (Z.even m); lia.
Qed.

Lemma shr_shifted (M e n : Z) :
  0 ≤ M →
  ∃ k : nat, Z.of_nat k = Z.max n 0 ∧
    (shr (Build_shr_record M false false) e n).2 = e + Z.of_nat k ∧
    shifted M k (shr (Build_shr_record M false false) e n).1.
Proof.
  intros HM. destruct n as [|p|p]; simpl.
  - exists 0%nat. split; [done|]. split; [lia | by apply shifted_0].
  - exists (Pos.to_nat p). split; [lia|]. split; [lia|].
    rewrite iter_pos_nat. by apply shifted_iter.
  - exists 0%nat. split; [done|]. split; [lia | by apply shifted_0].
Qed.

Lemma digits2_pos_bounds (p : positive) :
  2 ^ (Z.pos (digits2_pos p) - 1) ≤ Z.pos p < 2 ^ Z.pos (digits2_pos p).
Proof.
  induction p as [p IH|p IH|]; simpl digits2_pos; [| |simpl; lia].
  - rewrite Pos2Z.inj_succ. replace (Z.succ (Z.pos (digits2_pos p)) - 1)
      with (Z.succ (Z.pos (digits2_pos p) - 1)) by lia.
    rewrite !Z.pow_succ_r by lia. lia.
  - rewrite Pos2Z.inj_succ. replace (Z.succ (Z.pos (digits2_pos p)) - 1)
      with (Z.succ (Z.pos (digits2_pos p) - 1)) by lia.
    rewrite !Z.pow_succ_r by lia. lia.
Qed.

Lemma Zdigits2_bounds (m : Z) :
  0 < m → 2 ^ (Zdigits2 m - 1) ≤ m < 2 ^ Zdigits2 m.
Proof. destruct m as [|p|p]; try lia. intros _. apply digits2_pos_bounds. Qed.

End Shifts.

Section Reals.
Local Open Scope R_scope.

Lemma p2_pos (e : Z) : 0 < p2 e.
Proof. apply powerRZ_lt. lra. Qed.

Lemma p2_add (a b : Z) : p2 (a + b) = p2 a * p2 b.
Proof. apply powerRZ_add. lra. Qed.

Lemma p2_Z (k : Z) : (0 ≤ k)%Z → IZR (2 ^ k) = p2 k.
Proof.
  intros Hk. unfold p2. rewrite <- (Z2Nat.id k) by done.
  rewrite <- pow_powerRZ, <- pow_IZR. done.
Qed.

Lemma p2_le (a b : Z) : (a ≤ b)%Z → p2 a <= p2 b.
Proof.
  intros Hab. replace b with (a + (b - a))%Z by lia. rewrite p2_add.
  rewrite <- (p2_Z (b - a)) by lia.
  assert (1 <= IZR (2 ^ (b - a))) by (apply IZR_le; pose proof (Z.pow_pos_nonneg 2 (b - a)); lia).
  pose proof (p2_pos a). nra.
Qed.

Lemma p2_lt_inv (a b : Z) : p2 a < p2 b → (a < b)%Z.
Proof.
  intros Hlt. destruct (Z_lt_le_dec a b) as [|Hle]; [done|].
  apply p2_le in Hle. lra.
Qed.

Lemma p2_succ (a : Z) : p2 (a + 1) = 2 * p2 a.
Proof. rewrite p2_add. unfold p2 at 2. simpl. lra. Qed.

Lemma fexp_64 (x : Z) : fexp prec emax x = Z.max (x - 53) (-1074).
Proof. reflexivity. Qed.

(** A power of two below a positive integer's value bounds its digits. *)
Lemma digits_below (m e b : Z) :
  (0 < m)%Z → F2R m e < p2 b → (Zdigits2 m + e ≤ b)%Z.
Proof.
  intros Hm Hlt. pose proof (Zdigits2_bounds m Hm) as [Hlo _].
  assert (0 ≤ Zdigits2 m - 1)%Z by (destruct m; simpl in *; lia).
  apply IZR_le in Hlo. rewrite p2_Z in Hlo by done.
  assert (p2 (Zdigits2 m - 1 + e) < p2 b) as Hp.
  { rewrite p2_add. unfold F2R in Hlt. pose proof (p2_pos e). nra. }
  apply p2_lt_inv in Hp. lia.
Qed.

(** What a shift by [k] leaves, as real numbers. *)
Lemma shifted_F2R (M : Z) (k : nat) (mrs : shr_record) (e : Z) :
  shifted M k mrs →
  0 <= F2R M e - F2R (shr_m mrs) (e + Z.of_nat k) ∧
  (k = 0%nat → F2R (shr_m mrs) (e + Z.of_nat k) = F2R M e) ∧
  F2R M e - F2R (shr_m mrs) (e + Z.of_nat k) <= p2 (e + Z.of_nat k).
Proof.
  intros (Hm & [HR0 HR1] & _). unfold F2R. rewrite p2_add, <- (p2_Z (Z.of_nat k)) by lia.
  assert (k = 0%nat → M - shr_m mrs * 2 ^ Z.of_nat k = 0)%Z as Hk0
    by (intros ->; simpl in *; lia).
  apply IZR_le in HR0. apply IZR_lt in HR1.
  rewrite minus_IZR, mult_IZR in HR0, HR1.
  assert (k = 0%nat → IZR M - IZR (shr_m mrs) * IZR (2 ^ Z.of_nat k) = 0) as Hk0'.
  { intros Hk. rewrite <- mult_IZR, <- minus_IZR, (Hk0 Hk). done. }
  pose proof (p2_pos e).
  set (P := IZR (2 ^ Z.of_nat k)) in *. set (a := IZR M) in *.
  set (b := IZR (shr_m mrs)) in *. set (c := p2 e) in *. clearbody P a b c.
  split; [nra|]. split; [|nra].
  intros Hk. specialize (Hk0' Hk). nra.
Qed.

Lemma rounded_F2R (M : Z) (k : nat) (mrs : shr_record) (e : Z) :
  shifted M k mrs →
  let m := round_nearest_even (shr_m mrs) (loc_of_shr_record mrs) in
  (k = 0%nat → F2R m (e + Z.of_nat k) = F2R M e) ∧
  2 * Rabs (F2R m (e + Z.of_nat k) - F2R M e) <= p2 (e + Z.of_nat k).
Proof.
  intros Hsh m. destruct (round_nearest_even_shifted M k mrs Hsh) as [Hm Herr].
  fold m in Hm, Herr. unfold F2R. rewrite p2_add, <- (p2_Z (Z.of_nat k)) by lia.
  assert (k = 0%nat → m = M) as Hk0 by (intros ->; simpl in *; lia).
  apply IZR_le in Herr. rewrite !mult_IZR, abs_IZR, minus_IZR, mult_IZR in Herr.
  pose proof (p2_pos e). split.
  - intros Hk. rewrite (Hk0 Hk), Hk. change (IZR (2 ^ Z.of_nat 0)) with 1. ring.
  - replace (IZR m * (p2 e * IZR (2 ^ Z.of_nat k)) - IZR M * p2 e)
      with ((IZR m * IZR (2 ^ Z.of_nat k) - IZR M) * p2 e) by ring.
    rewrite Rabs_mult, (Rabs_pos_eq (p2 e)) by lra.
    set (r := Rabs (IZR m * IZR (2 ^ Z.of_nat k) - IZR M)) in *.
    set (P := IZR (2 ^ Z.of_nat k)) in *. set (c := p2 e) in *. clearbody r P c.
    nra.
Qed.

Lemma Rabs_le_inv (a b : R) : Rabs a <= b → - b <= a <= b.
Proof. unfold Rabs. destruct (Rcase_abs a); lra. Qed.

Lemma p2_0 : p2 0 = 1.
Proof. reflexivity. Qed.

Lemma p2_3 : p2 3 = 8.
Proof. unfold p2. simpl. lra. Qed.

Lemma p2_4 : p2 4 = 16.
Proof. unfold p2. simpl. lra. Qed.

Lemma p2_m48 : p2 (-48) = 8 * p2 (-51).
Proof.
  replace (-48)%Z with (-51 + 3)%Z by lia. rewrite p2_add, p2_3. ring.
Qed.

Lemma p2_m49 : p2 (-49) = 4 * p2 (-51).
Proof.
  replace (-49)%Z with (-51 + 2)%Z by lia. rewrite p2_add. unfold p2 at 2. simpl. ring.
Qed.

Lemma p2_m50 : p2 (-50) = 2 * p2 (-51).
Proof.
  replace (-50)%Z with (-51 + 1)%Z by lia. rewrite p2_add. unfold p2 at 2. simpl. ring.
Qed.

(** The rounding of a positive value below 8: the result is a number, and
    within 2^-48 of the value. *)
Lemma round_aux_error (s : bool) (M : positive) (E : Z) :
  F2R (Z.pos M) E < 8 →
  let r := binary_round_aux prec emax s (Z.pos M) E loc_Exact in
  SFnumber r = true ∧
  SF2R r = (if s then - SFmag r else SFmag r) ∧
  Rabs (SFmag r - F2R (Z.pos M) E) <= p2 (-48).
Proof.
  intros HP. unfold binary_round_aux, shr_fexp.
  change (shr_record_of_loc (Z.pos M) loc_Exact) with (Build_shr_record (Z.pos M) false false).
  rewrite !fexp_64.
  set (d1 := Zdigits2 (Z.pos M)).
  set (n1 := (Z.max (d1 + E - 53) (-1074) - E)%Z).
  destruct (shr_shifted (Z.pos M) E n1 ltac:(lia)) as (k1 & Hk1 & He1 & Hsh1).
  destruct (shr _ E n1) as [mrs1 e1]. simpl in He1, Hsh1.
  pose proof (rounded_F2R _ _ _ E Hsh1) as [Hexact1 Herr1].
  pose proof (round_nearest_even_shifted _ _ _ Hsh1) as [Hm2 _].
  set (m2 := round_nearest_even (shr_m mrs1) (loc_of_shr_record mrs1)) in *.
  change (shr_record_of_loc m2 loc_Exact) with (Build_shr_record m2 false false).
  rewrite fexp_64.
  set (d2 := Zdigits2 m2).
  set (n2 := (Z.max (d2 + e1 - 53) (-1074) - e1)%Z).
  destruct (shr_shifted m2 e1 n2 Hm2) as (k2 & Hk2 & He2 & Hsh2).
  destruct (shr _ e1 n2) as [mrs2 e2]. simpl in He2, Hsh2.
  pose proof (shifted_F2R _ _ _ e1 Hsh2) as (Hlow2 & Hexact2 & Herr2).
  destruct Hsh2 as (Hm3 & _). rewrite <- He1 in *. rewrite <- He2 in *.
  (* the exponents *)
  rewrite <- p2_3 in HP.
  assert (d1 + E ≤ 3)%Z as Hd1 by (apply digits_below; [lia | done]).
  assert (E ≤ 2)%Z as HE.
  { assert (p2 E < p2 3) as Hp.
    { unfold F2R in HP. pose proof (p2_pos E).
      assert (1 <= IZR (Z.pos M)) by (apply IZR_le; lia).
      set (a := IZR (Z.pos M)) in *. clearbody a. nra. }
    apply p2_lt_inv in Hp. lia. }
  assert (Rabs (F2R m2 e1 - F2R (Z.pos M) E) <= p2 (-51)) as Hr1.
  { destruct k1 as [|k1].
    - rewrite (Hexact1 eq_refl). rewrite Rminus_diag, Rabs_R0. pose proof (p2_pos (-51)). lra.
    - assert (e1 ≤ -50)%Z as He1' by lia. apply p2_le in He1'. rewrite p2_m50 in He1'. lra. }
  assert (F2R m2 e1 < p2 4) as Hm2_lt.
  { rewrite p2_4. rewrite p2_3 in HP. pose proof (p2_le (-51) 0 ltac:(lia)) as H51.
    rewrite p2_0 in H51. apply Rabs_le_inv in Hr1. lra. }
  assert (e1 ≤ 2)%Z as He1_le by lia.
  assert (d2 = 0 ∨ d2 + e1 ≤ 4)%Z as Hd2.
  { destruct (Z.eq_dec m2 0%Z) as [Hz|Hnz].
    - left. unfold d2. by rewrite Hz.
    - right. apply digits_below; [lia | done]. }
  assert (F2R m2 e1 - F2R (shr_m mrs2) e2 <= p2 (-49)) as Hr2.
  { destruct k2 as [|k2].
    - rewrite (Hexact2 eq_refl). rewrite Rminus_diag. pose proof (p2_pos (-49)). lra.
    - assert (e2 ≤ -49)%Z as He2' by lia. apply p2_le in He2'. lra. }
  assert (e2 ≤ 971)%Z as He2_le by lia.
  assert (Rabs (F2R (shr_m mrs2) e2 - F2R (Z.pos M) E) <= p2 (-48)) as Htotal.
  { rewrite p2_m48. rewrite p2_m49 in Hr2. pose proof (p2_pos (-51)).
    apply Rabs_le_inv in Hr1. apply Rabs_le. lra. }
  destruct (shr_m mrs2) as [|m3|m3]; [| |lia].
  - simpl. split; [done|]. split; [by destruct s; lra|].
    unfold F2R in Htotal at 1. by rewrite Rmult_0_l in Htotal.
  - replace (e2 <=? emax - prec)%Z with true by (symmetry; apply Z.leb_le; done).
    simpl. split; [done|]. split; [by destruct s | done].
Qed.

Lemma F2R_mul (m1 e1 m2 e2 : Z) : F2R (m1 * m2) (e1 + e2) = F2R m1 e1 * F2R m2 e2.
Proof. unfold F2R. rewrite mult_IZR, p2_add. ring. Qed.

Lemma F2R_pos (m : positive) (e : Z) : 0 < F2R (Z.pos m) e.
Proof.
  unfold F2R. apply Rmult_lt_0_compat; [|apply p2_pos]. apply IZR_lt. lia.
Qed.

(** A product of magnitude below 8 is rounded by at most 2^-48. *)
Lemma mul_error (a b : float) :
  finite a = true → finite b = true → Rabs (B2R a * B2R b) < 8 →
  finite (a * b) = true ∧ Rabs (B2R (a * b) - B2R a * B2R b) <= p2 (-48).
Proof.
  unfold finite, B2R. rewrite mul_spec. unfold SF64mul.
  pose proof (p2_pos (-48)) as Hp.
  destruct (Prim2SF a) as [sa| | |sa ma ea], (Prim2SF b) as [sb| | |sb mb eb];
    try done; intros _ _ Hlt; cbn [SFmul SF2R].
  1-3: split; [done|]; rewrite ?Rmult_0_l, ?Rmult_0_r, Rminus_diag, Rabs_R0; lra.
  assert (F2R (Z.pos (ma * mb)) (ea + eb) < 8) as HP.
  { rewrite Pos2Z.inj_mul, F2R_mul.
    pose proof (F2R_pos ma ea). pose proof (F2R_pos mb eb). cbn [SF2R] in Hlt.
    set (x := F2R (Z.pos ma) ea) in *. set (y := F2R (Z.pos mb) eb) in *. clearbody x y.
    destruct sa, sb;
      rewrite ?Rmult_opp_opp, ?Ropp_mult_distr_l_reverse, ?Ropp_mult_distr_r_reverse,
        ?Rabs_Ropp in Hlt;
      rewrite Rabs_pos_eq in Hlt by nra; done. }
  destruct (round_aux_error (xorb sa sb) (ma * mb) (ea + eb) HP) as (Hnum & Hval & Herr).
  set (r := binary_round_aux prec emax (xorb sa sb) (Z.pos (ma * mb)) (ea + eb) loc_Exact) in *.
  split; [by destruct r|]. rewrite Hval.
  rewrite Pos2Z.inj_mul, F2R_mul in Herr.
  set (x := F2R (Z.pos ma) ea) in *. set (y := F2R (Z.pos mb) eb) in *.
  set (v := SFmag r) in *. clearbody x y v.
  destruct sa, sb; cbn [xorb];
    [replace (v - - x * - y) with (v - x * y) by ring
    |replace (- v - - x * y) with (- (v - x * y)) by ring; rewrite Rabs_Ropp
    |replace (- v - x * - y) with (- (v - x * y)) by ring; rewrite Rabs_Ropp
    |]; done.
Qed.

(** Adding 0 to a number leaves its value. *)
Lemma add_zero (a : float) :
  finite a = true → finite (a + 0) = true ∧ B2R (a + 0) = B2R a.
Proof.
  unfold finite, B2R. rewrite add_spec. unfold SF64add.
  change (Prim2SF 0) with (S754_zero false).
  destruct (Prim2SF a) as [[]| | |sa ma ea]; try done.
Qed.

Lemma B2R_5 : B2R 5 = 5.
Proof.
  unfold B2R. change (Prim2SF 5) with (S754_finite false 5629499534213120 (-50)).
  cbn [SF2R]. unfold F2R.
  change 5629499534213120%Z with (5 * 2 ^ 50)%Z. rewrite mult_IZR, p2_Z by lia.
  rewrite Rmult_assoc, <- p2_add. change (50 + -50)%Z with 0%Z. rewrite p2_0. lra.
Qed.

Lemma p2_m48_small : p2 (-48) <= 1e-14.
Proof.
  assert (p2 (-48) * IZR (2 ^ 48) = 1) as H.
  { rewrite p2_Z, <- p2_add by lia. apply p2_0. }
  change (2 ^ 48)%Z with 281474976710656%Z in H.
  pose proof (p2_pos (-48)). set (x := p2 (-48)) in *. clearbody x. lra.
Qed.

(** The point the circle loop computes for centre (0,0) and radius 5, from a
    sine and a cosine whose squares add up to 1 within 1e-9. *)
Lemma on_circle (c s : float) :
  finite c = true → finite s = true →
  Rabs (B2R s ^ 2 + B2R c ^ 2 - 1) <= 1e-9 →
  let x := (5 * c + 0)%float in
  let y := (5 * s + 0)%float in
  finite x = true ∧ finite y = true ∧ Rabs (B2R x ^ 2 + B2R y ^ 2 - 25) <= 1e-6.
Proof.
  intros Hc Hs Hunit x y. apply Rabs_le_inv in Hunit.
  assert (finite 5 = true) as H5 by reflexivity.
  assert (Rabs (B2R 5 * B2R c) < 8) as Hc8.
  { rewrite B2R_5. apply Rabs_def1; nra. }
  assert (Rabs (B2R 5 * B2R s) < 8) as Hs8.
  { rewrite B2R_5. apply Rabs_def1; nra. }
  destruct (mul_error 5 c H5 Hc Hc8) as [Hfc Herrc].
  destruct (mul_error 5 s H5 Hs Hs8) as [Hfs Herrs].
  destruct (add_zero (5 * c) Hfc) as [Hfx Hx].
  destruct (add_zero (5 * s) Hfs) as [Hfy Hy].
  split; [done|]. split; [done|]. subst x y. rewrite Hx, Hy.
  rewrite B2R_5 in Herrc, Herrs.
  pose proof p2_m48_small as Hsmall.
  apply Rabs_le_inv in Herrc, Herrs.
  set (X := B2R (5 * c)) in *. set (Y := B2R (5 * s)) in *.
  set (C := B2R c) in *. set (S := B2R s) in *. set (d := p2 (-48)) in *.
  clearbody X Y C S d. apply Rabs_le.
  assert (-1.1 <= C <= 1.1) by nra. assert (-1.1 <= S <= 1.1) by nra.
  assert (-6 <= X <= 6) by lra. assert (-6 <= Y <= 6) by lra.
  assert (X ^ 2 - (5 * C) ^ 2 = (X - 5 * C) * (X + 5 * C)) as HX by ring.
  assert (Y ^ 2 - (5 * S) ^ 2 = (Y - 5 * S) * (Y + 5 * S)) as HY by ring.
  assert (-12e-14 <= (X - 5 * C) * (X + 5 * C) <= 12e-14) by nra.
  assert (-12e-14 <= (Y - 5 * S) * (Y + 5 * S) <= 12e-14) by nra.
  nra.
Qed.

End Reals.

(** ** The circle *)

Section Circle.
Local Open Scope float_scope.

Lemma for_float_steps {St} (cond : float → bool) (step : float)
    (body : float → St → res St) (n : nat) :
  ∀ (fuel : nat) (t : float) (s : St),
    (n < fuel)%nat →
    forallb cond (float_steps n t step) = true →
    cond (float_after n t step) = false →
    for_float fuel cond (λ t, t + step) body t s =
      foldM (λ s t, body t s) (float_steps n t step) s.
Proof.
  induction n as [|n IH]; intros fuel t s Hfuel Hin Hout.
  - destruct fuel as [|fuel]; [lia|]. simpl in *. by rewrite Hout.
  - destruct fuel as [|fuel]; [lia|]. simpl in *.
    apply andb_true_iff in Hin as [-> Hin].
    destruct (body t s) as [s1| |]; simpl; [|done..].
    apply IH; [lia | done..].
Qed.

(** A loop that adds one point per value of a list. *)
Lemma AddPoint_each {A} (fx fy fz : A → float) (l : list A) :
  ∀ r0 r1 r2 r3 : list float,
    foldM (λ m a, draw.AddPoint m (fx a) (fy a) (fz a)) l [r0; r1; r2; r3] =
      Ok [r0 ++ (fx <$> l); r1 ++ (fy <$> l); r2 ++ (fz <$> l);
          r3 ++ replicate (length l) 1].
Proof.
  induction l as [|a l IH]; intros r0 r1 r2 r3.
  - simpl. by rewrite !app_nil_r.
  - cbn [foldM]. change (draw.AddPoint [r0; r1; r2; r3] (fx a) (fy a) (fz a))
      with (Ok [r0 ++ [fx a]; r1 ++ [fy a]; r2 ++ [fz a]; r3 ++ [1]]).
    rewrite bind_Ok, IH. simpl. by rewrite <- !app_assoc.
Qed.

Lemma circle_samples_length : length circle_samples = 1000%nat.
Proof. by vm_compute. Qed.

Lemma forallb_Forall {A} (f : A → bool) (l : list A) :
  forallb f l = true → Forall (λ a, f a = true) l.
Proof.
  induction l as [|a l IH]; simpl; [done|].
  intros [Ha Hl]%andb_true_iff. constructor; auto.
Qed.

Context `{GoMath}.

Lemma AddCircle_rows (fuel : nat) (r0 r1 r2 r3 : list float) (cx cy cz r : float) :
  (1001 ≤ fuel)%nat →
  draw.AddCircle fuel [r0; r1; r2; r3] [cx; cy; cz; r] =
    Ok [r0 ++ ((λ t, r * math_Cos (2 * math_Pi * t) + cx) <$> circle_samples);
        r1 ++ ((λ t, r * math_Sin (2 * math_Pi * t) + cy) <$> circle_samples);
        r2 ++ replicate 1000 0;
        r3 ++ replicate 1000 1].
Proof.
  intros Hfuel. unfold draw.AddCircle. cbn [index lookup list_lookup mbind res_bind].
  rewrite (for_float_steps _ _ _ 1000) by (lia || by vm_compute).
  fold circle_samples.
  rewrite (AddPoint_each (λ t, r * math_Cos (2 * math_Pi * t) + cx)
             (λ t, r * math_Sin (2 * math_Pi * t) + cy) (λ _, 0)).
  rewrite circle_samples_length. by do 3 f_equal.
Qed.

(** C9. With fuel for its 1001 loop tests, [AddCircle] on the rows [r0],
    [r1], [r2], [r3] and the parameters cx, cy, cz, r returns normally. Its
    samples are the 1000 values t takes from 0 in steps of 0.001 (the float
    sum passes 1 after the 1000th step), all within [0,1]; for each of them
    it appends one point, r·cos(2πt)+cx to the first row, r·sin(2πt)+cy to
    the second, 0 to the third and 1 to the fourth, and cz does not appear.
    For centre (0,0) and radius 5 every such point is a pair of numbers
    with x²+y² within 1e-6 of 25, provided [math.Sin] and [math.Cos] return
    numbers whose squares add up to 1 within 1e-9. *)
Theorem AddCircle_samples (fuel : nat) (r0 r1 r2 r3 : list float) (cx cy cz r : float) :
  (1001 ≤ fuel)%nat →
  length circle_samples = 1000%nat ∧
  Forall (λ t, (0 <=? t) && (t <=? 1) = true) circle_samples ∧
  draw.AddCircle fuel [r0; r1; r2; r3] [cx; cy; cz; r] =
    Ok [r0 ++ ((λ t, r * math_Cos (2 * math_Pi * t) + cx) <$> circle_samples);
        r1 ++ ((λ t, r * math_Sin (2 * math_Pi * t) + cy) <$> circle_samples);
        r2 ++ replicate 1000 0;
        r3 ++ replicate 1000 1] ∧
  (trig_accurate →
   Forall (λ t,
      let x := 5 * math_Cos (2 * math_Pi * t) + 0 in
      let y := 5 * math_Sin (2 * math_Pi * t) + 0 in
      finite x = true ∧ finite y = true ∧
      (Rabs (B2R x ^ 2 + B2R y ^ 2 - 25) <= 1e-6)%R) circle_samples).
Proof.
  intros Hfuel. split; [apply circle_samples_length|].
  split; [apply forallb_Forall; by vm_compute|].
  split; [by apply AddCircle_rows|].
  intros Htrig.
  assert (Forall (λ t, finite (2 * math_Pi * t) = true) circle_samples) as Hfin
    by (apply forallb_Forall; by vm_compute).
  eapply Forall_impl; [exact Hfin|]. intros t Ht. cbv beta in Ht.
  destruct (Htrig _ Ht) as (Hs & Hc & Hunit). by apply on_circle.
Qed.

End Circle.

Lemma stub_math_accurate : @trig_accurate stub_math.
Proof.
  intros u _. split; [done|]. split; [done|]. simpl.
  change (B2R 0) with 0%R.
  assert (B2R 1 = 1%R) as ->.
  { unfold B2R. change (Prim2SF 1) with (S754_finite false 4503599627370496 (-52)).
    cbn [SF2R]. unfold F2R. change 4503599627370496%Z with (2 ^ 52)%Z.
    rewrite p2_Z, <- p2_add by lia. apply p2_0. }
  apply Rabs_le. lra.
Qed.

Lemma AddCircle_samples_witness :
  @draw.AddCircle stub_math 1001 [[]; []; []; []] [0; 0; 0; 5]%float =
    Ok [(λ _, 5 * 1 + 0)%float <$> circle_samples;
        (λ _, 5 * 0 + 0)%float <$> circle_samples;
        replicate 1000 0%float;
        replicate 1000 1%float] ∧
  Forall (λ _, (Rabs (B2R (5 * 1 + 0) ^ 2 + B2R (5 * 0 + 0) ^ 2 - 25) <= 1e-6)%R)
    circle_samples.
Proof.
  destruct (@AddCircle_samples stub_math 1001 [] [] [] [] 0 0 0 5)%float
    as (_ & _ & Hrun & Hon); [lia|].
  split; [exact Hrun|].
  eapply Forall_impl; [exact (Hon stub_math_accurate)|]. by intros t (_ & _ & Ht).
Defined.

(** ** Constants, rotations and rounding *)

Section Constants.
Local Open Scope float_scope.

(** C6. [MakeBezier()] and [MakeHermite()] return the 4×4 matrices with
    rows [-1,3,-3,1], [3,-6,3,0], [-3,3,0,0], [1,0,0,0] and [2,-2,1,1],
    [-3,3,-2,-1], [0,0,1,0], [1,0,0,0]: the cells the code does not assign
    keep the 0 of [NewMatrix]. *)
Theorem basis_matrices :
  matrix.MakeBezier = Ok [[-1; 3; -3; 1]; [3; -6; 3; 0]; [-3; 3; 0; 0]; [1; 0; 0; 0]] ∧
  matrix.MakeHermite = Ok [[2; -2; 1; 1]; [-3; 3; -2; -1]; [0; 0; 1; 0]; [1; 0; 0; 0]].
Proof. split; reflexivity. Qed.

(** C7. For an angle [theta] in degrees each rotation constructor takes the
    sine and the cosine of the angle in radians, theta·π/180 (the code
    divides first: [theta / 180 * math.Pi]), and returns the 4×4 identity
    with only the four cells of its plane overwritten: [cos,-sin;sin,cos] at
    rows and columns 1-2 for X, [cos,sin;-sin,cos] at rows and columns 0 and
    2 for Y, [cos,-sin;sin,cos] at rows and columns 0-1 for Z. *)
Theorem rotation_matrices `{GoMath} (theta : float) :
  let radians := theta / 180 * math_Pi in
  let sin := math_Sin radians in
  let cos := math_Cos radians in
  matrix.MakeRotX theta =
    Ok [[1; 0; 0; 0]; [0; cos; - sin; 0]; [0; sin; cos; 0]; [0; 0; 0; 1]] ∧
  matrix.MakeRotY theta =
    Ok [[cos; 0; sin; 0]; [0; 1; 0; 0]; [- sin; 0; cos; 0]; [0; 0; 0; 1]] ∧
  matrix.MakeRotZ theta =
    Ok [[cos; - sin; 0; 0]; [sin; cos; 0; 0]; [0; 0; 1; 0]; [0; 0; 0; 1]].
Proof. repeat split; reflexivity. Qed.

(** C3, where the code misses it. 1.9999999999999998 is the float just
    below 2: it is not negative, its round-half-up is 2, and
    [float64ToInt] returns 3, because the sum [f + 1] of its last line is
    rounded to 3 before the fraction is cut off. *)
Theorem float64ToInt_just_below_two :
  let f := 1.9999999999999998 in
  (0 <=? f) = true ∧
  floor_half_up f = Some 2%Z ∧
  draw.float64ToInt f = 3%Z.
Proof. repeat split; reflexivity. Qed.

(** C4, where the code misses it. The point (-0.7, 0) lies left of the
    screen: the integer nearest to -0.7 is -1, and there is no column -1.
    [plot] paints it all the same, in column 0 of the bottom row, because
    [float64ToInt] cuts -0.7 off to 0; and so does [DrawLine] from the point
    to itself, as the script command [line] with [-0.7 0 0 -0.7 0 0] and
    then [draw] calls it. Inside the screen the cell can be the wrong one:
    the point (1.9999999999999998, 0), whose nearest column is 2, is painted
    in column 3, and column 2 stays as it was. *)
Theorem plot_paints_a_point_left_of_the_screen :
  let white := [255; 255; 255]%Z in
  let black := [0; 0; 0]%Z in
  let bottom := 499%nat in
  floor_half_up (-0.7) = Some (-1)%Z ∧
  draw.plot white display.NewScreen (-0.7) 0
    = Ok (set_pixel white bottom 0 display.NewScreen) ∧
  draw.DrawLine 2 white display.NewScreen (-0.7) 0 (-0.7) 0
    = Ok (set_pixel white bottom 0 display.NewScreen) ∧
  cell display.NewScreen bottom 0 = Some black ∧
  cell (set_pixel white bottom 0 display.NewScreen) bottom 0 = Some white ∧
  floor_half_up 1.9999999999999998 = Some 2%Z ∧
  draw.plot white display.NewScreen 1.9999999999999998 0
    = Ok (set_pixel white bottom 3 display.NewScreen) ∧
  cell (set_pixel white bottom 3 display.NewScreen) bottom 2 = Some black ∧
  cell (set_pixel white bottom 3 display.NewScreen) bottom 3 = Some white.
Proof. repeat split; vm_compute; reflexivity. Qed.

(** Away from such sums [float64ToInt] rounds half up. *)
Example float64ToInt_rounds_half_up :
  Forall (λ f, Some (draw.float64ToInt f) = floor_half_up f)
    [0; 0.25; 0.49999999999999994; 0.5; 0.75; 1; 1.5; 2.4; 2.5; 3.7; 499.5; 1e15].
Proof. repeat constructor. Qed.

End Constants.

(** ** Exact float arithmetic *)

Section Exact.
Local Open Scope Z_scope.

Lemma bounded_inv (m : positive) (e : Z) :
  SpecFloat.bounded prec emax m e = true →
  fexp prec emax (Z.pos (digits2_pos m) + e) = e ∧ e ≤ emax - prec.
Proof.
  unfold SpecFloat.bounded, canonical_mantissa. intros [H1 H2]%andb_prop.
  split; [by apply Z.eqb_eq | by apply Z.leb_le].
Qed.

(** Multiplying by 1 is exact: the mantissa shifted left by 52 binary places
    is shifted back without a remainder. *)
Lemma round_aux_one (s : bool) (m : positive) (e : Z) :
  SpecFloat.bounded prec emax m e = true →
  binary_round_aux prec emax s (Z.pos (4503599627370496 * m)) (-52 + e) loc_Exact
  = S754_finite s m e.
Proof.
  intros [Hcanon He]%bounded_inv.
  unfold binary_round_aux, shr_fexp.
  let t := eval cbv in (4503599627370496 * m)%positive in
    change (4503599627370496 * m)%positive with t.
  cbn [Zdigits2 digits2_pos].
  rewrite !Pos2Z.inj_succ.
  set (d := Z.pos (digits2_pos m)) in *.
  match goal with |- context [fexp prec emax ?a] =>
    replace a with (d + e) by lia end.
  rewrite Hcanon. replace (e - (-52 + e)) with 52 by lia.
  cbn [shr shr_record_of_loc SpecFloat.iter_pos shr_1 shr_m shr_r shr_s orb
       loc_of_shr_record round_nearest_even fst snd].
  replace (-52 + e + 52) with e by lia.
  cbn [Zdigits2]. fold d. rewrite Hcanon, Z.sub_diag.
  cbn [shr shr_m shr_record_of_loc]. 
  by replace (e <=? emax - prec) with true by (symmetry; by apply Z.leb_le).
Qed.

End Exact.

Section FloatFacts.
Local Open Scope float_scope.

Lemma mul_1_l (x : float) : 1 * x = x.
Proof.
  apply Prim2SF_inj. rewrite mul_spec. unfold SF64mul.
  change (Prim2SF 1) with (S754_finite false 4503599627370496 (-52)).
  pose proof (Prim2SF_valid x) as Hv.
  destruct (Prim2SF x) as [s|s| |s m e]; try done. 
  cbn [SFmul xorb]. by apply round_aux_one.
Qed.

Lemma mul_1_r (x : float) : x * 1 = x.
Proof.
  apply Prim2SF_inj. rewrite mul_spec. unfold SF64mul.
  change (Prim2SF 1) with (S754_finite false 4503599627370496 (-52)).
  pose proof (Prim2SF_valid x) as Hv.
  destruct (Prim2SF x) as [s|s| |s m e]; try (by destruct s); try done.
  cbn [SFmul]. rewrite Pos.mul_comm, Z.add_comm, xorb_false_r. by apply round_aux_one.
Qed.

(** Adding to 0 keeps every value but the negative zero. *)
Lemma add_0_l (x : float) : x ≠ neg_zero → 0 + x = x.
Proof.
  intros Hx. apply Prim2SF_inj. rewrite add_spec. unfold SF64add.
  change (Prim2SF 0) with (S754_zero false).
  destruct (Prim2SF x) as [[]|s| |s m e] eqn:Hsf; try done.
  exfalso. apply Hx. apply Prim2SF_inj. by rewrite Hsf.
Qed.

Lemma add_0_l_not_neg_zero (x : float) : 0 + x ≠ neg_zero.
Proof.
  intros Heq. apply (f_equal Prim2SF) in Heq. rewrite add_spec in Heq.
  unfold SF64add in Heq. change (Prim2SF 0) with (S754_zero false) in Heq.
  change (Prim2SF neg_zero) with (S754_zero true) in Heq.
  pose proof (Prim2SF_valid x) as Hv.
  destruct (Prim2SF x) as [[]|s| |s m e]; done.
Qed.

(** Adding a zero keeps every value but the negative zero. *)
Lemma add_zero_r (y z : float) : y ≠ neg_zero → z = 0 ∨ z = neg_zero → y + z = y.
Proof.
  intros Hy Hz. apply Prim2SF_inj. rewrite add_spec. unfold SF64add.
  assert (Prim2SF y ≠ S754_zero true) as Hy'.
  { intros Heq. apply Hy, Prim2SF_inj. by rewrite Heq. }
  destruct Hz as [-> | ->];
    [change (Prim2SF 0) with (S754_zero false)
    |change (Prim2SF neg_zero) with (S754_zero true)];
    destruct (Prim2SF y) as [[]|[]| |s m e]; done.
Qed.

End FloatFacts.

Section Comparisons.
Local Open Scope float_scope.

Lemma compare_cont_swap (m1 m2 : positive) :
  Pos.compare_cont Eq m2 m1 = CompOpp (Pos.compare_cont Eq m1 m2).
Proof. by rewrite Pos.compare_cont_antisym. Qed.

Lemma SFcompare_antisym (a b : spec_float) :
  SFcompare a b = Some Lt → SFcompare b a = Some Gt.
Proof.
  destruct a as [[]|[]| |[] m1 e1], b as [[]|[]| |[] m2 e2]; simpl; try done.
  all: rewrite (Z.compare_antisym e1 e2); destruct (e1 ?= e2)%Z; simpl; try done.
  all: rewrite (compare_cont_swap m1 m2).
  all: destruct (Pos.compare_cont Eq m1 m2); simpl; done.
Qed.

Lemma ltb_antisym (x y : float) : (x <? y) = true → (y <? x) = false.
Proof.
  rewrite !ltb_spec. unfold SFltb. intros H.
  destruct (SFcompare (Prim2SF x) (Prim2SF y)) as [[]|] eqn:Hc; try done.
  by rewrite (SFcompare_antisym _ _ Hc).
Qed.

Lemma ltb_irrefl (x : float) : (x <? x) = false.
Proof.
  destruct (x <? x) eqn:H; [|done]. pose proof (ltb_antisym _ _ H). congruence.
Qed.

(** NaN goes through the arithmetic and fails every comparison. *)
Lemma sub_nan_l (x : float) : nan - x = nan.
Proof.
  apply Prim2SF_inj. rewrite sub_spec. by change (Prim2SF nan) with S754_nan.
Qed.

Lemma sub_nan_r (x : float) : x - nan = nan.
Proof.
  apply Prim2SF_inj. rewrite sub_spec. change (Prim2SF nan) with S754_nan.
  by destruct (Prim2SF x).
Qed.

Lemma div_nan_l (x : float) : nan / x = nan.
Proof.
  apply Prim2SF_inj. rewrite div_spec. by change (Prim2SF nan) with S754_nan.
Qed.

Lemma div_nan_r (x : float) : x / nan = nan.
Proof.
  apply Prim2SF_inj. rewrite div_spec. change (Prim2SF nan) with S754_nan.
  by destruct (Prim2SF x).
Qed.

Lemma ltb_nan_l (x : float) : (nan <? x) = false.
Proof. rewrite ltb_spec. by change (Prim2SF nan) with S754_nan. Qed.

Lemma ltb_nan_r (x : float) : (x <? nan) = false.
Proof.
  rewrite ltb_spec. change (Prim2SF nan) with S754_nan. by destruct (Prim2SF x).
Qed.

Lemma leb_nan_l (x : float) : (nan <=? x) = false.
Proof. rewrite leb_spec. by change (Prim2SF nan) with S754_nan. Qed.

Lemma leb_nan_r (x : float) : (x <=? nan) = false.
Proof.
  rewrite leb_spec. change (Prim2SF nan) with S754_nan. by destruct (Prim2SF x).
Qed.

Lemma eqb_nan_l (x : float) : (nan =? x) = false.
Proof. rewrite FloatAxioms.eqb_spec. by change (Prim2SF nan) with S754_nan. Qed.

End Comparisons.

(** ** More of package matrix *)

Section MoreMatrix.
Local Open Scope float_scope.

Lemma ExtractColumn_Ok (m : Matrix) (j : nat) :
  Forall (λ row, j < length row)%nat m → matrix.ExtractColumn m j = Ok (col_of m j).
Proof.
  induction 1 as [|row m Hlen _ IH]; [done|]. simpl.
  destruct (lookup_lt_is_Some_2 row j) as [v Hv]; [lia|].
  by rewrite (index_Some _ _ _ Hv), bind_Ok, IH, bind_Ok, Hv.
Qed.

Lemma ExtractColumn_Panic (m : Matrix) (j : nat) :
  Exists (λ row, length row ≤ j)%nat m → matrix.ExtractColumn m j = Panic.
Proof.
  induction 1 as [row m Hlen|row m _ IH]; simpl.
  - unfold index. by rewrite lookup_ge_None_2.
  - unfold index at 1. destruct (row !! j); [|done]. simpl. by rewrite IH.
Qed.

(** X1. [ExtractColumn(matrix, j)] reads entry [j] of every row: where every row
    is longer than [j] it returns the column, as long as the matrix is high
    and with those entries (the rows need not be of one length, and the
    column of a matrix without rows is empty); where a row is too short it
    panics. *)
Theorem ExtractColumn_reads_every_row (m : Matrix) (j : nat) :
  (Forall (λ row, j < length row)%nat m →
   ∃ col, matrix.ExtractColumn m j = Ok col ∧ length col = length m ∧
          ∀ i row, m !! i = Some row → col !! i = row !! j) ∧
  (Exists (λ row, length row ≤ j)%nat m → matrix.ExtractColumn m j = Panic).
Proof.
  split; [|apply ExtractColumn_Panic].
  intros Hrows. exists (col_of m j). split; [by apply ExtractColumn_Ok|].
  split; [apply length_col_of|].
  intros i row Hrow. unfold col_of. rewrite list_lookup_fmap, Hrow. simpl.
  rewrite Forall_lookup in Hrows. specialize (Hrows _ _ Hrow). simpl in Hrows.
  by destruct (lookup_lt_is_Some_2 row j) as [v ->].
Qed.

Lemma ExtractColumn_reads_every_row_witness :
  (∃ col, matrix.ExtractColumn [[1; 2]; [3; 4; 5]] 1 = Ok col ∧ length col = 2%nat ∧
          ∀ i row, [[1; 2]; [3; 4; 5]] !! i = Some row → col !! i = row !! 1%nat) ∧
  matrix.ExtractColumn [[1; 2]; [3; 4; 5]] 2 = Panic.
Proof.
  destruct (ExtractColumn_reads_every_row [[1; 2]; [3; 4; 5]] 1) as [Hok _].
  destruct (ExtractColumn_reads_every_row [[1; 2]; [3; 4; 5]] 2) as [_ Hpanic].
  split.
  - apply Hok. repeat first [apply Forall_nil_2 | apply Forall_cons_2; [simpl; lia|]].
  - apply Hpanic. apply Exists_cons_hd. simpl. lia.
Defined.

Lemma dot_from_Panic (x y : list float) (i : nat) (output : float) :
  (i ≤ length y)%nat → (length y < i + length x)%nat →
  matrix.dot_from x i y output = Panic.
Proof.
  revert i output. induction x as [|xi x IH]; intros i output Hi Hlen; simpl in *; [lia|].
  unfold index. destruct (y !! i) as [yi|] eqn:Hyi; [|done]. simpl.
  apply lookup_lt_Some in Hyi. apply IH; lia.
Qed.

(** X2. [dot(x, y)] goes over the indices of [x]: what [y] holds beyond the
    length of [x] is not read, and a [y] shorter than [x] is an index out
    of range. *)
Theorem dot_ranges_over_first (x y : list float) :
  ((length x ≤ length y)%nat →
   matrix.dot x y = Ok (dot_product x (take (length x) y))) ∧
  ((length y < length x)%nat → matrix.dot x y = Panic).
Proof.
  split; intros Hlen.
  - rewrite dot_dot_product by done. unfold dot_product. f_equal.
    by rewrite zip_with_take_r.
  - apply dot_from_Panic; simpl; lia.
Qed.

Lemma dot_ranges_over_first_witness :
  matrix.dot [1; 2] [3; 4; 5] = Ok (dot_product [1; 2] (take 2 [3; 4; 5])) ∧
  matrix.dot [1; 2; 3] [4; 5] = Panic.
Proof.
  split.
  - apply (dot_ranges_over_first [1; 2] [3; 4; 5]). simpl. lia.
  - apply (dot_ranges_over_first [1; 2; 3] [4; 5]). simpl. lia.
Defined.

(** [MultiplyMatrices] where the rows of the first matrix are no longer than
    the second matrix is high. *)
Lemma product_of_short_rows (m1 m2 : Matrix) (k p : nat) :
  Forall (λ row, length row ≤ k)%nat m1 → is_matrix k p m2 → (0 < k)%nat →
  matrix.product_of m1 m2 = Ok (product_rows m1 m2 p).
Proof.
  intros Hrows1 Hm2 Hk. unfold matrix.product_of.
  pose proof Hm2 as [Hlen2 Hrows2].
  destruct (lookup_lt_is_Some_2 m2 0) as [r0 Hr0]; [lia|].
  rewrite (index_Some _ _ _ Hr0), bind_Ok.
  rewrite Forall_lookup in Hrows2. rewrite (Hrows2 _ _ Hr0).
  change (matrix.NewMatrix [length m1; p]) with (replicate (length m1) (replicate p 0)).
  unfold range. rewrite (product_rows_from m2 k p Hm2 m1).
  - done.
  - done.
  - by rewrite length_replicate.
  - apply Forall_replicate, length_replicate.
Qed.

Lemma col_of_take_rows (b : Matrix) (n j : nat) :
  col_of (take n b) j = take n (col_of b j).
Proof. unfold col_of. by rewrite fmap_take. Qed.

Lemma product_rows_take (a b : Matrix) (m n p : nat) :
  is_matrix m n a → product_rows a b p = product_rows a (take n b) p.
Proof.
  intros [_ Hrows]. unfold product_rows. apply Forall_fmap_ext_1.
  eapply Forall_impl; [exact Hrows|]. intros row Hlen. simpl in *.
  apply list_fmap_ext. intros _ j _. unfold product_cell, dot_product.
  rewrite col_of_take_rows. f_equal. rewrite <- Hlen. by rewrite zip_with_take_r.
Qed.

Lemma is_matrix_take_rows (b : Matrix) (k p n : nat) :
  is_matrix k p b → (n ≤ k)%nat → is_matrix n p (take n b).
Proof.
  intros [Hlen Hrows] Hn. split; [rewrite length_take; lia | by apply Forall_take].
Qed.

Lemma product_row_Panic (m2 : Matrix) (k p i : nat) (row : list float) (P : Matrix) :
  is_matrix k (S p) m2 → (k < length row)%nat →
  matrix.product_row m2 (S p) i row P = Panic.
Proof.
  intros Hm2 Hrow. unfold matrix.product_row. cbn [seq foldM].
  rewrite (ExtractColumn_col_of m2 k (S p)), bind_Ok by (done || lia).
  unfold matrix.dot. rewrite dot_from_Panic; [done|lia|].
  rewrite length_col_of. destruct Hm2 as [-> _]. simpl. lia.
Qed.

Lemma product_of_Panic (m1 m2 : Matrix) (m n k p : nat) :
  is_matrix m n m1 → is_matrix k p m2 →
  (0 < k < n)%nat → (0 < m)%nat → (0 < p)%nat →
  matrix.product_of m1 m2 = Panic.
Proof.
  intros [Hm Hrows1] Hm2 Hk Hm0 Hp. unfold matrix.product_of.
  pose proof Hm2 as [Hlen2 Hrows2].
  destruct (lookup_lt_is_Some_2 m2 0) as [r0 Hr0]; [lia|].
  rewrite (index_Some _ _ _ Hr0), bind_Ok.
  rewrite Forall_lookup in Hrows2. rewrite (Hrows2 _ _ Hr0).
  destruct m1 as [|row m1]; [simpl in *; lia|].
  apply Forall_cons in Hrows1 as [Hrow _].
  unfold range. cbn [length seq zip zip_with foldM].
  destruct p as [|p]; [lia|].
  by rewrite (product_row_Panic m2 k p) by (done || lia).
Qed.

(** X3. [MultiplyMatrices] does not compare the inner dimensions. For an m×n
    matrix [a] and a k×p matrix [b] with k ≥ 1: where [b] is higher than
    [a] is wide, its rows beyond the n-th are left out of the product;
    where it is lower, and the product has an entry at all, the call
    panics. *)
Theorem MultiplyMatrices_inner_dimensions (σ : gmap string Matrix) (pa pb : string)
    (a b : Matrix) (m n k p : nat) :
  σ !! pa = Some a → σ !! pb = Some b →
  is_matrix m n a → is_matrix k p b → (0 < k)%nat →
  ((n ≤ k)%nat →
   ∃ c, matrix.MultiplyMatrices pa pb σ = Ok (<[pb := c]> σ) ∧
        is_product a (take n b) c) ∧
  ((k < n)%nat → (0 < m)%nat → (0 < p)%nat →
   matrix.MultiplyMatrices pa pb σ = Panic).
Proof.
  intros Hpa Hpb Ha Hb Hk. unfold matrix.MultiplyMatrices, matrix.deref.
  rewrite Hpa, Hpb. simpl. split.
  - intros Hn. exists (product_rows a b p). split.
    + rewrite (product_of_short_rows a b k p); [done| |done..].
      destruct Ha as [_ Hrows]. eapply Forall_impl; [exact Hrows|]. simpl. lia.
    + rewrite (product_rows_take a b m n p Ha).
      eapply product_rows_is_product; [done|]. by eapply is_matrix_take_rows.
  - intros Hn Hm Hp. by rewrite (product_of_Panic a b m n k p).
Qed.

Lemma MultiplyMatrices_inner_dimensions_witness :
  (∃ c, matrix.MultiplyMatrices "a" "b" (<["a" := [[1; 2]]]> (<["b" := [[3]; [4]; [5]]]> ∅))
          = Ok (<["b" := c]> (<["a" := [[1; 2]]]> (<["b" := [[3]; [4]; [5]]]> ∅))) ∧
        is_product [[1; 2]] (take 2 [[3]; [4]; [5]]) c) ∧
  matrix.MultiplyMatrices "a" "b" (<["a" := [[1; 2; 3]]]> (<["b" := [[4]; [5]]]> ∅)) = Panic.
Proof.
  split.
  - apply (MultiplyMatrices_inner_dimensions _ "a" "b" [[1; 2]] [[3]; [4]; [5]] 1 2 3 1);
      [reflexivity | reflexivity | | | lia | lia];
      (split; [reflexivity | by repeat constructor]).
  - apply (MultiplyMatrices_inner_dimensions _ "a" "b" [[1; 2; 3]] [[4]; [5]] 1 3 2 1);
      [reflexivity | reflexivity | | | lia | lia | lia | lia];
      (split; [reflexivity | by repeat constructor]).
Defined.

(** X4. [MakeIdentity] looks at the shape of its matrix alone: every entry
    there is becomes 1 on the diagonal and 0 off it, no entry is added (a
    matrix without rows stays so), matrices of one shape give one result,
    and a second call changes nothing. *)
Theorem MakeIdentity_depends_on_shape (m : Matrix) :
  (∀ i j, entry (matrix.MakeIdentity m) i j
          = (λ _, if (i =? j)%nat then 1 else 0) <$> entry m i j) ∧
  (∀ m', length <$> m' = length <$> m → matrix.MakeIdentity m' = matrix.MakeIdentity m) ∧
  matrix.MakeIdentity (matrix.MakeIdentity m) = matrix.MakeIdentity m.
Proof.
  assert (∀ m1 m2 : Matrix, length <$> m1 = length <$> m2 →
            matrix.MakeIdentity m1 = matrix.MakeIdentity m2) as Hshape.
  { intros m1 m2 Hlen. unfold matrix.MakeIdentity.
    apply list_eq. intros i. rewrite !list_lookup_imap.
    apply (f_equal (λ l, l !! i)) in Hlen. rewrite !list_lookup_fmap in Hlen.
    destruct (m1 !! i) as [r1|], (m2 !! i) as [r2|]; simpl in *; try done.
    injection Hlen as Hlen. f_equal. by rewrite !imap_seq_0, Hlen. }
  split; [|split].
  - intros i j. unfold entry, matrix.MakeIdentity. rewrite list_lookup_imap.
    destruct (m !! i) as [row|]; simpl; [|done].
    rewrite list_lookup_imap. by destruct (row !! j).
  - intros m'. apply Hshape.
  - apply Hshape. unfold matrix.MakeIdentity. apply list_eq. intros i.
    rewrite !list_lookup_fmap, list_lookup_imap.
    destruct (m !! i) as [row|]; simpl; [|done]. by rewrite length_imap.
Qed.

Lemma MakeIdentity_depends_on_shape_witness :
  matrix.MakeIdentity [[7; 8]; [9]] = matrix.MakeIdentity [[0; 0]; [0]].
Proof.
  destruct (MakeIdentity_depends_on_shape [[0; 0]; [0]]) as (_ & Hshape & _).
  by apply Hshape.
Defined.

End MoreMatrix.

(** ** Transforms applied to the edge matrix *)

Section ZeroTerms.
Local Open Scope float_scope.

Lemma zero_ne_neg_zero : (0 : float) ≠ neg_zero.
Proof. intros H. float_absurd H. Qed.

Lemma zero_start (x : float) : finite x = true → 0 + 0 * x = 0.
Proof. intros Hx. by destruct (zero_mul_finite x Hx) as [-> | ->]. Qed.

Lemma zero_step (u y : float) : u ≠ neg_zero → finite y = true → u + 0 * y = u.
Proof. intros Hu Hy. apply add_zero_r; [done|]. by apply zero_mul_finite. Qed.

End ZeroTerms.

(** Drops the products with 0 and with 1 from a dot product. *)
Ltac zero_terms :=
  rewrite ?mul_1_l, ?mul_1_r; rewrite ?zero_start by done;
  repeat match goal with
         | |- context [(0 + ?x + 0 * ?y)%float] =>
             rewrite (zero_step (0 + x)%float y) by (done || apply add_0_l_not_neg_zero)
         | |- context [(0 + ?x + 0)%float] =>
             rewrite (add_zero_r (0 + x)%float 0%float) by (apply add_0_l_not_neg_zero || by left)
         end.

Section Transforms.
Local Open Scope float_scope.

(** The product of a four-row matrix with a 4×N matrix, row by row, where
    row [i] of the product depends on row [i] of the second matrix alone. *)
Lemma product_rows_pointwise (t0 t1 t2 t3 e0 e1 e2 e3 : list float) (N : nat)
    (f0 f1 f2 f3 : float → float) :
  is_matrix 4 N [e0; e1; e2; e3] →
  (∀ j x y z w,
     e0 !! j = Some x → e1 !! j = Some y → e2 !! j = Some z → e3 !! j = Some w →
     dot_product t0 [x; y; z; w] = f0 x ∧ dot_product t1 [x; y; z; w] = f1 y ∧
     dot_product t2 [x; y; z; w] = f2 z ∧ dot_product t3 [x; y; z; w] = f3 w) →
  product_rows [t0; t1; t2; t3] [e0; e1; e2; e3] N
  = [f0 <$> e0; f1 <$> e1; f2 <$> e2; f3 <$> e3].
Proof.
  intros [_ Hrows] Hcols.
  apply Forall_cons in Hrows as [H0 Hrows]. apply Forall_cons in Hrows as [H1 Hrows].
  apply Forall_cons in Hrows as [H2 Hrows]. apply Forall_cons in Hrows as [H3 _].
  assert (∀ (t : list float) (f : float → float) (e : list float),
            length e = N →
            (∀ j x y z w v,
               e0 !! j = Some x → e1 !! j = Some y → e2 !! j = Some z → e3 !! j = Some w →
               e !! j = Some v → dot_product t [x; y; z; w] = f v) →
            product_cell [e0; e1; e2; e3] t <$> seq 0 N = f <$> e) as Hrow.
  { intros t f e He Hf. apply list_eq. intros j. rewrite !list_lookup_fmap.
    destruct (decide (j < N)%nat) as [Hj|Hj].
    - rewrite lookup_seq_lt by done.
      destruct (lookup_lt_is_Some_2 e0 j) as [x Hx]; [lia|].
      destruct (lookup_lt_is_Some_2 e1 j) as [y Hy]; [lia|].
      destruct (lookup_lt_is_Some_2 e2 j) as [z Hz]; [lia|].
      destruct (lookup_lt_is_Some_2 e3 j) as [w Hw]; [lia|].
      destruct (lookup_lt_is_Some_2 e j) as [v Hv]; [lia|].
      rewrite Hv. simpl. f_equal. unfold product_cell, col_of. simpl.
      rewrite Hx, Hy, Hz, Hw. simpl. by eapply Hf.
    - rewrite lookup_seq_ge by lia. by rewrite lookup_ge_None_2 by lia. }
  unfold product_rows. cbn [fmap list_fmap].
  rewrite (Hrow t0 f0 e0), (Hrow t1 f1 e1), (Hrow t2 f2 e2), (Hrow t3 f3 e3); try done.
  all: intros j x y z w v Hx Hy Hz Hw Hv;
    destruct (Hcols j x y z w Hx Hy Hz Hw) as (? & ? & ? & ?); congruence.
Qed.


Lemma all_finite_columns (e0 e1 e2 e3 : list float) (j : nat) (x y z w : float) :
  all_finite [e0; e1; e2; e3] →
  e0 !! j = Some x → e1 !! j = Some y → e2 !! j = Some z → e3 !! j = Some w →
  finite x = true ∧ finite y = true ∧ finite z = true ∧ finite w = true.
Proof.
  intros Hfin Hx Hy Hz Hw. unfold all_finite in Hfin.
  apply Forall_cons in Hfin as [H0 Hfin]. apply Forall_cons in Hfin as [H1 Hfin].
  apply Forall_cons in Hfin as [H2 Hfin]. apply Forall_cons in Hfin as [H3 _].
  rewrite Forall_lookup in H0, H1, H2, H3. naive_solver.
Qed.

Lemma homogeneous_columns (e0 e1 e2 e3 : list float) (j : nat) (x y z w : float) :
  homogeneous [e0; e1; e2; e3] → finite_coords [e0; e1; e2; e3] →
  e0 !! j = Some x → e1 !! j = Some y → e2 !! j = Some z → e3 !! j = Some w →
  finite x = true ∧ finite y = true ∧ finite z = true ∧ w = 1.
Proof.
  intros (r & Hr & Hones) Hfin Hx Hy Hz Hw. injection Hr as <-.
  pose proof (Hfin 0%nat e0 ltac:(lia) eq_refl) as H0.
  pose proof (Hfin 1%nat e1 ltac:(lia) eq_refl) as H1.
  pose proof (Hfin 2%nat e2 ltac:(lia) eq_refl) as H2.
  rewrite Forall_lookup in H0, H1, H2, Hones. naive_solver.
Qed.

Lemma is_matrix_4_inv (E : Matrix) (N : nat) :
  is_matrix 4 N E → ∃ e0 e1 e2 e3, E = [e0; e1; e2; e3].
Proof.
  intros [Hlen _]. destruct E as [|e0 [|e1 [|e2 [|e3 [|]]]]]; try done. eauto.
Qed.

(** X5. [ident] and then [apply]: the identity leaves every number of the edge
    matrix as it is, but for the sign of a negative zero. *)
Theorem identity_is_neutral (σ : gmap string Matrix) (T E : Matrix) (N : nat) :
  σ !! parser.transform = Some (matrix.MakeIdentity T) → is_matrix 4 4 T →
  σ !! parser.edges = Some E → is_matrix 4 N E → all_finite E →
  parser.apply σ = Ok (<[parser.edges := fmap (λ v, 0 + v) <$> E]> σ) ∧
  (∀ v : float, v ≠ neg_zero → 0 + v = v) ∧ 0 + neg_zero = 0.
Proof.
  intros HT HmT HE HmE Hfin. split; [|split; [apply add_0_l | reflexivity]].
  assert (matrix.MakeIdentity T = [[1; 0; 0; 0]; [0; 1; 0; 0]; [0; 0; 1; 0]; [0; 0; 0; 1]])
    as HI.
  { destruct HmT as [Hlen Hrows].
    destruct T as [|r0 [|r1 [|r2 [|r3 [|]]]]]; try done.
    apply Forall_cons in Hrows as [H0 Hrows]. apply Forall_cons in Hrows as [H1 Hrows].
    apply Forall_cons in Hrows as [H2 Hrows]. apply Forall_cons in Hrows as [H3 _].
    destruct r0 as [|? [|? [|? [|? [|]]]]]; try done.
    destruct r1 as [|? [|? [|? [|? [|]]]]]; try done.
    destruct r2 as [|? [|? [|? [|? [|]]]]]; try done.
    destruct r3 as [|? [|? [|? [|? [|]]]]]; done. }
  rewrite HI in HT. unfold parser.apply.
  rewrite (MultiplyMatrices_Ok σ _ _ _ E 4 4 N HT HE) by (done || lia || by apply is_matrix_4_4).
  do 2 f_equal.
  destruct (is_matrix_4_inv E N HmE) as (e0 & e1 & e2 & e3 & ->).
  apply product_rows_pointwise; [done|].
  intros j x y z w Hx Hy Hz Hw.
  destruct (all_finite_columns _ _ _ _ _ _ _ _ _ Hfin Hx Hy Hz Hw) as (Fx & Fy & Fz & Fw).
  unfold dot_product. cbn [zip zip_with foldl fst snd].
  by zero_terms.
Qed.


Lemma identity_is_neutral_witness :
  parser.apply (store_of (matrix.MakeIdentity translate_123) edges_ex)
  = Ok (<[parser.edges := fmap (λ v, 0 + v) <$> edges_ex]>
          (store_of (matrix.MakeIdentity translate_123) edges_ex)).
Proof.
  apply (identity_is_neutral _ translate_123 edges_ex 3).
  - reflexivity.
  - by apply is_matrix_4_4.
  - reflexivity.
  - split; [reflexivity | by repeat constructor].
  - by repeat constructor.
Defined.

(** X6. [move] and then [apply]: the translation by (tx, ty, tz) adds tx, ty and
    tz to the coordinates of every column and keeps the fourth component. *)
Theorem translation_moves_points (σ : gmap string Matrix) (tx ty tz : float)
    (rest e0 e1 e2 e3 : list float) (T : Matrix) (N : nat) :
  matrix.MakeTranslationMatrix (tx :: ty :: tz :: rest) = Ok T →
  σ !! parser.transform = Some T → σ !! parser.edges = Some [e0; e1; e2; e3] →
  is_matrix 4 N [e0; e1; e2; e3] → homogeneous [e0; e1; e2; e3] →
  finite_coords [e0; e1; e2; e3] →
  parser.apply σ =
    Ok (<[parser.edges := [(λ x, 0 + x + tx) <$> e0; (λ y, 0 + y + ty) <$> e1;
                           (λ z, 0 + z + tz) <$> e2; e3]]> σ).
Proof.
  intros HT Hσ HE HmE Hw Hfin. injection HT as <-. unfold parser.apply.
  rewrite (MultiplyMatrices_Ok σ _ _ _ _ 4 4 N Hσ HE) by (done || lia || by apply is_matrix_4_4).
  do 2 f_equal. rewrite <- (list_fmap_id e3) at 2.
  apply product_rows_pointwise; [done|].
  intros j x y z w Hx Hy Hz Hw'.
  destruct (homogeneous_columns _ _ _ _ _ _ _ _ _ Hw Hfin Hx Hy Hz Hw') as (Fx & Fy & Fz & ->).
  unfold dot_product. cbn [zip zip_with foldl fst snd]. by zero_terms.
Qed.

Lemma translation_moves_points_witness :
  parser.apply store_hom =
    Ok (<[parser.edges := [[1; 5; 8]; [2; 2; 9]; [3; 3; 3]; [1; 1; 1]]]> store_hom).
Proof.
  apply (translation_moves_points store_hom 1 2 3 [] [0; 4; 7] [0; 0; 7] [0; 0; 0] [1; 1; 1]
           translate_123 3).
  - reflexivity.
  - reflexivity.
  - reflexivity.
  - split; [reflexivity | by repeat constructor].
  - eexists. split; [reflexivity | by repeat constructor].
  - intros i row Hi Hrow.
    destruct i as [|[|[|i]]]; try lia; injection Hrow as <-; by repeat constructor.
Defined.

(** X7. [scale] and then [apply]: the dilation by (sx, sy, sz) multiplies the
    coordinates of every column by sx, sy and sz and keeps the fourth
    component. *)
Theorem dilation_scales_points (σ : gmap string Matrix) (sx sy sz : float)
    (rest e0 e1 e2 e3 : list float) (T : Matrix) (N : nat) :
  matrix.MakeDilationMatrix (sx :: sy :: sz :: rest) = Ok T →
  σ !! parser.transform = Some T → σ !! parser.edges = Some [e0; e1; e2; e3] →
  is_matrix 4 N [e0; e1; e2; e3] → homogeneous [e0; e1; e2; e3] →
  finite_coords [e0; e1; e2; e3] →
  parser.apply σ =
    Ok (<[parser.edges := [(λ x, 0 + sx * x) <$> e0; (λ y, 0 + sy * y) <$> e1;
                           (λ z, 0 + sz * z) <$> e2; e3]]> σ).
Proof.
  intros HT Hσ HE HmE Hw Hfin. injection HT as <-. unfold parser.apply.
  rewrite (MultiplyMatrices_Ok σ _ _ _ _ 4 4 N Hσ HE) by (done || lia || by apply is_matrix_4_4).
  do 2 f_equal. rewrite <- (list_fmap_id e3) at 2.
  apply product_rows_pointwise; [done|].
  intros j x y z w Hx Hy Hz Hw'.
  destruct (homogeneous_columns _ _ _ _ _ _ _ _ _ Hw Hfin Hx Hy Hz Hw') as (Fx & Fy & Fz & ->).
  unfold dot_product. cbn [zip zip_with foldl fst snd]. by zero_terms.
Qed.

Lemma dilation_scales_points_witness :
  parser.apply (store_of dilate_2 edges_ex) =
    Ok (<[parser.edges := [[0; 8; 14]; [0; 0; 14]; [0; 0; 0]; [1; 1; 1]]]>
          (store_of dilate_2 edges_ex)).
Proof.
  apply (dilation_scales_points _ 2 2 2 [] [0; 4; 7] [0; 0; 7] [0; 0; 0] [1; 1; 1]
           dilate_2 3).
  - reflexivity.
  - reflexivity.
  - reflexivity.
  - split; [reflexivity | by repeat constructor].
  - eexists. split; [reflexivity | by repeat constructor].
  - intros i row Hi Hrow.
    destruct i as [|[|[|i]]]; try lia; injection Hrow as <-; by repeat constructor.
Defined.

End Transforms.

(** ** Negative coordinates *)

Section Truncation.
Local Open Scope float_scope.

(** A float strictly between -1 and 0: its mantissa is below [2^-e]. *)
Lemma small_negative (f : float) :
  (-1 <? f) = true → (f <? 0) = true →
  ∃ m e, Prim2SF f = S754_finite true m e ∧ (e < 0)%Z ∧ (Z.pos m < 2 ^ (- e))%Z.
Proof.
  rewrite !ltb_spec. unfold SFltb.
  change (Prim2SF (-1)) with (S754_finite true 4503599627370496 (-52)).
  change (Prim2SF 0) with (S754_zero false).
  pose proof (Prim2SF_valid f) as Hv.
  destruct (Prim2SF f) as [[]|[]| |[] m e]; try done. simpl in Hv.
  apply bounded_inv in Hv as [Hcanon _]. rewrite fexp_64 in Hcanon.
  pose proof (digits2_pos_bounds m) as [Hlo Hhi].
  set (d := Z.pos (digits2_pos m)) in *.
  intros Hlt _. exists m, e. split; [done|].
  assert (e < -52)%Z as He.
  { revert Hlt. cbn -[Z.compare Pos.compare_cont].
    destruct (Z.compare_spec (-52) e) as [<-|?|?]; try done.
    assert (d = 53)%Z as Hd by lia. rewrite Hd in Hlo.
    (* the mantissa of a float with exponent -52 is at least 2^52 *)
    by destruct (Pos.compare_cont Eq 4503599627370496 m) eqn:Hc. }
  split; [lia|].
  assert (d ≤ 53)%Z by lia.
  eapply Z.lt_le_trans; [exact Hhi|]. apply Z.pow_le_mono_r; lia.
Qed.

Lemma int_of_small_negative (f : float) :
  (-1 <? f) = true → (f <? 0) = true → int_of_float64 f = 0%Z.
Proof.
  intros H1 H0. destruct (small_negative f H1 H0) as (m & e & Hf & He & Hm).
  unfold int_of_float64. rewrite Hf.
  replace (0 <=? e)%Z with false by (symmetry; apply Z.leb_gt; lia).
  rewrite Z.shiftr_div_pow2 by lia. rewrite Z.div_small by lia. done.
Qed.

Lemma float64ToInt_small_negative (f : float) :
  (-1 <? f) = true → (f <? 0) = true → draw.float64ToInt f = 0%Z.
Proof.
  intros H1 H0. unfold draw.float64ToInt. rewrite (int_of_small_negative f H1 H0).
  change (float64_of_int 0) with 0.
  destruct (small_negative f H1 H0) as (m & e & Hf & _).
  assert (f - 0 = f) as ->.
  { apply Prim2SF_inj. rewrite sub_spec, Hf. done. }
  replace (f <? 0.5) with true; [done|].
  rewrite ltb_spec, Hf. done.
Qed.

(** X8. [float64ToInt] cuts a negative fraction off towards zero: every float
    strictly between -1 and 0 goes to 0, so [plot] puts a point that lies
    less than one cell left of the screen, or below it, into column 0, or
    into the bottom row. *)
Theorem plot_truncates_small_negatives (f : float) :
  (-1 <? f) = true → (f <? 0) = true →
  draw.float64ToInt f = 0%Z ∧
  ∀ c s v, draw.plot c s f v = draw.plot c s 0 v ∧ draw.plot c s v f = draw.plot c s v 0.
Proof.
  intros H1 H0. pose proof (float64ToInt_small_negative f H1 H0) as Hf.
  split; [done|]. intros c s v. unfold draw.plot. rewrite Hf. done.
Qed.

Lemma plot_truncates_small_negatives_witness :
  draw.float64ToInt (-0.75) = 0%Z.
Proof. apply (plot_truncates_small_negatives (-0.75)); reflexivity. Defined.

End Truncation.

(** ** What [DrawLine] paints *)

Section Painting.
Context (c : list Z) (I : Screen → Prop).
Context (Hplot : ∀ s x y, I s → safe I (draw.plot c s x y)).

Lemma kept_plot_then (p : draw.pen) (k : Screen → res draw.pen) :
  I (draw.scr p) →
  (∀ s, I s → safe (λ p, I (draw.scr p)) (k s)) →
  safe (λ p, I (draw.scr p))
    (draw.plot c (draw.scr p) (draw.pen_x p) (draw.pen_y p) ≫= k).
Proof. intros Hp Hk. eapply safe_bind; [by apply Hplot | done]. Qed.

Ltac kept_loop :=
  apply safe_while; [|done];
  let p := fresh "p" in let Hp := fresh "Hp" in
  intros p Hp; apply kept_plot_then; [done|];
  let s := fresh "s" in let Hs := fresh "Hs" in
  intros s Hs; try (destruct (_ <? _)%float); by apply safe_Ok.

(** What [plot] keeps, [DrawLine] keeps. *)
Lemma DrawLine_keeps (fuel : nat) (s : Screen) (x0 y0 x1 y1 : float) :
  I s → safe I (draw.DrawLine fuel c s x0 y0 x1 y1).
Proof.
  intros Hs. unfold draw.DrawLine.
  destruct (x1 <? x0)%float; cbv beta iota zeta.
  all: destruct (_ =? 0)%float.
  all: try (destruct (_ <? _)%float; cbv beta iota zeta;
            (eapply (safe_bind (λ p, I (draw.scr p)));
              [kept_loop | intros ? ?; by apply safe_Ok])).
  all: repeat (eapply (safe_bind (λ p, I (draw.scr p)));
                [|intros ? ?]); try (by apply safe_Ok).
  all: match goal with |- safe _ (if ?b then _ else _) => destruct b end;
       try (by apply safe_Ok); kept_loop.
Qed.

End Painting.

Section Repainted.
Local Open Scope Z_scope.

Lemma repainted_refl (c : list Z) (s : Screen) : screen_ok s → repainted c s s.
Proof. intros Hs. split; [done|]. intros i j. by left. Qed.

Lemma repainted_plot (c : list Z) (s0 s : Screen) (x y : float) :
  repainted c s0 s → safe (repainted c s0) (draw.plot c s x y).
Proof.
  intros [Hs Hcells].
  destruct (decide (0 ≤ draw.float64ToInt x < display.XRES ∧
                    0 ≤ display.YRES - 1 - draw.float64ToInt y < display.YRES))
    as [[Hx Hy]|Hout].
  - rewrite plot_inside by done. apply safe_Ok.
    split; [by apply set_pixel_ok|]. intros i j.
    rewrite cell_set_pixel by (done || unfold display.YRES, display.XRES in *; lia).
    case_decide; [by right | apply Hcells].
  - rewrite plot_outside by done. by apply safe_Ok.
Qed.

(** X9. [DrawLine] on a well-formed screen, whatever the four numbers are: it
    does not panic, and when it returns the screen has the same size and
    every cell holds what it held or the draw colour. *)
Theorem DrawLine_paints_with_the_colour (fuel : nat) (c : list Z) (s : Screen)
    (x0 y0 x1 y1 : float) :
  screen_ok s →
  draw.DrawLine fuel c s x0 y0 x1 y1 ≠ Panic ∧
  ∀ s', draw.DrawLine fuel c s x0 y0 x1 y1 = Ok s' → repainted c s s'.
Proof.
  intros Hs.
  apply (DrawLine_keeps c (repainted c s)); [|by apply repainted_refl].
  intros s1 x y. apply repainted_plot.
Qed.

Lemma DrawLine_paints_with_the_colour_witness :
  draw.DrawLine 7 [255; 255; 255] display.NewScreen (-3) 2 3 (-1) ≠ Panic.
Proof.
  apply (DrawLine_paints_with_the_colour 7 [255; 255; 255] display.NewScreen (-3) 2 3 (-1)).
  apply NewScreen_ok.
Defined.

End Repainted.

(** ** The end points of a line *)

Section Endpoints.
Local Open Scope float_scope.

(** A float minus itself is 0, or NaN where the float is not a number. *)
Lemma sub_diag_cases (x : float) : x - x = 0 ∨ x - x = nan.
Proof.
  assert (Prim2SF (x - x) = S754_zero false ∨ Prim2SF (x - x) = S754_nan) as [H|H].
  { rewrite sub_spec. unfold SF64sub.
    destruct (Prim2SF x) as [[]|[]| |s m e]; simpl; auto.
    rewrite Z.sub_diag. by left. }
  - left. by apply Prim2SF_inj.
  - right. by apply Prim2SF_inj.
Qed.

(** X10. [DrawLine] with the end points given in the other order: the line is the
    same, where the first point is to the left of the second, or right below
    it. *)
Theorem DrawLine_endpoint_order (fuel : nat) (c : list Z) (s : Screen)
    (x0 y0 x1 y1 : float) :
  (x0 <? x1) = true ∨ (x0 = x1 ∧ (y0 <? y1) = true) →
  draw.DrawLine fuel c s x1 y1 x0 y0 = draw.DrawLine fuel c s x0 y0 x1 y1.
Proof.
  intros [Hx | [<- Hy]]; unfold draw.DrawLine.
  - by rewrite Hx, (ltb_antisym _ _ Hx).
  - rewrite ltb_irrefl. cbv beta iota zeta.
    destruct (sub_diag_cases x0) as [-> | ->].
    + change (0 =? 0) with true. cbv beta iota zeta.
      by rewrite Hy, (ltb_antisym _ _ Hy).
    + change (nan =? 0) with false. cbv beta iota zeta.
      change (- nan) with nan. by rewrite !div_nan_r.
Qed.

Lemma DrawLine_endpoint_order_witness :
  draw.DrawLine 9 [0; 0; 0]%Z display.NewScreen 4 3 0 0
  = draw.DrawLine 9 [0; 0; 0]%Z display.NewScreen 0 0 4 3.
Proof.
  apply (DrawLine_endpoint_order 9 [0; 0; 0]%Z display.NewScreen 0 0 4 3).
  left. reflexivity.
Defined.

(** X11. A line with a NaN among its four numbers paints nothing. *)
Theorem DrawLine_nan_paints_nothing (fuel : nat) (c : list Z) (s : Screen)
    (x0 y0 x1 y1 : float) :
  x0 = nan ∨ y0 = nan ∨ x1 = nan ∨ y1 = nan →
  draw.DrawLine (S fuel) c s x0 y0 x1 y1 = Ok s.
Proof.
  intros Hnan. unfold draw.DrawLine.
  destruct Hnan as [-> | [-> | [-> | ->]]].
  all: rewrite ?ltb_nan_l, ?ltb_nan_r; try destruct (_ <? _); cbv beta iota zeta.
  all: rewrite ?sub_nan_l, ?sub_nan_r.
  all: try change (nan =? 0) with false; cbv beta iota zeta.
  all: try change (- nan) with nan; rewrite ?div_nan_l, ?div_nan_r.
  all: try done.
  all: destruct (_ =? 0); cbv beta iota zeta; rewrite ?div_nan_l; try done.
  all: rewrite ?ltb_nan_l, ?ltb_nan_r; cbv beta iota zeta.
  all: rewrite while_unfold; cbn [draw.pen_y].
  all: by rewrite ?leb_nan_l, ?leb_nan_r.
Qed.

Lemma DrawLine_nan_paints_nothing_witness :
  draw.DrawLine 1 [255; 255; 0]%Z display.NewScreen 0 nan 0 5 = Ok display.NewScreen.
Proof.
  apply (DrawLine_nan_paints_nothing 0 [255; 255; 0]%Z display.NewScreen 0 nan 0 5).
  right. left. reflexivity.
Defined.

(** X12. Where [y + 1] is [y] again, the loop of a vertical line makes no step:
    no number of turns brings it to its end. *)
Theorem DrawLine_makes_no_progress (c : list Z) (s : Screen) (x y : float) :
  screen_ok s → (x - x =? 0) = true → (y <=? y) = true → y + 1 = y →
  ∀ fuel, draw.DrawLine fuel c s x y x y = OutOfFuel.
Proof.
  intros Hs Hx Hy Hstuck fuel. unfold draw.DrawLine.
  rewrite ltb_irrefl. cbv beta iota zeta. rewrite Hx, ltb_irrefl. cbv beta iota zeta.
  assert (∀ s, screen_ok s →
            while fuel (λ p, draw.pen_y p <=? y)
              (λ p, s ← draw.plot c (draw.scr p) (draw.pen_x p) (draw.pen_y p);
                    Ok (draw.Pen s (draw.pen_x p) (draw.pen_y p + 1) (draw.pen_d p)))
              (draw.Pen s x y 0) = OutOfFuel) as Hloop.
  { clear s Hs. induction fuel as [|fuel IH]; intros s Hs; [done|].
    rewrite while_unfold. cbn [draw.pen_y draw.pen_x draw.scr draw.pen_d]. rewrite Hy.
    destruct (plot_total c s x y Hs) as (s' & -> & Hs'). rewrite !bind_Ok, Hstuck.
    by apply IH. }
  by rewrite Hloop.
Qed.

Lemma DrawLine_makes_no_progress_witness :
  draw.DrawLine 1000 [0; 0; 0]%Z display.NewScreen 0 9007199254740992 0 9007199254740992
  = OutOfFuel.
Proof.
  apply (DrawLine_makes_no_progress [0; 0; 0]%Z display.NewScreen 0 9007199254740992);
    [apply NewScreen_ok | reflexivity..].
Defined.

End Endpoints.

(** ** [DrawLines] on any number of columns *)

Section Pairs.

Lemma repainted_trans (c : list Z) (s1 s2 s3 : Screen) :
  repainted c s1 s2 → repainted c s2 s3 → repainted c s1 s3.
Proof.
  intros [_ H12] [Hs3 H23]. split; [done|]. intros i j.
  destruct (H23 i j) as [-> | ->]; [apply H12 | by right].
Qed.

Lemma repainted_line_from (fuel : nat) (c : list Z) (edges : Matrix) (s0 s : Screen)
    (i : nat) :
  repainted c s0 s → safe (repainted c s0) (line_from fuel c edges s i).
Proof.
  intros Hs. apply (DrawLine_keeps c (repainted c s0)); [|done].
  intros s1 x y. apply repainted_plot.
Qed.

(** X13. [DrawLines] on an edge matrix of four rows and any number [N] of columns:
    it does not panic, it paints with the draw colour alone, with fuel for
    its turns it draws the lines from column 2k to column 2k+1 for the
    [N / 2] pairs of columns in turn, and with fewer than two columns it
    returns the screen as it was. *)
Theorem DrawLines_draws_pairs (fuel : nat) (c : list Z) (edges : Matrix) (N : nat)
    (s : Screen) :
  is_matrix 4 N edges → screen_ok s →
  draw.DrawLines fuel c edges s ≠ Panic ∧
  (∀ s', draw.DrawLines fuel c edges s = Ok s' → repainted c s s') ∧
  ((N / 2 < fuel)%nat →
   draw.DrawLines fuel c edges s =
     foldM (λ s k, line_from fuel c edges s (2 * k)) (seq 0 (N / 2)) s) ∧
  ((N ≤ 1)%nat → (0 < fuel)%nat → draw.DrawLines fuel c edges s = Ok s).
Proof.
  intros Hedges Hs.
  assert ((N / 2 < fuel)%nat →
          draw.DrawLines fuel c edges s =
            foldM (λ s k, line_from fuel c edges s (2 * k)) (seq 0 (N / 2)) s) as Hrun.
  { intros Hfuel. rewrite (DrawLines_unfold fuel c edges N) by done.
    change (0%nat, s) with ((2 * 0)%nat, s).
    rewrite (DrawLines_loop fuel c edges N (N / 2) Hedges) with (d := (N / 2)%nat);
      [by destruct (foldM _ _ _) | | lia | lia].
    pose proof (Nat.div_mod_eq N 2). pose proof (Nat.mod_upper_bound N 2). lia. }
  assert (safe (repainted c s) (draw.DrawLines fuel c edges s)) as [Hnp Hok].
  { rewrite (DrawLines_unfold fuel c edges N) by done.
    eapply (safe_bind (λ st : nat * Screen, repainted c s st.2));
      [|intros st Hst; by apply safe_Ok].
    apply while_invariant; [|by apply repainted_refl].
    intros [i s1] Hs1 Hcond. apply bool_decide_eq_true in Hcond. cbn [fst snd] in *.
    rewrite (DrawLines_turn_line fuel c edges N) by (done || lia).
    eapply safe_bind; [by apply repainted_line_from|].
    intros s2 Hs2. by apply safe_Ok. }
  split; [done|]. split; [done|]. split; [done|].
  intros HN Hfuel. rewrite Hrun.
  - by replace (N / 2)%nat with 0%nat by (symmetry; apply Nat.div_small; lia).
  - replace (N / 2)%nat with 0%nat by (symmetry; apply Nat.div_small; lia). done.
Qed.

Lemma DrawLines_draws_pairs_witness :
  draw.DrawLines 1 [255; 255; 0]%Z [[]; []; []; []] display.NewScreen = Ok display.NewScreen.
Proof.
  apply (DrawLines_draws_pairs 1 [255; 255; 0]%Z [[]; []; []; []] 0 display.NewScreen);
    [split; [reflexivity | by repeat constructor] | apply NewScreen_ok | lia | lia].
Defined.

End Pairs.

(** ** More of the edge model *)

Section EdgeModel.
Local Open Scope float_scope.

(** X14. [AddPoint] needs four rows and touches the first four. *)
Theorem AddPoint_four_rows :
  (∀ (m : Matrix) x y z, (length m < 4)%nat → draw.AddPoint m x y z = Panic) ∧
  (∀ (r0 r1 r2 r3 : list float) (rest : Matrix) x y z,
     draw.AddPoint (r0 :: r1 :: r2 :: r3 :: rest) x y z =
       Ok ((r0 ++ [x]) :: (r1 ++ [y]) :: (r2 ++ [z]) :: (r3 ++ [1]) :: rest)).
Proof.
  split; [|done].
  intros m x y z Hlen. destruct m as [|r0 [|r1 [|r2 [|r3 rest]]]]; try done.
  simpl in Hlen. lia.
Qed.

Lemma AddPoint_four_rows_witness : draw.AddPoint [[7]; [8]; [9]] 1 2 3 = Panic.
Proof.
  destruct AddPoint_four_rows as [Hpanic _]. apply Hpanic. simpl. lia.
Defined.

(** X15. [AddBox] adds the twelve edges of the box, each once. *)
Theorem AddBox_twelve_edges (r0 r1 r2 r3 rest : list float)
    (x y z width height depth : float) :
  let pts := corner_at x y z width height depth <$> end_points box_edges in
  draw.AddBox [r0; r1; r2; r3] (x :: y :: z :: width :: height :: depth :: rest)
  = Ok [r0 ++ ((λ p, p.1.1) <$> pts); r1 ++ ((λ p, p.1.2) <$> pts);
        r2 ++ ((λ p, p.2) <$> pts); r3 ++ replicate 24 1] ∧
  NoDup box_edges ∧
  ∀ p q : corner, (p, q) ∈ box_edges ↔ one_step p q = true.
Proof.
  split; [|split].
  - cbn. by rewrite <- !app_assoc.
  - apply (bool_decide_unpack (NoDup box_edges)). by vm_compute.
  - intros [[a b] c] [[a' b'] c'].
    destruct a, b, c, a', b', c'; (split; [intros Hin | intros Hstep]);
      try done; try (by vm_compute in Hstep);
      try (apply (bool_decide_unpack (_ ∈ box_edges)); by vm_compute);
      try (exfalso; revert Hin; apply (bool_decide_unpack (_ ∉ box_edges)); by vm_compute).
Qed.


Section Curves.
Context `{GoMath}.

(** X16. [CubicEval] adds up the four terms from the cube down, from 0; it reads
    the first entry of each of the first four rows of [coefs]. *)
Theorem CubicEval_value (fuel : nat) (x : float) :
  (5 ≤ fuel)%nat →
  (∀ c0 c1 c2 c3 (r0 r1 r2 r3 : list float) (rest : Matrix),
     draw.CubicEval fuel x ((c0 :: r0) :: (c1 :: r1) :: (c2 :: r2) :: (c3 :: r3) :: rest)
     = Ok (0 + c0 * math_Pow x 3 + c1 * math_Pow x 2 + c2 * math_Pow x 1
             + c3 * math_Pow x 0)) ∧
  (∀ coefs : Matrix, (length coefs < 4)%nat → draw.CubicEval fuel x coefs = Panic).
Proof.
  intros Hfuel. do 5 (destruct fuel as [|fuel]; [lia|]). split.
  - intros. reflexivity.
  - intros coefs Hlen. destruct coefs as [|[|c0 r0] [|[|c1 r1] [|[|c2 r2] [|r3 rest]]]];
      try done. simpl in Hlen. lia.
Qed.


(** X17. [generateCurveCoefs]: the coefficients are the products of the rows of
    the basis matrix with the four numbers; a curve type that is neither
    [hermite] nor [bezier] leaves a matrix without rows, on which [AddCurve]
    panics at its first point. *)
Theorem generateCurveCoefs_by_type (p0 p1 p2 p3 : float) :
  draw.generateCurveCoefs p0 p1 p2 p3 "bezier"
  = Ok [[dot_product [-1; 3; -3; 1] [p0; p1; p2; p3]];
        [dot_product [3; -6; 3; 0] [p0; p1; p2; p3]];
        [dot_product [-3; 3; 0; 0] [p0; p1; p2; p3]];
        [dot_product [1; 0; 0; 0] [p0; p1; p2; p3]]] ∧
  draw.generateCurveCoefs p0 p1 p2 p3 "hermite"
  = Ok [[dot_product [2; -2; 1; 1] [p0; p1; p2; p3]];
        [dot_product [-3; 3; -2; -1] [p0; p1; p2; p3]];
        [dot_product [0; 0; 1; 0] [p0; p1; p2; p3]];
        [dot_product [1; 0; 0; 0] [p0; p1; p2; p3]]] ∧
  ∀ curveType, curveType ≠ "hermite" → curveType ≠ "bezier" →
    draw.generateCurveCoefs p0 p1 p2 p3 curveType = Ok [] ∧
    ∀ fuel m x0 y0 x1 y1 x2 y2 x3 y3 step,
      draw.AddCurve (S fuel) m x0 y0 x1 y1 x2 y2 x3 y3 step curveType = Panic.
Proof.
  split; [reflexivity|]. split; [reflexivity|].
  intros curveType Hh Hb.
  assert (∀ q0 q1 q2 q3, draw.generateCurveCoefs q0 q1 q2 q3 curveType = Ok []) as Hnil.
  { intros. unfold draw.generateCurveCoefs.
    rewrite decide_False by done. rewrite decide_False by done. reflexivity. }
  split; [apply Hnil|]. intros. unfold draw.AddCurve. rewrite !Hnil. reflexivity.
Qed.



Lemma float_steps_length (n : nat) (t step : float) : length (float_steps n t step) = n.
Proof. revert t. induction n as [|n IH]; intros t; simpl; [done|]. by rewrite IH. Qed.

Lemma length_bind_same {A B} (n : nat) (f : A → list B) (l : list A) :
  (∀ a, length (f a) = n) → length (l ≫= f) = (length l * n)%nat.
Proof.
  intros Hf. induction l as [|a l IH]; [done|].
  cbn [mbind list_bind length]. rewrite length_app, Hf. cbn [mbind] in IH. lia.
Qed.

Lemma foldM_ext {A St} (f g : St → A → res St) (l : list A) (s : St) :
  (∀ s a, f s a = g s a) → foldM f l s = foldM g l s.
Proof.
  intros Hfg. revert s. induction l as [|a l IH]; intros s; simpl; [done|].
  rewrite Hfg. destruct (g s a); simpl; auto.
Qed.

Lemma foldM_snoc {A B} (g : A → B) (l : list A) (s : list B) :
  foldM (λ s a, Ok (s ++ [g a])) l s = Ok (s ++ (g <$> l)).
Proof.
  revert s. induction l as [|a l IH]; intros s; simpl.
  - by rewrite app_nil_r.
  - rewrite IH. by rewrite <- app_assoc.
Qed.

Lemma foldM_append {A B} (f : A → list B) (l : list A) (s : list B) :
  foldM (λ s a, Ok (s ++ f a)) l s = Ok (s ++ (l ≫= f)).
Proof.
  revert s. induction l as [|a l IH]; intros s; simpl.
  - by rewrite app_nil_r.
  - rewrite IH. by rewrite <- app_assoc.
Qed.

(** The strokes of a list of points of three coordinates each. *)
Lemma add_dots (pts : Matrix) :
  Forall (λ p, length p = 3%nat) pts →
  ∀ r0 r1 r2 r3,
    foldM draw.add_dot pts [r0; r1; r2; r3]
    = Ok [r0 ++ (pts ≫= stroke 0); r1 ++ (pts ≫= stroke 1); r2 ++ (pts ≫= stroke 2);
          r3 ++ replicate (2 * length pts) 1].
Proof.
  induction 1 as [|p pts Hp _ IH]; intros r0 r1 r2 r3.
  - simpl. by rewrite !app_nil_r.
  - destruct p as [|x [|y [|z [|]]]]; try done.
    cbn [foldM]. change (draw.add_dot [r0; r1; r2; r3] [x; y; z])
      with (Ok [(r0 ++ [x]) ++ [x + 1]; (r1 ++ [y]) ++ [y + 1]; (r2 ++ [z]) ++ [z + 1];
                (r3 ++ [1]) ++ [1]] : res Matrix).
    rewrite bind_Ok, IH. cbn [length]. rewrite <- !app_assoc.
    replace (2 * S (length pts))%nat with (S (S (2 * length pts))) by lia. done.
Qed.

Lemma sphere_points_three (cx cy cz r : float) :
  Forall (λ p, length p = 3%nat) (sphere_points cx cy cz r).
Proof.
  unfold sphere_points. apply Forall_bind, Forall_forall. intros i _.
  by apply Forall_fmap, Forall_forall.
Qed.

Lemma torus_points_three (cx cy cz r2 r1 : float) :
  Forall (λ p, length p = 3%nat) (torus_points cx cy cz r2 r1).
Proof.
  unfold torus_points. apply Forall_bind, Forall_forall. intros i _.
  by apply Forall_fmap, Forall_forall.
Qed.

Lemma GenerateSphere_points (fuel : nat) (cx cy cz r : float) :
  (101 ≤ fuel)%nat → draw.GenerateSphere fuel cx cy cz r = Ok (sphere_points cx cy cz r).
Proof.
  intros Hfuel. unfold draw.GenerateSphere, sphere_points.
  rewrite (for_float_steps _ _ _ 100) by (lia || by vm_compute).
  rewrite <- (app_nil_l (_ ≫= _)), <- foldM_append. apply foldM_ext.
  intros points i. cbv zeta.
  rewrite (for_float_steps _ _ _ 50) by (lia || by vm_compute).
  by rewrite foldM_snoc.
Qed.

Lemma GenerateTorus_points (fuel : nat) (cx cy cz r2 r1 : float) :
  (101 ≤ fuel)%nat →
  draw.GenerateTorus fuel cx cy cz r2 r1 = Ok (torus_points cx cy cz r2 r1).
Proof.
  intros Hfuel. unfold draw.GenerateTorus, torus_points.
  rewrite (for_float_steps _ _ _ 100) by (lia || by vm_compute).
  rewrite <- (app_nil_l (_ ≫= _)), <- foldM_append. apply foldM_ext.
  intros points i. cbv zeta.
  rewrite (for_float_steps _ _ _ 100) by (lia || by vm_compute).
  by rewrite foldM_snoc.
Qed.

(** X18. [AddSphere] and [AddTorus] with fuel for their loops: 100 × 50 and
    100 × 100 points, each added as the stroke from the point to the point
    moved by (1, 1, 1). The counters stop short of their bounds: the values
    1.0 of [i] and 0.5 (or 1.0) of [j] are not reached. *)
Theorem AddSphere_AddTorus_strokes (fuel : nat) (r0 r1 r2 r3 : list float) :
  (101 ≤ fuel)%nat →
  (∀ cx cy cz r rest,
     let pts := sphere_points cx cy cz r in
     length pts = (100 * 50)%nat ∧
     draw.AddSphere fuel [r0; r1; r2; r3] (cx :: cy :: cz :: r :: rest)
     = Ok [r0 ++ (pts ≫= stroke 0); r1 ++ (pts ≫= stroke 1); r2 ++ (pts ≫= stroke 2);
           r3 ++ replicate (2 * length pts) 1]) ∧
  (∀ cx cy cz a3 a4 rest,
     let pts := torus_points cx cy cz a3 a4 in
     length pts = (100 * 100)%nat ∧
     draw.AddTorus fuel [r0; r1; r2; r3] (cx :: cy :: cz :: a3 :: a4 :: rest)
     = Ok [r0 ++ (pts ≫= stroke 0); r1 ++ (pts ≫= stroke 1); r2 ++ (pts ≫= stroke 2);
           r3 ++ replicate (2 * length pts) 1]) ∧
  Forall (λ t, (t <? 1) = true) (float_steps 100 0 0.01) ∧
  Forall (λ t, (t <? 0.5) = true) (float_steps 50 0 0.01).
Proof.
  intros Hfuel. split; [|split; [|split; apply forallb_Forall; by vm_compute]].
  - intros cx cy cz r rest pts. split.
    + unfold pts, sphere_points. rewrite (length_bind_same 50), float_steps_length; [done|].
      intros i. by rewrite length_fmap, float_steps_length.
    + unfold draw.AddSphere. cbn [index lookup list_lookup]. rewrite !bind_Ok.
      rewrite GenerateSphere_points, bind_Ok by done.
      by rewrite add_dots by apply sphere_points_three.
  - intros cx cy cz a3 a4 rest pts. split.
    + unfold pts, torus_points. rewrite (length_bind_same 100), float_steps_length; [done|].
      intros i. by rewrite length_fmap, float_steps_length.
    + unfold draw.AddTorus. cbn [index lookup list_lookup]. rewrite !bind_Ok.
      rewrite GenerateTorus_points, bind_Ok by done.
      by rewrite add_dots by apply torus_points_three.
Qed.



Lemma CubicEval_cubic (fuel : nat) (t c0 c1 c2 c3 : float) :
  (5 ≤ fuel)%nat → draw.CubicEval fuel t [[c0]; [c1]; [c2]; [c3]] = Ok (cubic c0 c1 c2 c3 t).
Proof. intros Hfuel. by do 5 (destruct fuel as [|fuel]; [lia|]). Qed.

Lemma AddCurve_rows (fuel : nat) (basis : Matrix) (curveType : string)
    (r0 r1 r2 r3 : list float) (x0 y0 x1 y1 x2 y2 x3 y3 : float) :
  (1001 ≤ fuel)%nat →
  (∀ p0 p1 p2 p3, draw.generateCurveCoefs p0 p1 p2 p3 curveType =
     Ok ((λ row, [dot_product row [p0; p1; p2; p3]]) <$> basis)) →
  length basis = 4%nat →
  draw.AddCurve fuel [r0; r1; r2; r3] x0 y0 x1 y1 x2 y2 x3 y3 0.001 curveType
  = Ok [r0 ++ (curve_of basis x0 x1 x2 x3 <$> circle_samples);
        r1 ++ (curve_of basis y0 y1 y2 y3 <$> circle_samples);
        r2 ++ replicate 1000 0; r3 ++ replicate 1000 1].
Proof.
  intros Hfuel Hcoefs Hbasis. unfold draw.AddCurve. rewrite !Hcoefs, !bind_Ok.
  destruct basis as [|b0 [|b1 [|b2 [|b3 [|]]]]]; try done. cbn [fmap list_fmap].
  rewrite (for_float_steps _ _ _ 1000) by (lia || by vm_compute).
  fold circle_samples.
  rewrite (foldM_ext _ (λ m t, draw.AddPoint m (curve_of [b0; b1; b2; b3] x0 x1 x2 x3 t)
                                 (curve_of [b0; b1; b2; b3] y0 y1 y2 y3 t) 0)).
  - rewrite (AddPoint_each _ _ (λ _, 0)). rewrite circle_samples_length.
    by do 3 f_equal.
  - intros m t. by rewrite !CubicEval_cubic by lia.
Qed.


(** X19. [AddCurve] at the step 0.001 of the commands [bezier] and [hermite],
    with fuel for its loop: 1000 points, one for each value t takes from 0
    in steps of 0.001, with the cubic of the x numbers and the cubic of the y
    numbers as coordinates and 0 as the third. All the values of t are below
    1: the end of the curve is not among the points. *)
Theorem AddCurve_samples (fuel : nat) (r0 r1 r2 r3 : list float)
    (x0 y0 x1 y1 x2 y2 x3 y3 : float) :
  (1001 ≤ fuel)%nat →
  draw.AddCurve fuel [r0; r1; r2; r3] x0 y0 x1 y1 x2 y2 x3 y3 0.001 "bezier"
  = Ok [r0 ++ (curve_of bezier_basis x0 x1 x2 x3 <$> circle_samples);
        r1 ++ (curve_of bezier_basis y0 y1 y2 y3 <$> circle_samples);
        r2 ++ replicate 1000 0; r3 ++ replicate 1000 1] ∧
  draw.AddCurve fuel [r0; r1; r2; r3] x0 y0 x1 y1 x2 y2 x3 y3 0.001 "hermite"
  = Ok [r0 ++ (curve_of hermite_basis x0 x1 x2 x3 <$> circle_samples);
        r1 ++ (curve_of hermite_basis y0 y1 y2 y3 <$> circle_samples);
        r2 ++ replicate 1000 0; r3 ++ replicate 1000 1] ∧
  Forall (λ t, (t <? 1) = true) circle_samples.
Proof.
  intros Hfuel. split; [|split].
  - by apply AddCurve_rows.
  - by apply AddCurve_rows.
  - apply forallb_Forall. by vm_compute.
Qed.

(** X20. The functions that take their numbers from a slice panic on a slice
    that is too short, before anything is added. *)
Theorem too_few_numbers_panic (fuel : nat) (m : Matrix) (params : list float) :
  ((length params < 6)%nat →
   draw.AddEdge m params = Panic ∧ draw.AddBox m params = Panic) ∧
  ((length params < 4)%nat →
   draw.AddCircle fuel m params = Panic ∧ draw.AddSphere fuel m params = Panic) ∧
  ((length params < 5)%nat → draw.AddTorus fuel m params = Panic) ∧
  ((length params < 3)%nat →
   matrix.MakeTranslationMatrix params = Panic ∧ matrix.MakeDilationMatrix params = Panic).
Proof.
  split; [|split; [|split]]; intros Hlen;
    destruct params as [|a0 [|a1 [|a2 [|a3 [|a4 [|a5 rest]]]]]]; try done;
    simpl in Hlen; lia.
Qed.

End Curves.

Lemma AddCurve_samples_witness :
  Forall (λ t, (t <? 1) = true)%float circle_samples.
Proof. apply (@AddCurve_samples stub_math 1001 [] [] [] [] 0 0 0 0 0 0 0 0). lia. Defined.

Lemma too_few_numbers_panic_witness :
  draw.AddEdge [[]; []; []; []] [1; 2; 3]%float = Panic.
Proof.
  destruct (@too_few_numbers_panic stub_math 0 [[]; []; []; []] [1; 2; 3]%float) as [He _].
  apply He. simpl. lia.
Defined.

Lemma CubicEval_value_witness :
  @draw.CubicEval stub_math 5 2 [[1]; [2]; [3]; [4]] = Ok 10.
Proof.
  destruct (@CubicEval_value stub_math 5 2 ltac:(lia)) as [Hval _].
  apply (Hval 1 2 3 4 [] [] [] [] []).
Defined.

Lemma generateCurveCoefs_by_type_witness :
  draw.generateCurveCoefs 1 2 3 4 "spline" = Ok [].
Proof.
  destruct (@generateCurveCoefs_by_type stub_math 1 2 3 4) as (_ & _ & Hother).
  by apply (Hother "spline").
Defined.

Lemma AddSphere_AddTorus_strokes_witness :
  length (@sphere_points stub_math 0 0 0 5) = (100 * 50)%nat.
Proof.
  destruct (@AddSphere_AddTorus_strokes stub_math 101 [] [] [] [] ltac:(lia)) as (Hs & _).
  apply (Hs 0 0 0 5 []).
Defined.

End EdgeModel.

(** ** package display *)

Section Display.
Context `{display.GoOS}.

Lemma ClearScreen_replicate (s : Screen) :
  display.ClearScreen s
  = replicate (length s) (replicate (Z.to_nat display.XRES) [0; 0; 0]%Z).
Proof. unfold display.ClearScreen. by apply const_fmap. Qed.

Lemma ClearScreen_NewScreen (s : Screen) :
  length s = Z.to_nat display.YRES → display.ClearScreen s = display.NewScreen.
Proof. intros Hlen. by rewrite ClearScreen_replicate, Hlen. Qed.

(** X21. [ClearScreen] gives every row it finds [XRES] black cells: on a screen
    of [YRES] rows the result is the screen of [NewScreen], whatever the
    rows held and however long they were. *)
Theorem ClearScreen_blank (s : Screen) :
  display.ClearScreen s
  = replicate (length s) (replicate (Z.to_nat display.XRES) [0; 0; 0]%Z) ∧
  (length s = Z.to_nat display.YRES → display.ClearScreen s = display.NewScreen) ∧
  display.ClearScreen (display.ClearScreen s) = display.ClearScreen s.
Proof.
  split; [apply ClearScreen_replicate|]. split; [apply ClearScreen_NewScreen|].
  by rewrite (ClearScreen_replicate (display.ClearScreen s)), ClearScreen_replicate,
    length_replicate.
Qed.

Lemma ClearScreen_blank_witness :
  display.ClearScreen (replicate 500 []) = display.NewScreen.
Proof.
  destruct (ClearScreen_blank (replicate 500 [])) as (_ & Hnew & _).
  apply Hnew. by rewrite length_replicate.
Defined.

Lemma pixel_text_three (rgb : list Z) :
  length rgb = 3%nat → display.pixel_text rgb = Ok (text_of_pixel rgb).
Proof. destruct rgb as [|r [|g [|b [|]]]]; done. Qed.

(** The inner loop of [WriteScreenToPPM] on a row. *)
Lemma ppm_row (screen : Screen) (i : nat) (row : list (list Z))
    (f : string → nat → res string) :
  (∀ buffer j, f buffer j = row ← index screen i;
                            rgb ← index row j;
                            t ← display.pixel_text rgb;
                            Ok (buffer +:+ t)) →
  screen !! i = Some row → Forall (λ rgb, length rgb = 3%nat) row →
  ∀ (n a : nat) (buffer : string), (a + n ≤ length row)%nat →
    foldM f (seq a n) buffer
    = Ok (foldl (λ text rgb, text +:+ text_of_pixel rgb) buffer (take n (drop a row))).
Proof.
  intros Hf Hrow Hcells. induction n as [|n IH]; intros a buffer Hlen; [done|].
  cbn [seq foldM]. rewrite Hf, (index_Some _ _ _ Hrow), bind_Ok.
  destruct (lookup_lt_is_Some_2 row a) as [rgb Hrgb]; [lia|].
  rewrite (index_Some _ _ _ Hrgb), bind_Ok.
  rewrite pixel_text_three, !bind_Ok by (rewrite Forall_lookup in Hcells; eauto).
  rewrite IH by lia. by rewrite (drop_S _ _ _ Hrgb).
Qed.

Lemma ppm_rows (screen : Screen) (f : string → nat → res string) :
  (∀ buffer i, f buffer i =
     foldM (λ buffer j,
              row ← index screen i;
              rgb ← index row j;
              t ← display.pixel_text rgb;
              Ok (buffer +:+ t)) (seq 0 (Z.to_nat display.XRES)) buffer) →
  pixels_ok screen →
  ∀ (n a : nat) (buffer : string), (a + n ≤ length screen)%nat →
    foldM f (seq a n) buffer
    = Ok (foldl (λ text rgb, text +:+ text_of_pixel rgb) buffer
            (concat (take n (drop a screen)))).
Proof.
  intros Hf [[Hlen Hrows] Hcells]. induction n as [|n IH]; intros a buffer Ha; [done|].
  cbn [seq foldM]. rewrite Hf.
  destruct (lookup_lt_is_Some_2 screen a) as [row Hrow]; [lia|].
  rewrite Forall_lookup in Hrows, Hcells.
  rewrite (ppm_row screen a row _ (λ _ _, eq_refl) Hrow)
    by (eauto || (rewrite (Hrows _ _ Hrow); lia)).
  rewrite bind_Ok, IH by lia.
  rewrite (drop_S _ _ _ Hrow). cbn [take concat]. rewrite foldl_app.
  rewrite drop_0, take_ge by (rewrite (Hrows _ _ Hrow); lia). done.
Qed.

(** The text that [WriteScreenToPPM] builds from a well-formed screen. *)
Lemma ppm_text_of_screen (s : Screen) :
  pixels_ok s → display.ppm_text s = Ok (text_of_screen s).
Proof.
  intros Hs. unfold display.ppm_text.
  rewrite (ppm_rows s _ (λ _ _, eq_refl) Hs) by (destruct Hs as [[-> _] _]; lia).
  rewrite drop_0, take_ge by (destruct Hs as [[-> _] _]; lia). done.
Qed.

(** X22. [WriteScreenToPPM] panics where [os.OpenFile] returns an error,
    whatever the screen. Where the file opens and the screen is well formed
    it does not panic, and the text it writes to [pic.ppm] is the header
    followed by the three numbers of every cell, row by row, each taken
    modulo 256. *)
Theorem WriteScreenToPPM_text (past : list display.event) (s : Screen) :
  pixels_ok s →
  display.WriteScreenToPPM past s
  = (if display.os_OpenFile past display.PPMFilename
     then Ok [display.WriteFile display.PPMFilename (text_of_screen s)]
     else Panic) ∧
  ∀ s' : Screen, display.os_OpenFile past display.PPMFilename = false →
    display.WriteScreenToPPM past s' = Panic.
Proof.
  intros Hs. unfold display.WriteScreenToPPM. split.
  - destruct (display.os_OpenFile past display.PPMFilename); [|done].
    by rewrite ppm_text_of_screen.
  - by intros s' ->.
Qed.

Lemma NewScreen_pixels_ok : pixels_ok display.NewScreen.
Proof.
  split; [apply NewScreen_ok|].
  apply Forall_replicate, Forall_replicate. done.
Qed.

End Display.

Lemma WriteScreenToPPM_text_witness :
  @display.WriteScreenToPPM stub_os [] display.NewScreen
  = Ok [display.WriteFile display.PPMFilename (text_of_screen display.NewScreen)].
Proof.
  destruct (@WriteScreenToPPM_text stub_os [] display.NewScreen NewScreen_pixels_ok)
    as [Htext _].
  exact Htext.
Defined.

(** ** The script *)

Section Script.
Context `{GoMath} `{GoStrconv} `{display.GoOS}.

Lemma set_vars_same (st : parser.state) : parser.set_vars st (parser.vars st) = st.
Proof. by destruct st. Qed.

Lemma foldM_fuel {A St} (f : St → A → res St) (l : list A) (s : St) :
  (∀ s a, f s a ≠ OutOfFuel) → foldM f l s ≠ OutOfFuel.
Proof.
  intros Hf. revert s. induction l as [|a l IH]; intros s; simpl; [done|].
  specialize (Hf s a). destruct (f s a); simpl; [apply IH | done | done].
Qed.

Lemma FloatParams_total (text : string) :
  parser.FloatParams text = Panic ∨ ∃ p, parser.FloatParams text = Ok p.
Proof.
  destruct (parser.FloatParams text) as [p| |] eqn:Hp; [eauto | eauto |].
  exfalso. revert Hp. apply foldM_fuel. intros args v.
  by destruct (strconv_ParseFloat v).
Qed.

Lemma AddEdge_no_rows (p : list float) : draw.AddEdge [] p = Panic.
Proof. by destruct p as [|a0 [|a1 [|a2 [|a3 [|a4 [|a5 rest]]]]]]. Qed.

(** The product with a first matrix that has no rows has no rows. *)
Lemma MultiplyMatrices_no_rows (σ : gmap string Matrix) (pa pb : string) (b : Matrix) :
  σ !! pa = Some [] → σ !! pb = Some b → b ≠ [] →
  matrix.MultiplyMatrices pa pb σ = Ok (<[pb := []]> σ).
Proof.
  intros Hpa Hpb Hb. unfold matrix.MultiplyMatrices, matrix.deref.
  rewrite Hpa, Hpb. simpl. by destruct b.
Qed.

Lemma ParseFile_immediate (fuel : nat) (line : string) (rest : list string)
    (st : parser.state) (r : res parser.outcome) :
  parser.immediate fuel line st = Some r →
  parser.ParseFile fuel (line :: rest) st
  = o ← r; match o with
           | parser.Next st => parser.ParseFile fuel rest st
           | parser.Return st => Ok st
           end.
Proof. intros Hi. cbn [parser.ParseFile]. by rewrite Hi. Qed.

Lemma ParseFile_with_params (fuel : nat) (line params : string) (rest : list string)
    (st : parser.state) :
  parser.immediate fuel line st = None → parser.skipped line = false →
  parser.ParseFile fuel (line :: params :: rest) st
  = st ← parser.with_params fuel line params st; parser.ParseFile fuel rest st.
Proof. intros Hi Hs. cbn [parser.ParseFile]. by rewrite Hi, Hs. Qed.

Lemma ParseFile_last (fuel : nat) (line : string) (st : parser.state) :
  parser.immediate fuel line st = None → parser.skipped line = false →
  parser.ParseFile fuel [line] st = parser.with_params fuel line EmptyString st.
Proof. intros Hi Hs. cbn [parser.ParseFile]. by rewrite Hi, Hs. Qed.

(** X23. At the start of a script the transform has no rows: [ident] changes
    nothing then, and [apply] leaves an edge matrix without rows, whatever
    it held; after that [draw], [display] and [line] panic. *)
Theorem apply_without_transform (fuel : nat) (st : parser.state) (E : Matrix)
    (rest : list string) :
  parser.vars st !! parser.transform = Some [] →
  parser.vars st !! parser.edges = Some E → E ≠ [] →
  parser.ParseFile fuel ("ident" :: rest) st = parser.ParseFile fuel rest st ∧
  parser.ParseFile fuel ("apply" :: rest) st
  = parser.ParseFile fuel rest
      (parser.set_vars st (<[parser.edges := []]> (parser.vars st))) ∧
  parser.ParseFile fuel ("apply" :: "draw" :: rest) st = Panic ∧
  parser.ParseFile fuel ("apply" :: "display" :: rest) st = Panic ∧
  ∀ params, parser.ParseFile fuel ("apply" :: "line" :: params :: rest) st = Panic.
Proof.
  intros HT HE Hne.
  assert (∀ rest, parser.ParseFile fuel ("apply" :: rest) st
            = parser.ParseFile fuel rest
                (parser.set_vars st (<[parser.edges := []]> (parser.vars st)))) as Happly.
  { intros rest'. rewrite (ParseFile_immediate fuel "apply" rest' st _ eq_refl).
    unfold parser.apply. by rewrite (MultiplyMatrices_no_rows _ _ _ E). }
  split; [|split; [apply Happly|]].
  - rewrite (ParseFile_immediate fuel "ident" rest st _ eq_refl).
    unfold matrix.deref. rewrite HT. simpl.
    change (matrix.MakeIdentity []) with (@nil (list float)).
    by rewrite insert_id, set_vars_same.
  - rewrite !Happly. split; [|split].
    + rewrite (ParseFile_immediate fuel "draw" rest _ _ eq_refl).
      unfold parser.draw_edges, matrix.deref. cbn [parser.vars parser.set_vars].
      by rewrite lookup_insert_eq.
    + rewrite (ParseFile_immediate fuel "display" rest _ _ eq_refl).
      unfold parser.draw_edges, matrix.deref.
      cbn [parser.vars parser.set_vars parser.set_screen].
      by rewrite lookup_insert_eq.
    + intros params. rewrite Happly. rewrite (ParseFile_with_params fuel "line" params rest _ eq_refl eq_refl).
      change (parser.with_params fuel "line" params ?st')
        with (p ← parser.FloatParams params;
              parser.add_to_edges (λ e, draw.AddEdge e p) st').
      destruct (FloatParams_total params) as [-> | [p ->]]; [done|].
      rewrite bind_Ok. unfold parser.add_to_edges, matrix.deref.
      cbn [parser.vars parser.set_vars]. rewrite lookup_insert_eq. simpl.
      by rewrite AddEdge_no_rows.
Qed.


(** An unknown line is no immediate command. *)
Lemma immediate_unknown (fuel : nat) (line : string) (st : parser.state) :
  unknown line → parser.immediate fuel line st = None.
Proof.
  intros (Hname & Hcolor & _). unfold parser.immediate.
  repeat (rewrite decide_False;
          [|intros ->; apply Hname; apply (bool_decide_unpack (_ ∈ command_names));
            by vm_compute]).
  by rewrite Hcolor.
Qed.

Lemma step_of_unknown (line params : string) :
  unknown line → parser.step_of line params = Ok [].
Proof.
  intros (Hname & _). unfold parser.step_of.
  repeat (rewrite decide_False;
          [|intros ->; apply Hname; apply (bool_decide_unpack (_ ∈ command_names));
            by vm_compute]).
  done.
Qed.

Lemma step_ne_transform : parser.stepTransform ≠ parser.transform.
Proof. by vm_compute. Qed.

Lemma step_ne_edges : parser.stepTransform ≠ parser.edges.
Proof. by vm_compute. Qed.

Lemma transform_ne_edges : parser.transform ≠ parser.edges.
Proof. by vm_compute. Qed.

(** The step that has no rows takes the rows of the transform away. *)
Lemma composeStep_no_rows (σ : gmap string Matrix) (T : Matrix) :
  σ !! parser.transform = Some T → σ !! parser.stepTransform = None →
  (σ' ← parser.composeStep (<[parser.stepTransform := []]> σ);
   Ok (delete parser.stepTransform σ'))
  = Ok (<[parser.transform := []]> σ).
Proof.
  intros HT Hstep. pose proof step_ne_transform as Hne.
  unfold parser.composeStep, matrix.deref.
  rewrite lookup_insert_eq, lookup_insert_ne by done. rewrite HT. cbn [mbind res_bind].
  destruct T as [|r0 T]; cbn [length].
  - rewrite decide_True by done. cbn [mbind res_bind]. f_equal.
    rewrite delete_insert_ne by done. rewrite delete_insert_eq. by rewrite delete_id.
  - rewrite decide_False by done.
    rewrite (MultiplyMatrices_no_rows _ _ _ (r0 :: T));
      [|by rewrite lookup_insert_eq | by rewrite lookup_insert_ne | done].
    cbn [mbind res_bind]. f_equal.
    rewrite delete_insert_ne by done. rewrite delete_insert_eq. by rewrite delete_id.
Qed.


Lemma step_of_rotate (params : string) :
  parser.step_of "rotate" params
  = (let args := strings_Fields params in
     arg1 ← index args 1;
     match strconv_ParseFloat arg1 with
     | None => Panic
     | Some numDegrees =>
         arg0 ← index args 0;
         if decide (arg0 = "x") then matrix.MakeRotX numDegrees
         else if decide (arg0 = "y") then matrix.MakeRotY numDegrees
         else if decide (arg0 = "z") then matrix.MakeRotZ numDegrees
         else Ok []
     end).
Proof. reflexivity. Qed.

Lemma with_params_step (fuel : nat) (line params : string) (st : parser.state) :
  line ∉ ["save"; "line"; "circle"; "sphere"; "box"; "torus"; "hermite"; "bezier"] →
  parser.with_params fuel line params st
  = step ← parser.step_of line params;
    σ ← parser.composeStep (<[parser.stepTransform := step]> (parser.vars st));
    Ok (parser.set_vars st (delete parser.stepTransform σ)).
Proof.
  intros Hname. unfold parser.with_params.
  repeat (rewrite decide_False; [|intros ->; apply Hname; set_solver]).
  rewrite bool_decide_false; [done|].
  intros [-> | ->]; apply Hname; set_solver.
Qed.

(** X24. A line that [ParseFile] does not know takes the next line with it and
    the rows of the transform away; so does [rotate] about an axis that is
    not x, y or z. *)
Theorem unknown_command_drops_transform (fuel : nat) (line params : string)
    (rest : list string) (st : parser.state) (T : Matrix) :
  parser.vars st !! parser.transform = Some T →
  parser.vars st !! parser.stepTransform = None →
  let st' := parser.set_vars st (<[parser.transform := []]> (parser.vars st)) in
  (unknown line →
   parser.ParseFile fuel (line :: params :: rest) st = parser.ParseFile fuel rest st') ∧
  (∀ axis degrees more numDegrees,
     strings_Fields params = axis :: degrees :: more →
     strconv_ParseFloat degrees = Some numDegrees →
     axis ∉ ["x"; "y"; "z"] →
     parser.ParseFile fuel ("rotate" :: params :: rest) st = parser.ParseFile fuel rest st').
Proof.
  intros HT Hstep st'. split.
  - intros Hline. pose proof Hline as (Hname & _ & Hskip).
    rewrite ParseFile_with_params by (by apply immediate_unknown || done).
    rewrite with_params_step;
      [|intros Hin; apply Hname; revert Hin; unfold command_names; set_solver].
    rewrite step_of_unknown, bind_Ok by done.
    pose proof (composeStep_no_rows _ _ HT Hstep) as Hcompose.
    destruct (parser.composeStep _) as [σ| |]; try done.
    cbn [mbind res_bind] in *. by injection Hcompose as ->.
  - intros axis degrees more numDegrees Hfields Hparse Haxis.
    rewrite (ParseFile_with_params fuel "rotate" params rest st eq_refl eq_refl).
    rewrite with_params_step by set_solver.
    assert (parser.step_of "rotate" params = Ok []) as ->.
    { rewrite step_of_rotate, Hfields. cbv zeta.
      change (index (axis :: degrees :: more) 1) with (Ok degrees : res string).
      change (index (axis :: degrees :: more) 0) with (Ok axis : res string).
      rewrite bind_Ok, Hparse, bind_Ok.
      repeat (rewrite decide_False; [|intros ->; apply Haxis; set_solver]). done. }
    rewrite bind_Ok.
    pose proof (composeStep_no_rows _ _ HT Hstep) as Hcompose.
    destruct (parser.composeStep _) as [σ| |]; try done.
    cbn [mbind res_bind] in *. by injection Hcompose as ->.
Qed.


(** X25. A line that holds the word color is the colour command, wherever the
    word stands in it and whatever the line starts with: its second field
    names the colour, and a line of one field panics. *)
Theorem color_line_anywhere (fuel : nat) (line : string) (rest : list string)
    (st : parser.state) :
  line ∉ ["ident"; "display"; "clear"; "apply"; "quit"; "draw"; "show"] →
  strings_Contains line "color" = true →
  (∀ name, strings_Fields line !! 1%nat = Some name →
     parser.ParseFile fuel (line :: rest) st
     = parser.ParseFile fuel rest
         (parser.State (parser.vars st) (parser.screen st)
            (draw.SetColor (parser.DefaultDrawColor st) name) (parser.trace st))) ∧
  ((length (strings_Fields line) < 2)%nat →
   parser.ParseFile fuel (line :: rest) st = Panic).
Proof.
  intros Hname Hcolor.
  assert (parser.immediate fuel line st
          = Some (color ← index (strings_Fields line) 1;
                  Ok (parser.Next (parser.State (parser.vars st) (parser.screen st)
                        (draw.SetColor (parser.DefaultDrawColor st) color)
                        (parser.trace st))))) as Hi.
  { unfold parser.immediate.
    repeat (rewrite decide_False; [|intros ->; apply Hname; set_solver]).
    by rewrite Hcolor. }
  rewrite (ParseFile_immediate _ _ _ _ _ Hi). split.
  - intros name Hfield. by rewrite (index_Some _ _ _ Hfield).
  - intros Hlen. unfold index. by rewrite lookup_ge_None_2 by lia.
Qed.

(** X26. [display] clears the screen before it draws: what the screen held does
    not show. *)
Theorem display_starts_from_black (fuel : nat) (rest : list string) (st : parser.state) :
  length (parser.screen st) = Z.to_nat display.YRES →
  parser.ParseFile fuel ("display" :: rest) st
  = parser.ParseFile fuel ("display" :: rest) (parser.set_screen st display.NewScreen).
Proof.
  intros Hlen.
  rewrite !(ParseFile_immediate fuel "display" rest _ _ eq_refl).
  cbn [parser.set_screen parser.screen parser.vars parser.DefaultDrawColor parser.trace].
  rewrite (ClearScreen_NewScreen (parser.screen st)) by done.
  by rewrite (ClearScreen_NewScreen display.NewScreen) by apply length_replicate.
Qed.

(** X27. A command that takes its numbers from the next line panics where it
    stands on the last line of the script. *)
Theorem command_on_last_line (fuel : nat) (line : string) (st : parser.state) (e : Matrix) :
  parser.vars st !! parser.edges = Some e →
  line ∈ ["line"; "circle"; "sphere"; "box"; "torus"; "hermite"; "bezier"; "move";
          "scale"; "rotate"] →
  parser.ParseFile fuel [line] st = Panic.
Proof.
  intros He Hline.
  repeat (apply elem_of_cons in Hline as [-> | Hline];
          [match goal with
           | |- parser.ParseFile _ [?l] _ = _ =>
               rewrite (ParseFile_last fuel l st eq_refl eq_refl)
           end;
           unfold parser.with_params, parser.add_to_edges, matrix.deref;
           rewrite ?He; reflexivity|]).
  by apply elem_of_nil in Hline.
Qed.

End Script.

Lemma unknown_command_drops_transform_witness :
  @parser.ParseFile stub_math stub_strconv stub_os 10 ["translate"; "5 5 5"]
    (parser.State store_hom display.NewScreen draw.DefaultDrawColor_init [])
  = Ok (parser.State (<[parser.transform := []]> store_hom) display.NewScreen
          draw.DefaultDrawColor_init []).
Proof.
  destruct (@unknown_command_drops_transform stub_math stub_strconv stub_os 10 "translate" "5 5 5" []
              (parser.State store_hom display.NewScreen draw.DefaultDrawColor_init [])
              translate_123 eq_refl eq_refl) as [Hunknown _].
  apply Hunknown. split; [|done].
  apply (bool_decide_unpack (_ ∉ command_names)). by vm_compute.
Defined.

Lemma apply_without_transform_witness :
  @main.main stub_math stub_strconv stub_os 10 ["ident"; "apply"; "display"] = Panic.
Proof.
  unfold main.main. cbv zeta.
  destruct (@apply_without_transform stub_math stub_strconv stub_os 10
              (parser.State initial_store display.NewScreen draw.DefaultDrawColor_init [])
              [[]; []; []; []] ["apply"; "display"] eq_refl eq_refl ltac:(done))
    as (Hident & _).
  destruct (@apply_without_transform stub_math stub_strconv stub_os 10
              (parser.State initial_store display.NewScreen draw.DefaultDrawColor_init [])
              [[]; []; []; []] [] eq_refl eq_refl ltac:(done))
    as (_ & _ & _ & Hdisplay & _).
  change (<[parser.transform:=[]]> (<[parser.edges:=[[]; []; []; []]]> ∅)) with initial_store.
  rewrite Hident. exact Hdisplay.
Defined.

Lemma color_line_anywhere_witness :
  @parser.ParseFile stub_math stub_strconv stub_os 10 ["#color yellow"] start
  = Ok (parser.State initial_store display.NewScreen [255; 255; 0]%Z []).
Proof.
  destruct (@color_line_anywhere stub_math stub_strconv stub_os 10 "#color yellow" [] start)
    as [Hname _]; [set_solver | reflexivity |].
  by apply (Hname "yellow").
Defined.

Lemma display_starts_from_black_witness :
  @parser.ParseFile stub_math stub_strconv stub_os 10 ["display"]
    (parser.set_screen start (replicate 500 []))
  = @parser.ParseFile stub_math stub_strconv stub_os 10 ["display"]
      (parser.set_screen (parser.set_screen start (replicate 500 [])) display.NewScreen).
Proof.
  apply (@display_starts_from_black stub_math stub_strconv stub_os 10 []
           (parser.set_screen start (replicate 500 []))).
  apply length_replicate.
Defined.

Lemma command_on_last_line_witness :
  @parser.ParseFile stub_math stub_strconv stub_os 10 ["move"] start = Panic.
Proof.
  apply (@command_on_last_line stub_math stub_strconv stub_os 10 "move" start [[]; []; []; []]);
    [reflexivity | set_solver].
Defined.

(** ** What every script keeps *)

Section Kept.

Lemma kept_Ok {St} (I : St → Prop) (s : St) : I s → kept I (Ok s).
Proof. intros Hs s' [= <-]. done. Qed.

Lemma kept_bind {St St'} (I : St → Prop) (J : St' → Prop) (r : res St) (k : St → res St') :
  kept I r → (∀ s, I s → kept J (k s)) → kept J (r ≫= k).
Proof.
  intros Hr Hk s' Hs'. destruct r as [s| |]; try done. simpl in Hs'.
  by apply (Hk s (Hr s eq_refl)).
Qed.

Lemma kept_any {St St'} (J : St' → Prop) (r : res St) (k : St → res St') :
  (∀ s, kept J (k s)) → kept J (r ≫= k).
Proof. intros Hk. apply (kept_bind (λ _, True)); [done | auto]. Qed.

Lemma kept_while {St} (I : St → Prop) (cond : St → bool) (body : St → res St) :
  (∀ s, I s → kept I (body s)) → ∀ fuel s, I s → kept I (while fuel cond body s).
Proof.
  intros Hbody. induction fuel as [|fuel IH]; intros s Hs; [done|].
  simpl. destruct (cond s); [|by apply kept_Ok].
  eapply kept_bind; [by apply Hbody | apply IH].
Qed.

Lemma safe_kept {St} (I : St → Prop) (r : res St) : safe I r → kept I r.
Proof. by intros [_ Hok]. Qed.

(** What [plot] keeps, [DrawLines] keeps, on any edge matrix. *)
Lemma DrawLines_keeps (c : list Z) (I : Screen → Prop) (fuel : nat) (edges : Matrix)
    (s : Screen) :
  (∀ s x y, I s → safe I (draw.plot c s x y)) →
  I s → kept I (draw.DrawLines fuel c edges s).
Proof.
  intros Hplot Hs. unfold draw.DrawLines. apply kept_any. intros edges_0.
  apply (kept_bind (λ st : nat * Screen, I st.2)); [|intros st Hst; by apply kept_Ok].
  apply kept_while; [|done]. intros [i s1] Hs1. unfold draw.DrawLines_turn.
  do 6 (apply kept_any; intros ?).
  eapply kept_bind; [apply safe_kept, (DrawLine_keeps c I Hplot); exact Hs1|].
  intros s' Hs'. by apply kept_Ok.
Qed.


Lemma pixels_ok_repainted (c : list Z) (s s' : Screen) :
  pixels_ok s → length c = 3%nat → repainted c s s' → pixels_ok s'.
Proof.
  intros [_ Hcells] Hc [Hs' Hrep]. split; [done|].
  apply Forall_lookup. intros i row Hrow. apply Forall_lookup. intros j rgb Hrgb.
  assert (cell s' i j = Some rgb) as Hcell by (unfold cell; by rewrite Hrow).
  destruct (Hrep i j) as [Heq | Heq]; rewrite Hcell in Heq.
  - unfold cell in Heq. destruct (s !! i) as [row0|] eqn:Hrow0; [|done]. simpl in Heq.
    rewrite Forall_lookup in Hcells. specialize (Hcells _ _ Hrow0).
    rewrite Forall_lookup in Hcells. by eapply Hcells.
  - by injection Heq as ->.
Qed.

Lemma DrawLines_pixels_ok (fuel : nat) (c : list Z) (edges : Matrix) (s : Screen) :
  pixels_ok s → length c = 3%nat → kept pixels_ok (draw.DrawLines fuel c edges s).
Proof.
  intros Hs Hc s' Hrun. apply (pixels_ok_repainted c s); [done..|].
  apply (DrawLines_keeps c (repainted c s) fuel edges s); [| |done].
  - intros s1 x y. apply repainted_plot.
  - apply repainted_refl. by destruct Hs.
Qed.

Lemma SetColor_three (c : list Z) (name : string) :
  length c = 3%nat → length (draw.SetColor c name) = 3%nat.
Proof. intros Hc. unfold draw.SetColor. by repeat case_decide. Qed.

Lemma MultiplyMatrices_writes_second (pa pb : string) (σ : gmap string Matrix) :
  kept (λ σ', ∃ c, σ' = <[pb := c]> σ) (matrix.MultiplyMatrices pa pb σ).
Proof.
  unfold matrix.MultiplyMatrices. do 3 (apply kept_any; intros ?).
  apply kept_Ok. eauto.
Qed.

End Kept.

Section Invariant.
Context `{GoMath} `{GoStrconv} `{display.GoOS}.

Lemma follows_refl (st : parser.state) : state_ok st → follows st st.
Proof. intros Hst. split; [done|]. exists []. by rewrite app_nil_r. Qed.

Lemma follows_trans (st1 st2 st3 : parser.state) :
  follows st1 st2 → follows st2 st3 → follows st1 st3.
Proof.
  intros [_ [e1 Ht1]] [Hok [e2 Ht2]]. split; [done|].
  exists (e1 ++ e2). by rewrite Ht2, Ht1, app_assoc.
Qed.

Lemma follows_vars (st : parser.state) (σ : gmap string Matrix) :
  state_ok st → σ !! parser.stepTransform = None → follows st (parser.set_vars st σ).
Proof.
  intros (Hs & Hc & _) Hσ. split; [done|]. exists []. by rewrite app_nil_r.
Qed.

Lemma follows_screen (st : parser.state) (s : Screen) :
  state_ok st → pixels_ok s → follows st (parser.set_screen st s).
Proof.
  intros (_ & Hc & Hv) Hs. split; [done|]. exists []. by rewrite app_nil_r.
Qed.

Lemma follows_emit (st : parser.state) (events : list display.event) :
  state_ok st → follows st (parser.emit st events).
Proof. intros Hst. split; [done|]. by exists events. Qed.

Lemma draw_edges_follows (fuel : nat) (st : parser.state) :
  state_ok st → kept (follows st) (parser.draw_edges fuel st).
Proof.
  intros Hst. pose proof Hst as (Hs & Hc & _). unfold parser.draw_edges.
  apply kept_any. intros e.
  eapply kept_bind; [by apply DrawLines_pixels_ok|].
  intros s Hs'. apply kept_Ok. by apply follows_screen.
Qed.

Lemma add_to_edges_follows (f : Matrix → res Matrix) (st : parser.state) :
  state_ok st → kept (follows st) (parser.add_to_edges f st).
Proof.
  intros Hst. unfold parser.add_to_edges. do 2 (apply kept_any; intros ?).
  apply kept_Ok, follows_vars; [done|].
  rewrite lookup_insert_ne by (symmetry; apply step_ne_edges). by destruct Hst as (_ & _ & ?).
Qed.


Lemma immediate_follows (fuel : nat) (line : string) (st : parser.state)
    (r : res parser.outcome) :
  state_ok st → parser.immediate fuel line st = Some r →
  kept (λ o, follows st (state_of o)) r.
Proof.
  intros Hst. pose proof Hst as (Hs & Hc & Hv). unfold parser.immediate.
  repeat case_decide;
    try match goal with
        | |- context [strings_Contains line "color"] =>
            destruct (strings_Contains line "color")
        end;
    intros [= <-].
  - (* ident *)
    apply kept_any. intros t. apply kept_Ok, follows_vars; [done|].
    by rewrite lookup_insert_ne by (symmetry; apply step_ne_transform).
  - (* display *)
    assert (follows st (parser.set_screen st (display.ClearScreen (parser.screen st))))
      as Hclear.
    { apply follows_screen; [done|].
      rewrite ClearScreen_NewScreen by (by destruct Hs as [[? _] _]).
      apply NewScreen_pixels_ok. }
    eapply kept_bind; [apply draw_edges_follows; by destruct Hclear|].
    intros st1 Hst1. apply kept_any. intros shown. apply kept_Ok.
    eapply follows_trans; [exact Hclear|]. eapply follows_trans; [exact Hst1|].
    apply follows_emit. by destruct Hst1.
  - (* clear *)
    apply kept_Ok, follows_vars; [done|].
    by rewrite lookup_insert_ne by (symmetry; apply step_ne_edges).
  - (* apply *)
    eapply kept_bind; [apply MultiplyMatrices_writes_second|].
    intros σ [c ->]. apply kept_Ok, follows_vars; [done|].
    by rewrite lookup_insert_ne by (symmetry; apply step_ne_edges).
  - (* quit *)
    by apply kept_Ok, follows_refl.
  - (* draw *)
    eapply kept_bind; [by apply draw_edges_follows|].
    intros st1 Hst1. by apply kept_Ok.
  - (* show *)
    apply kept_any. intros shown. by apply kept_Ok, follows_emit.
  - (* color *)
    apply kept_any. intros color. apply kept_Ok. split; [|exists []; by rewrite app_nil_r].
    split; [done|]. split; [by apply SetColor_three | done].
Qed.


Lemma with_params_follows (fuel : nat) (line params : string) (st : parser.state) :
  state_ok st → kept (follows st) (parser.with_params fuel line params st).
Proof.
  intros Hst. unfold parser.with_params.
  repeat case_decide; try case_bool_decide.
  all: repeat (first [by apply add_to_edges_follows | apply kept_any; intro]).
  all: first [by apply kept_Ok, follows_emit
             |apply kept_Ok, follows_vars; [done | apply lookup_delete_eq]].
Qed.

Lemma kept_follows_trans (st st1 : parser.state) (r : res parser.state) :
  follows st st1 → kept (follows st1) r → kept (follows st) r.
Proof. intros H01 Hr s Hs. eapply follows_trans; [exact H01 | by apply Hr]. Qed.

Lemma ParseFile_follows (fuel : nat) (n : nat) :
  ∀ (lines : list string) (st : parser.state),
    (length lines ≤ n)%nat → state_ok st →
    kept (follows st) (parser.ParseFile fuel lines st).
Proof.
  induction n as [|n IH]; intros lines st Hlen Hst.
  { destruct lines; [|simpl in Hlen; lia]. by apply kept_Ok, follows_refl. }
  destruct lines as [|line rest]; [by apply kept_Ok, follows_refl|].
  simpl in Hlen. cbn [parser.ParseFile].
  destruct (parser.immediate fuel line st) as [r|] eqn:Hi.
  - eapply kept_bind; [by eapply immediate_follows|].
    intros [st1|st1] Hst1; cbn [state_of] in Hst1.
    + eapply kept_follows_trans; [exact Hst1|]. apply IH; [lia | by destruct Hst1].
    + by apply kept_Ok.
  - destruct (parser.skipped line); [apply IH; [lia | done]|].
    destruct rest as [|params rest]; [by apply with_params_follows|].
    eapply kept_bind; [by apply with_params_follows|].
    intros st1 Hst1. eapply kept_follows_trans; [exact Hst1|].
    apply IH; [simpl in Hlen; lia | by destruct Hst1].
Qed.

(** X28. Whatever the script, the state that [ParseFile] returns is well formed:
    the screen has the size of [NewScreen] and three numbers in every cell,
    the draw colour has three numbers; and the trace has only grown. On such
    a screen [WriteScreenToPPM] panics where [os.OpenFile] returns an error
    and nowhere else: no index of its loops is out of range. *)
Theorem ParseFile_keeps_state (fuel : nat) (lines : list string) (st st' : parser.state) :
  state_ok st → parser.ParseFile fuel lines st = Ok st' →
  state_ok st' ∧ (∃ events, parser.trace st' = parser.trace st ++ events) ∧
  ∀ past, display.WriteScreenToPPM past (parser.screen st') = Panic ↔
          display.os_OpenFile past display.PPMFilename = false.
Proof.
  intros Hst Hrun.
  destruct (ParseFile_follows fuel (length lines) lines st (le_n _) Hst st' Hrun)
    as [Hst' Htrace].
  split; [done|]. split; [done|].
  destruct Hst' as (Hs & _). intros past. unfold display.WriteScreenToPPM.
  rewrite (ppm_text_of_screen _ Hs).
  by destruct (display.os_OpenFile past display.PPMFilename).
Qed.

End Invariant.

Lemma start_ok : state_ok start.
Proof. split; [apply NewScreen_pixels_ok | done]. Qed.

Lemma ParseFile_keeps_state_witness :
  state_ok (parser.State initial_store display.NewScreen [255; 255; 0]%Z []).
Proof.
  apply (@ParseFile_keeps_state stub_math stub_strconv stub_os 10 ["color yellow"; "quit"] start);
    [apply start_ok | reflexivity].
Defined.

(** ** A script from end to end *)

Section EndToEnd.
Context `{GoMath} `{GoStrconv} `{display.GoOS}.
Local Open Scope float_scope.

(** Where there is no transform yet, the step becomes the transform. *)
Lemma composeStep_adopts (σ : gmap string Matrix) (S : Matrix) :
  σ !! parser.transform = Some [] → σ !! parser.stepTransform = None →
  (σ' ← parser.composeStep (<[parser.stepTransform := S]> σ);
   Ok (delete parser.stepTransform σ'))
  = Ok (<[parser.transform := S]> σ).
Proof.
  intros HT Hstep. pose proof step_ne_transform as Hne.
  unfold parser.composeStep, matrix.deref.
  rewrite lookup_insert_eq, lookup_insert_ne by done. rewrite HT. cbn [mbind res_bind length].
  rewrite decide_True by done. cbn [mbind res_bind]. f_equal.
  rewrite delete_insert_ne by done. rewrite delete_insert_eq. by rewrite delete_id.
Qed.

(** X29. The script [line], [move], [apply]: the line is added, the translation
    becomes the transform (there was none), and the edge matrix is moved. *)
Theorem line_move_apply (fuel : nat) (l m : string) (x0 y0 z0 x1 y1 z1 tx ty tz : float) :
  parser.FloatParams l = Ok [x0; y0; z0; x1; y1; z1] →
  parser.FloatParams m = Ok [tx; ty; tz] →
  Forall (λ v, finite v = true) [x0; y0; z0; x1; y1; z1] →
  ∃ st, main.main fuel ["line"; l; "move"; m; "apply"] = Ok st ∧
    parser.vars st !! parser.transform
      = Some [[1; 0; 0; tx]; [0; 1; 0; ty]; [0; 0; 1; tz]; [0; 0; 0; 1]] ∧
    parser.vars st !! parser.edges
      = Some [[0 + x0 + tx; 0 + x1 + tx]; [0 + y0 + ty; 0 + y1 + ty];
              [0 + z0 + tz; 0 + z1 + tz]; [1; 1]] ∧
    parser.screen st = display.NewScreen ∧ parser.trace st = [].
Proof.
  intros Hl Hm Hfin. unfold main.main. cbv zeta.
  rewrite (ParseFile_with_params fuel "line" l _ _ eq_refl eq_refl).
  change (parser.with_params fuel "line" l ?st)
    with (p ← parser.FloatParams l; parser.add_to_edges (λ e, draw.AddEdge e p) st).
  rewrite Hl, bind_Ok.
  unfold parser.add_to_edges at 1, matrix.deref. cbn [parser.vars].
  rewrite lookup_insert_ne by apply transform_ne_edges. rewrite lookup_insert_eq.
  cbn [mbind res_bind].
  change (draw.AddEdge [[]; []; []; []] [x0; y0; z0; x1; y1; z1])
    with (Ok [[x0; x1]; [y0; y1]; [z0; z1]; [1; 1]] : res Matrix).
  cbn [mbind res_bind parser.set_vars parser.vars parser.screen parser.DefaultDrawColor
       parser.trace].
  rewrite (ParseFile_with_params fuel "move" m _ _ eq_refl eq_refl).
  rewrite with_params_step by set_solver.
  change (parser.step_of "move" m)
    with (p ← parser.FloatParams m; matrix.MakeTranslationMatrix p).
  rewrite Hm, bind_Ok.
  change (matrix.MakeTranslationMatrix [tx; ty; tz])
    with (Ok [[1; 0; 0; tx]; [0; 1; 0; ty]; [0; 0; 1; tz]; [0; 0; 0; 1]] : res Matrix).
  rewrite bind_Ok. cbn [parser.vars].
  set (E := [[x0; x1]; [y0; y1]; [z0; z1]; [1; 1]]).
  set (T := [[1; 0; 0; tx]; [0; 1; 0; ty]; [0; 0; 1; tz]; [0; 0; 0; 1]]).
  set (σ1 := <[parser.edges := E]> _).
  assert (σ1 !! parser.transform = Some []) as HT1.
  { unfold σ1. rewrite lookup_insert_ne by (symmetry; apply transform_ne_edges).
    by rewrite lookup_insert_eq. }
  assert (σ1 !! parser.stepTransform = None) as Hs1 by done.
  pose proof (composeStep_adopts σ1 T HT1 Hs1) as Hcompose.
  destruct (parser.composeStep _) as [σ| |]; try done.
  cbn [mbind res_bind] in *. injection Hcompose as ->.
  rewrite (ParseFile_immediate fuel "apply" [] _ _ eq_refl).
  cbn [parser.vars parser.set_vars]. unfold parser.apply.
  rewrite (MultiplyMatrices_Ok _ _ _ T E 4 4 2);
    [|by rewrite lookup_insert_eq
     |rewrite lookup_insert_ne by apply transform_ne_edges; unfold σ1;
      by rewrite lookup_insert_eq
     |by apply is_matrix_4_4 | split; [done | by repeat constructor] | lia].
  cbn [mbind res_bind parser.ParseFile]. eexists. split; [reflexivity|].
  cbn [parser.vars parser.set_vars parser.screen parser.trace
       parser.DefaultDrawColor].
  split; [|split; [|done]].
  - rewrite lookup_insert_ne by (symmetry; apply transform_ne_edges).
    by rewrite lookup_insert_eq.
  - rewrite lookup_insert_eq. f_equal.
    apply Forall_cons in Hfin as [F0 Hfin]. apply Forall_cons in Hfin as [F1 Hfin].
    apply Forall_cons in Hfin as [F2 Hfin]. apply Forall_cons in Hfin as [F3 Hfin].
    apply Forall_cons in Hfin as [F4 Hfin]. apply Forall_cons in Hfin as [F5 _].
    unfold product_rows, product_cell, col_of, dot_product, T, E.
    cbn [fmap list_fmap seq lookup list_lookup default zip zip_with foldl fst snd
         from_option].
    by zero_terms.
Qed.

End EndToEnd.

Lemma line_move_apply_witness :
  ∃ st, @main.main stub_math stub_strconv stub_os 10 ["line"; "0 0 0 4 0 0"; "move"; "1 2 3"; "apply"]
        = Ok st ∧
    parser.vars st !! parser.edges = Some [[1; 5]; [2; 2]; [3; 3]; [1; 1]]%float.
Proof.
  destruct (@line_move_apply stub_math stub_strconv stub_os 10 "0 0 0 4 0 0" "1 2 3"
              0 0 0 4 0 0 1 2 3 eq_refl eq_refl ltac:(by repeat constructor))
    as (st & Hrun & _ & Hedges & _).
  by exists st.
Defined.
